(** * prompt-forge: template extraction, value resolution, rendering
      and the first-match rule engine of [prompt_forge.py].

    Text is modelled as [list ascii] (the ASCII fragment of Python's
    [str]); Python's insertion-ordered [dict] as an association list
    with in-place update; the [re] module as a backtracking matcher
    over the syntax trees of the patterns the program uses. *)

From Stdlib Require Import String Ascii.
From Stdlib Require Import List ZArith Lia Bool Arith.
From Stdlib Require Floats.SpecFloat.
From Stdlib Require Import Permutation.
Import ListNotations.
Local Open Scope list_scope.

Set Implicit Arguments.

(** ** Text *)

Definition str := list ascii.

Definition txt (s : string) : str := list_ascii_of_string s.

Arguments txt s%_string.

Definition code (c : ascii) : nat := nat_of_ascii c.

Definition between (lo hi : nat) (c : ascii) : bool :=
  (lo <=? code c) && (code c <=? hi).

Definition is_digit (c : ascii) : bool := between 48 57 c.
Definition is_octdigit (c : ascii) : bool := between 48 55 c.
Definition is_upper (c : ascii) : bool := between 65 90 c.
Definition is_lower (c : ascii) : bool := between 97 122 c.
Definition is_asciiletter (c : ascii) : bool := is_upper c || is_lower c.

(** [\w] on ASCII text: letters, digits and the underscore. *)
Definition is_word (c : ascii) : bool :=
  is_asciiletter c || is_digit c || Ascii.eqb c "_".

(** [str.isspace] on ASCII text. *)
Definition is_space (c : ascii) : bool :=
  between 9 13 c || between 28 32 c.

Definition lower (c : ascii) : ascii :=
  if is_upper c then ascii_of_nat (code c + 32) else c.

Fixpoint str_eqb (a b : str) : bool :=
  match a, b with
  | [], [] => true
  | x :: a', y :: b' => Ascii.eqb x y && str_eqb a' b'
  | _, _ => false
  end.

Definition nonempty (s : str) : bool :=
  match s with [] => false | _ => true end.

(** The rest of [s] after the prefix [p], characters compared by [eq]. *)
Fixpoint strip_by (eq : ascii -> ascii -> bool) (p s : str) : option str :=
  match p with
  | [] => Some s
  | x :: p' =>
      match s with
      | y :: s' => if eq x y then strip_by eq p' s' else None
      | [] => None
      end
  end.

Definition strip_prefix (p s : str) : option str := strip_by Ascii.eqb p s.

Fixpoint take_while (p : ascii -> bool) (s : str) : str :=
  match s with
  | c :: s' => if p c then c :: take_while p s' else []
  | [] => []
  end.

Fixpoint drop_while (p : ascii -> bool) (s : str) : str :=
  match s with
  | c :: s' => if p c then drop_while p s' else s
  | [] => []
  end.

(** ** Insertion-ordered dictionaries *)

Section Dict.
Variable V : Type.

Definition dict := list (str * V).

Fixpoint dict_get (k : str) (d : dict) : option V :=
  match d with
  | [] => None
  | (k', v) :: d' => if str_eqb k k' then Some v else dict_get k d'
  end.

Definition dict_mem (k : str) (d : dict) : bool :=
  match dict_get k d with Some _ => true | None => false end.

(** [d[k] = v]: an existing key keeps its position, a new key goes
    to the end. *)
Fixpoint dict_set (k : str) (v : V) (d : dict) : dict :=
  match d with
  | [] => [(k, v)]
  | (k', v') :: d' =>
      if str_eqb k k' then (k', v) :: d' else (k', v') :: dict_set k v d'
  end.

(** [d.update(e)] and the dict built from a list of pairs. *)
Definition dict_update (d : dict) (e : list (str * V)) : dict :=
  fold_left (fun acc kv => dict_set (fst kv) (snd kv) acc) e d.

Definition dict_keys (d : dict) : list str := map fst d.
End Dict.

Arguments dict_get {V} k d.
Arguments dict_mem {V} k d.
Arguments dict_set {V} k v d.
Arguments dict_update {V} d e.
Arguments dict_keys {V} d.

(** ** The [re] module: patterns and the backtracking matcher *)

Module Re.

Inductive re : Type :=
| Eps
| Chr (c : ascii)          (* a literal character *)
| Any                      (* [.]: any character but a newline *)
| Word                     (* [\w] *)
| NotChr (c : ascii)       (* [[^c]] *)
| Seq (a b : re)
| Alt (a b : re)           (* [a|b], left branch first *)
| Opt (a : re)             (* greedy [a?] *)
| Star (a : re)            (* greedy [a*] *)
| Plus (a : re)            (* greedy [a+] *)
| Group (i : nat) (a : re) (* capturing group number [i] *).

(** A literal run of characters, as [re.escape] produces. *)
Fixpoint lit (l : str) : re :=
  match l with
  | [] => Eps
  | c :: l' => Seq (Chr c) (lit l')
  end.

(** Alternation of a non-empty list of branches. *)
Fixpoint alts (r : re) (rs : list re) : re :=
  match rs with
  | [] => r
  | r' :: rs' => Alt r (alts r' rs')
  end.

(** Captured groups, most recent binding first. *)
Definition caps := list (nat * str).

Fixpoint group (i : nat) (g : caps) : option str :=
  match g with
  | [] => None
  | (j, s) :: g' => if Nat.eqb i j then Some s else group i g'
  end.

Section Engine.
Variable ic : bool.        (* re.IGNORECASE *)
Variable R : Type.

Definition cont := str -> caps -> option R.

Definition chr_eq (a x : ascii) : bool :=
  if ic then Ascii.eqb (lower a) (lower x) else Ascii.eqb a x.

Definition one (p : ascii -> bool) (s : str) (g : caps) (k : cont)
  : option R :=
  match s with
  | x :: s' => if p x then k s' g else None
  | [] => None
  end.

(** Greedy repetition: one more iteration first, the continuation
    only when that fails. An iteration must consume text. *)
Fixpoint star_loop (step : str -> caps -> cont -> option R)
    (fuel : nat) (s : str) (g : caps) (k : cont) : option R :=
  match fuel with
  | 0 => k s g
  | S f =>
      match step s g (fun s' g' =>
               if length s' <? length s
               then star_loop step f s' g' k else None) with
      | Some r => Some r
      | None => k s g
      end
  end.

Fixpoint run (r : re) (s : str) (g : caps) (k : cont) : option R :=
  match r with
  | Eps => k s g
  | Chr a => one (chr_eq a) s g k
  | Any => one (fun x => negb (Ascii.eqb x "010")) s g k
  | Word => one is_word s g k
  | NotChr a => one (fun x => negb (Ascii.eqb x a)) s g k
  | Seq a b => run a s g (fun s' g' => run b s' g' k)
  | Alt a b =>
      match run a s g k with
      | Some x => Some x
      | None => run b s g k
      end
  | Opt a =>
      match run a s g k with
      | Some x => Some x
      | None => k s g
      end
  | Star a => star_loop (run a) (length s) s g k
  | Plus a =>
      run a s g (fun s' g' => star_loop (run a) (length s') s' g' k)
  | Group i a =>
      run a s g (fun s' g' =>
        k s' ((i, firstn (length s - length s') s) :: g'))
  end.
End Engine.

(** A match anchored at the head of [s]: the length of the matched
    text and the groups. With [adv] an empty match is refused. *)
Definition match_at (ic : bool) (r : re) (s : str) (adv : bool)
  : option (nat * caps) :=
  run ic r s [] (fun s' g =>
    let n := length s - length s' in
    if adv && (n =? 0) then None else Some (n, g)).

(** [re.search] as a test: is there a match starting anywhere? *)
Fixpoint search (ic : bool) (r : re) (s : str) : bool :=
  match match_at ic r s false with
  | Some _ => true
  | None => match s with [] => false | _ :: s' => search ic r s' end
  end.

(** *** Iterating over the matches ([findall], [sub])

    The text is walked from left to right. After a match the walk
    resumes at its end; after an empty match the same position is
    tried once more for a non-empty one, and failing that one
    character is copied. [skip] counts the characters of the
    current match that are still to be passed over. *)

Inductive piece : Type :=
| Skip (c : ascii)            (* a character outside every match *)
| Hit (m : str) (g : caps)    (* a match and its groups *).

Section Scan.
Variable matcher : str -> bool -> option (nat * caps).

Fixpoint scan (s : str) (skip : nat) {struct s} : list piece :=
  match skip with
  | S n => match s with [] => [] | _ :: s' => scan s' n end
  | 0 =>
      match matcher s false with
      | Some (S n, g) =>
          Hit (firstn (S n) s) g ::
          match s with [] => [] | _ :: s' => scan s' n end
      | Some (0, g) =>
          Hit [] g ::
          match matcher s true with
          | Some (S n, g') =>
              Hit (firstn (S n) s) g' ::
              match s with [] => [] | _ :: s' => scan s' n end
          | _ =>
              match s with [] => [] | x :: s' => Skip x :: scan s' 0 end
          end
      | None =>
          match s with [] => [] | x :: s' => Skip x :: scan s' 0 end
      end
  end.
End Scan.

Definition finditer (r : re) (s : str) : list piece :=
  scan (match_at false r) s 0.

Definition group_or_empty (i : nat) (g : caps) : str :=
  match group i g with Some s => s | None => [] end.

(** [re.findall] for a pattern with two groups: the pairs of group
    texts, a group that took no part giving the empty string. *)
Definition hits2 (ps : list piece) : list (str * str) :=
  flat_map (fun p =>
    match p with
    | Hit _ g => [(group_or_empty 1 g, group_or_empty 2 g)]
    | Skip _ => []
    end) ps.

Definition findall2 (r : re) (s : str) : list (str * str) :=
  hits2 (finditer r s).

(** *** Replacement templates ([re.sub] with a string [repl])

    A replacement without a backslash is literal. Otherwise it is
    parsed: [\g<n>] and [\n] refer to groups, [\0oo] and [\ooo] are
    octal codes, [\a \b \f \n \r \t \v \\] are escapes, a backslash
    before another ASCII letter or at the end is an error, and a
    backslash before anything else stays as it is. *)

Inductive titem : Type :=
| TChr (c : ascii)
| TGroup (i : nat).

Definition digit_val (c : ascii) : nat := code c - 48.

Definition escape_of (c : ascii) : option ascii :=
  if Ascii.eqb c "a" then Some "007"%char
  else if Ascii.eqb c "b" then Some "008"%char
  else if Ascii.eqb c "f" then Some "012"%char
  else if Ascii.eqb c "n" then Some "010"%char
  else if Ascii.eqb c "r" then Some "013"%char
  else if Ascii.eqb c "t" then Some "009"%char
  else if Ascii.eqb c "v" then Some "011"%char
  else if Ascii.eqb c "\" then Some "\"%char
  else None.

Definition decimal (s : str) : nat :=
  fold_left (fun n c => 10 * n + digit_val c) s 0.

(** The replacement after [\g]: [<digits>] naming a group of the
    pattern. A pattern of this program has no named group, so any
    other name is an error. *)
Definition group_ref (ngroups : nat) (s : str) : option (nat * str) :=
  match s with
  | "<"%char :: s1 =>
      let name := take_while (fun c => negb (Ascii.eqb c ">")) s1 in
      match drop_while (fun c => negb (Ascii.eqb c ">")) s1 with
      | _ :: rest =>
          if nonempty name && forallb is_digit name
             && (decimal name <=? ngroups)
          then Some (decimal name, rest) else None
      | [] => None
      end
  | _ => None
  end.

Fixpoint parse_template_from (fuel : nat) (ngroups : nat) (s : str)
  : option (list titem) :=
  match fuel with
  | 0 => match s with [] => Some [] | _ => None end
  | S f =>
    let continue item rest :=
      option_map (fun l => item ++ l) (parse_template_from f ngroups rest) in
    match s with
    | [] => Some []
    | "\"%char :: [] => None
    | "\"%char :: c :: s1 =>
        if Ascii.eqb c "g" then
          match group_ref ngroups s1 with
          | Some (i, rest) => continue [TGroup i] rest
          | None => None
          end
        else if Ascii.eqb c "0" then
          match s1 with
          | d1 :: d2 :: rest =>
              if is_octdigit d1 && is_octdigit d2 then
                continue [TChr (ascii_of_nat
                  ((8 * digit_val d1 + digit_val d2) mod 256))] rest
              else if is_octdigit d1 then
                continue [TChr (ascii_of_nat (digit_val d1))] (d2 :: rest)
              else continue [TChr zero] s1
          | d1 :: rest =>
              if is_octdigit d1 then
                continue [TChr (ascii_of_nat (digit_val d1))] rest
              else continue [TChr zero] s1
          | [] => continue [TChr zero] s1
          end
        else if is_digit c then
          match s1 with
          | d1 :: s2 =>
              if is_digit d1 then
                match s2 with
                | d2 :: rest =>
                    if is_octdigit c && is_octdigit d1 && is_octdigit d2
                    then
                      let v := 64 * digit_val c + 8 * digit_val d1
                               + digit_val d2 in
                      if 255 <? v then None
                      else continue [TChr (ascii_of_nat v)] rest
                    else
                      let i := 10 * digit_val c + digit_val d1 in
                      if i <=? ngroups then continue [TGroup i] s2
                      else None
                | [] =>
                    let i := 10 * digit_val c + digit_val d1 in
                    if i <=? ngroups then continue [TGroup i] s2 else None
                end
              else
                if digit_val c <=? ngroups
                then continue [TGroup (digit_val c)] s1 else None
          | [] =>
              if digit_val c <=? ngroups
              then continue [TGroup (digit_val c)] s1 else None
          end
        else
          match escape_of c with
          | Some e => continue [TChr e] s1
          | None =>
              if is_asciiletter c then None
              else continue [TChr "\"%char; TChr c] s1
          end
    | c :: s1 => continue [TChr c] s1
    end
  end.

Definition parse_template (ngroups : nat) (repl : str)
  : option (list titem) :=
  if existsb (Ascii.eqb "\") repl
  then parse_template_from (length repl) ngroups repl
  else Some (map TChr repl).

Definition expand (tpl : list titem) (m : str) (g : caps) : str :=
  flat_map (fun it =>
    match it with
    | TChr c => [c]
    | TGroup 0 => m
    | TGroup i => group_or_empty i g
    end) tpl.

Definition glue (tpl : list titem) (ps : list piece) : str :=
  flat_map (fun p =>
    match p with
    | Skip c => [c]
    | Hit m g => expand tpl m g
    end) ps.

(** [re.sub(r, repl, s)] for a pattern with [ngroups] groups; [None]
    is the error the replacement parser raises. *)
Definition sub (ngroups : nat) (r : re) (repl s : str) : option str :=
  match parse_template ngroups repl with
  | Some tpl => Some (glue tpl (finditer r s))
  | None => None
  end.

End Re.

Import Re.

(** ** Errors, and the console the program talks to *)

Inductive error : Type :=
| InvalidVar (v : str)            (* ValueError: Invalid --var: v (use KEY=VALUE) *)
| Missing (names : list str)      (* ValueError: Missing: a, b *)
| BadReplacement                  (* the replacement parser of [re.sub] raised *)
| EOFError                        (* [input] at the end of the input *).

Inductive result (A : Type) : Type :=
| Ok (a : A)
| Err (e : error).

Arguments Ok {A} a.
Arguments Err {A} e.

Fixpoint join (sep : str) (l : list str) : str :=
  match l with
  | [] => []
  | [a] => a
  | a :: l' => a ++ sep ++ join sep l'
  end.

Definition dquote : ascii := Eval cbv in ascii_of_nat 34.
Definition newline : ascii := Eval cbv in ascii_of_nat 10.

Definition quoted (s : str) : str := dquote :: s ++ [dquote].

Definition message (e : error) : str :=
  match e with
  | InvalidVar v => txt "Invalid --var: " ++ v ++ txt " (use KEY=VALUE)"
  | Missing names => txt "Missing: " ++ join (txt ", ") names
  | BadReplacement => txt "bad replacement"
  | EOFError => txt "EOF when reading a line"
  end.

Record world : Type := World {
  stdin : list str;    (* the lines still to be read *)
  stdout : list str;   (* what was written, oldest first *)
  stderr : list str
}.

Definition M (A : Type) : Type := world -> result A * world.

Definition ret {A} (a : A) : M A := fun w => (Ok a, w).

Definition raise {A} (e : error) : M A := fun w => (Err e, w).

Definition bind {A B} (m : M A) (f : A -> M B) : M B :=
  fun w =>
    match m w with
    | (Ok a, w') => f a w'
    | (Err e, w') => (Err e, w')
    end.

Notation "x <- m ;; k" := (bind m (fun x => k))
  (at level 61, m at next level, right associativity).

(** [input(prompt)]: the prompt goes to the output, one line is read. *)
Definition input (prompt : str) : M str :=
  fun w =>
    let w' := World (tl (stdin w)) (stdout w ++ [prompt]) (stderr w) in
    match stdin w with
    | l :: _ => (Ok l, w')
    | [] => (Err EOFError, w')
    end.

Definition warn (line : str) : M unit :=
  fun w => (Ok tt, World (stdin w) (stdout w) (stderr w ++ [line])).

(** [for x in l: acc = body(x, acc)] *)
Fixpoint for_each {X A} (l : list X) (body : X -> A -> M A) (acc : A) : M A :=
  match l with
  | [] => ret acc
  | x :: l' => acc' <- body x acc ;; for_each l' body acc'
  end.

(** ** The program *)

(** The marker pattern of [extract_variables]: two opening braces,
    group 1 = [\w+], then optionally [|default=] and a double-quoted
    run of characters other than the double quote (group 2, inside the
    quotes), then two closing braces. *)
Definition default_clause (capture : bool) : re :=
  let literal := Star (NotChr dquote) in
  Seq (lit (txt "|default=" ++ [dquote]))
      (Seq (if capture then Group 2 literal else literal) (Chr dquote)).

Definition marker_re : re :=
  Seq (lit (txt "{{"))
      (Seq (Group 1 (Plus Word))
           (Seq (Opt (default_clause true)) (lit (txt "}}")))).

(** Python's [x or None] on a string. *)
Definition or_none (s : str) : option str :=
  if nonempty s then Some s else None.

Definition truthy (d : option str) : bool :=
  match d with Some s => nonempty s | None => false end.

(** [{name: default or None for name, default in re.findall(marker, template)}]:
    a later pair for a name overwrites the earlier one, the name keeps
    the position of its first pair. *)
Definition extract_variables (template : str) : dict (option str) :=
  dict_update []
    (map (fun nd => (fst nd, or_none (snd nd))) (findall2 marker_re template)).

(** The pattern of [render_template]: the same with the escaped
    variable name in place of group 1, and no capturing group. *)
Definition render_pattern (var : str) : re :=
  Seq (lit (txt "{{"))
      (Seq (lit var) (Seq (Opt (default_clause false)) (lit (txt "}}")))).

(** [for var, val in values.items(): result = re.sub(pattern(var), str(val), result)] *)
Definition render_template (template : str) (values : dict str)
  : result str :=
  fold_left (fun acc kv =>
      match acc with
      | Ok result =>
          match sub 0 (render_pattern (fst kv)) (snd kv) result with
          | Some result' => Ok result'
          | None => Err BadReplacement
          end
      | Err e => Err e
      end) values (Ok template).

(** [str.replace(old, new)] *)
Definition replace (old new s : str) : str :=
  glue (map TChr new)
    (scan (fun t adv =>
       match strip_prefix old t with
       | Some _ => if adv && (length old =? 0) then None
                   else Some (length old, [])
       | None => None
       end) s 0).

Record rule : Type := Rule { regex : re; response : str }.

(** [for var, val in values.items(): resp = resp.replace('{{' + var + '}}', str(val))] *)
Definition fill_response (resp : str) (values : dict str) : str :=
  fold_left (fun resp kv =>
      replace (txt "{{" ++ fst kv ++ txt "}}") (snd kv) resp) values resp.

(** The first rule whose pattern [re.search] finds, case ignored,
    answers; without one the fixed text does. *)
Fixpoint simulate_response (prompt : str) (rules : list rule)
    (values : dict str) : str :=
  match rules with
  | [] => txt "No matching response."
  | r :: rules' =>
      if search true (regex r) prompt
      then fill_response (response r) values
      else simulate_response prompt rules' values
  end.

(** *** Value resolution *)

(** The command line, as far as [collect_values] reads it. [vars] is
    the object loaded from the [--vars] file, every value in its
    [str()] form; [var] the repeated [--var] arguments in order. *)
Record args : Type := Args {
  vars : option (list (str * str));
  var : list str;
  interactive : bool
}.

Definition not_eq_sign (c : ascii) : bool := negb (Ascii.eqb c "=").

(** ['=' in v] and [v.split('=', 1)] *)
Definition split_eq (v : str) : option (str * str) :=
  match drop_while not_eq_sign v with
  | _ :: val => Some (take_while not_eq_sign v, val)
  | [] => None
  end.

(** [s.strip()] *)
Definition strip (s : str) : str :=
  rev (drop_while is_space (rev (drop_while is_space s))).

Definition prompt_for (name : str) (default : option str) : str :=
  txt "Enter '" ++ name ++ txt "'"
  ++ (if truthy default
      then txt " [" ++ match default with Some d => d | None => [] end
           ++ txt "]"
      else [])
  ++ txt ": ".

(** [val if val else (default or "")] *)
Definition answer (val : str) (default : option str) : str :=
  if nonempty val then val
  else match default with Some d => d | None => [] end.

(** The four stages of [collect_values]: the values file, the
    [--var] arguments, the defaults, the prompts. *)
Definition from_file (a : args) : dict str :=
  match vars a with
  | Some file => dict_update [] file
  | None => []
  end.

Definition from_cli (a : args) (values : dict str) : M (dict str) :=
  for_each (var a) (fun v values =>
    match split_eq v with
    | Some (k, val) => ret (dict_set k val values)
    | None => raise (InvalidVar v)
    end) values.

Definition from_defaults (variables : dict (option str))
    (values : dict str) : dict str :=
  fold_left (fun values vd =>
      match snd vd with
      | Some d =>
          if negb (dict_mem (fst vd) values) && nonempty d
          then dict_set (fst vd) d values else values
      | None => values
      end) variables values.

Definition from_prompts (variables : dict (option str))
    (values : dict str) : M (dict str) :=
  for_each (dict_keys variables) (fun name values =>
    if dict_mem name values then ret values
    else
      let default :=
        match dict_get name variables with Some d => d | None => None end in
      line <- input (prompt_for name default) ;;
      ret (dict_set name (answer (strip line) default) values)) values.

(** The stages in order, then the check for missing variables and
    the warning about unused values. *)
Definition collect_values (variables : dict (option str)) (a : args)
  : M (dict str) :=
  values <- from_cli a (from_file a) ;;
  let values := from_defaults variables values in
  values <- (if interactive a then from_prompts variables values
             else ret values) ;;
  let missing :=
    filter (fun v => negb (dict_mem v values)) (dict_keys variables) in
  match missing with
  | _ :: _ => raise (Missing missing)
  | [] =>
      let unused :=
        filter (fun v => negb (dict_mem v variables)) (dict_keys values) in
      _ <- match unused with
           | _ :: _ => warn (txt "Warning: Unused: " ++ join (txt ", ") unused)
           | [] => ret tt
           end ;;
      ret values
  end.

(** The path of [main] from the template to the rendered prompt. *)
Definition render_prompt (template : str) (a : args) : M str :=
  let variables := extract_variables template in
  values <- collect_values variables a ;;
  match render_template template values with
  | Ok rendered => ret rendered
  | Err e => raise e
  end.

(** *** Token estimate *)

(** [text.split()]: the maximal runs of characters that are not
    whitespace. [cur] is the run being read. *)
Fixpoint split_from (s : str) (cur : option str) : list str :=
  match s with
  | [] => match cur with Some w => [w] | None => [] end
  | c :: s' =>
      if is_space c then
        match cur with
        | Some w => w :: split_from s' None
        | None => split_from s' None
        end
      else
        split_from s' (Some (match cur with Some w => w ++ [c] | None => [c] end))
  end.

Definition split (s : str) : list str := split_from s None.

Local Open Scope Z_scope.

(** Binary64 arithmetic on the values that occur here. A positive
    double is an integer of at most 53 bits times a power of two;
    [round53 p] rounds the integer [p] to 53 significant bits, to
    nearest and ties to even. *)
Definition round53 (p : Z) : Z :=
  let e := Z.log2 p - 52 in
  if e <=? 0 then p
  else
    let q := p / 2 ^ e in
    let r := p mod 2 ^ e in
    let half := 2 ^ (e - 1) in
    let q' := if r <? half then q
              else if half <? r then q + 1
              else if Z.even q then q else q + 1 in
    q' * 2 ^ e.

(** The double nearest to 1.3 is [float_1_3 / 2^52]. *)
Definition float_1_3 : Z := 5854679515581645.

(** [int(n * 1.3)]: [n] becomes a double, the product is rounded to a
    double, and [int] drops the fraction. *)
Definition int_times_1_3 (n : Z) : Z :=
  round53 (round53 n * float_1_3) / 2 ^ 52.

Definition estimate_tokens (text : str) : Z :=
  int_times_1_3 (Z.of_nat (length (split text))).

Local Close Scope Z_scope.

(** *** The built-in rules *)

Definition words (l : list string) : re :=
  match map (fun w => lit (txt w)) l with
  | [] => Eps
  | r :: rs => alts r rs
  end.

Definition lines (l : list string) : str :=
  join [newline] (map txt l).

Definition DEFAULT_RULES : list rule := [
  Rule (words ["code"; "programming"; "python"; "javascript"; "function";
               "class"; "implement"]%string)
       (lines ["Here's a code implementation:"; ""; "```";
               "# Implementation"; "```"; "";
               "This demonstrates the functionality."]%string);
  Rule (words ["explain"; "what is"; "describe"; "definition"]%string)
       (lines ["Explanation:"; ""; "Key points:"; "1. First"; "2. Second";
               "3. Third"]%string);
  Rule (words ["list"; "enumerate"; "steps"; "how to"]%string)
       (lines ["Steps:"; ""; "1. First"; "2. Second"; "3. Third"]%string);
  Rule (words ["debug"; "error"; "fix"; "problem"]%string)
       (lines ["Troubleshooting:"; ""; "**Problem:** [issue]";
               "**Solution:** [fix]"; "**Explanation:** [why]"]%string);
  Rule (words ["review"; "analyze"; "evaluate"]%string)
       (lines ["Analysis:"; ""; "**Strengths:** Point 1";
               "**Improvements:** Point 2"]%string);
  Rule (Star Any)
       (txt "I understand. Here's a response addressing your needs.")
].

(** ** Output, history and [main] *)

(** The command line as [parse_args] returns it. The files it names
    for reading are given by what they hold: [template] is the text of
    the template file and [rules] the rules of the [--rules] file when
    the option names one (a path that is not empty), [sources] is the
    part [collect_values] reads. [save] is the path as given. *)
Inductive format_choice : Type := Text | Markdown | Json.

Record options : Type := Options {
  template : option str;
  inline_template : option str;
  sources : args;
  simulate : bool;
  rules : option (list rule);
  format : format_choice;
  show_tokens : bool;
  save : option str;
  check : bool;
  dry_run : bool;
  version : bool
}.

(** A reading of [datetime.now()], by the two texts the program takes
    from it. *)
Record instant : Type := Instant {
  isoformat : str;   (* .isoformat() *)
  strftime : str     (* .strftime('%Y-%m-%d %H:%M:%S') *)
}.

(** What the program acts on: the console, whether the input is a
    terminal, the files it writes (by path), and how many times it
    has read the clock. On [stdout] each piece written is kept as it
    is, so a printed line ends with its line break; [stderr] keeps the
    lines printed. *)
Record system : Type := System {
  console : world;
  isatty : bool;
  files : dict str;
  ticks : nat
}.

Definition with_console (w : world) (s : system) : system :=
  System w (isatty s) (files s) (ticks s).

(** [print(line)] and [print(line, file=sys.stderr)] *)
Definition print_out (line : str) (s : system) : system :=
  with_console
    (World (stdin (console s)) (stdout (console s) ++ [line ++ [newline]])
           (stderr (console s))) s.

Definition print_err (line : str) (s : system) : system :=
  with_console
    (World (stdin (console s)) (stdout (console s))
           (stderr (console s) ++ [line])) s.

(** *** [str] of a number that is not negative *)

Definition digit (n : Z) : ascii := ascii_of_nat (48 + Z.to_nat n).

Fixpoint digits (fuel : nat) (n : Z) (acc : str) : str :=
  let acc' := digit (n mod 10) :: acc in
  match fuel with
  | S fuel' => if (n <? 10)%Z then acc' else digits fuel' (n / 10) acc'
  | 0 => acc'
  end.

Definition str_of_int (n : Z) : str := digits (Z.to_nat (Z.log2 n)) n [].

(** *** [json.dumps(out, indent=2)] on an object of strings and numbers *)

Definition hexdigit (n : nat) : ascii :=
  nth n (txt "0123456789abcdef") "0"%char.

(** The characters from the space to the tilde stand for themselves,
    but for the double quote and the backslash; the others are
    escaped. *)
Definition json_char (c : ascii) : str :=
  if Ascii.eqb c dquote then ["\"%char; dquote]
  else if Ascii.eqb c "\" then txt "\\"
  else if code c =? 10 then txt "\n"
  else if code c =? 13 then txt "\r"
  else if code c =? 9 then txt "\t"
  else if code c =? 8 then txt "\b"
  else if code c =? 12 then txt "\f"
  else if between 32 126 c then [c]
  else txt "\u00" ++ [hexdigit (code c / 16); hexdigit (code c mod 16)].

Definition json_string (s : str) : str := quoted (flat_map json_char s).

(** The members, each with its value already written, one to a line. *)
Definition dumps (members : list (str * str)) : str :=
  txt "{" ++ [newline]
  ++ join (txt "," ++ [newline])
       (map (fun kv => txt "  " ++ json_string (fst kv) ++ txt ": " ++ snd kv)
            members)
  ++ [newline] ++ txt "}".

(** *** [format_output], [save_to_history], [load_template], [main] *)

Definition text_of (response : option str) : str :=
  match response with Some r => r | None => [] end.

(** The truth value of a number that may be [None], and the number. *)
Definition nonzero (tokens : option Z) : bool :=
  match tokens with Some n => negb (n =? 0)%Z | None => false end.

Definition int_of (tokens : option Z) : Z :=
  match tokens with Some n => n | None => 0%Z end.

Inductive failure : Type :=
| Raised (e : error)   (* what [collect_values] or [render_template] raised *)
| NoTemplate           (* ValueError: No template (use file, --template, or stdin) *).

Definition failure_text (f : failure) : str :=
  match f with
  | Raised e => message e
  | NoTemplate => txt "No template (use file, --template, or stdin)"
  end.

Inductive outcome (A : Type) : Type :=
| Done (a : A)
| Failed (f : failure).

Arguments Done {A} a.
Arguments Failed {A} f.

Definition VERSION : str := txt "1.0.0".

(** [sys.stdin.read()] on the lines still to be read. *)
Definition read_all (input_lines : list str) : str :=
  flat_map (fun l => l ++ [newline]) input_lines.

Definition load_template (o : options) (s : system) : outcome str * system :=
  if truthy (inline_template o) then (Done (text_of (inline_template o)), s)
  else
    match template o with
    | Some content => (Done content, s)
    | None =>
        if isatty s then (Failed NoTemplate, s)
        else (Done (read_all (stdin (console s))),
              with_console
                (World [] (stdout (console s)) (stderr (console s))) s)
    end.

(** The line of [--check] for one variable. *)
Definition check_line (vd : str * option str) : str :=
  txt "  - " ++ fst vd ++ txt " "
  ++ (if truthy (snd vd)
      then txt "(default: " ++ quoted (text_of (snd vd)) ++ txt ")"
      else txt "(required)").

Section Environment.

(** The successive readings of the clock, and [str(Path(p).expanduser())]. *)
Variable clock : nat -> instant.
Variable expanduser : str -> str.

Definition now (s : system) : instant * system :=
  (clock (ticks s), System (console s) (isatty s) (files s) (S (ticks s))).

Definition format_output (prompt : str) (response : option str)
    (o : options) (s : system) : system :=
  let tokens :=
    if show_tokens o then Some (estimate_tokens prompt) else None in
  match format o with
  | Json =>
      let (t, s) := now s in
      let out :=
        [(txt "prompt", json_string prompt);
         (txt "timestamp", json_string (isoformat t))]
        ++ (if nonzero tokens
            then [(txt "tokens", str_of_int (int_of tokens))]
            else [])
        ++ (if truthy response
            then [(txt "response", json_string (text_of response))]
            else []) in
      print_out (dumps out) s
  | Markdown =>
      let s := print_out (txt "# Prompt" ++ [newline; newline] ++ prompt) s in
      let s :=
        if nonzero tokens then
          let (t, s) := now s in
          print_out ([newline] ++ txt "## Metadata" ++ [newline]
                     ++ txt "- Tokens: " ++ str_of_int (int_of tokens)
                     ++ [newline] ++ txt "- Timestamp: " ++ strftime t) s
        else s in
      if truthy response
      then print_out ([newline] ++ txt "# Simulated Response"
                      ++ [newline; newline] ++ text_of response) s
      else s
  | Text =>
      let s := print_out prompt s in
      let s :=
        if nonzero tokens
        then print_out ([newline] ++ txt "[Tokens: "
                        ++ str_of_int (int_of tokens) ++ txt "]") s
        else s in
      if truthy response
      then print_out ([newline] ++ txt "---" ++ [newline] ++ text_of response) s
      else s
  end.

(** The entry is appended to the file, which is created when it does
    not exist. *)
Definition save_to_history (prompt : str) (response : option str)
    (filepath : str) (s : system) : system :=
  let fp := expanduser filepath in
  let (t, s) := now s in
  let entry :=
    [newline] ++ txt "=== " ++ strftime t ++ txt " ===" ++ [newline]
    ++ txt "Prompt:" ++ [newline] ++ prompt ++ [newline; newline]
    ++ (if truthy response
        then txt "Response:" ++ [newline] ++ text_of response
             ++ [newline; newline]
        else [])
    ++ txt "---" ++ [newline] in
  let old := match dict_get fp (files s) with Some c => c | None => [] end in
  print_err (txt "Saved to " ++ fp)
    (System (console s) (isatty s) (dict_set fp (old ++ entry) (files s))
            (ticks s)).

(** [print(f"Error: {e}", file=sys.stderr); sys.exit(1)] *)
Definition fail (f : failure) (s : system) : nat * system :=
  (1, print_err (txt "Error: " ++ failure_text f) s).

(** [main], from the parsed command line to the exit status. *)
Definition main (o : options) (s : system) : nat * system :=
  if version o then (0, print_out (txt "prompt-forge v" ++ VERSION) s)
  else
    match load_template o s with
    | (Failed f, s) => fail f s
    | (Done template, s) =>
        let variables := extract_variables template in
        if check o then
          (0, fold_left (fun s vd => print_out (check_line vd) s) variables
                (print_out (txt "Template variables:") s))
        else
          match collect_values variables (sources o) (console s) with
          | (Err e, w) => fail (Raised e) (with_console w s)
          | (Ok values, w) =>
              let s := with_console w s in
              match render_template template values with
              | Err e => fail (Raised e) s
              | Ok rendered =>
                  if dry_run o then
                    (0, print_out (txt "=== DRY RUN ===" ++ [newline]
                                   ++ rendered) s)
                  else
                    let response :=
                      if simulate o
                      then Some (simulate_response rendered
                                   (match rules o with
                                    | Some custom => custom
                                    | None => DEFAULT_RULES
                                    end) values)
                      else None in
                    let s := format_output rendered response o s in
                    if truthy (save o)
                    then (0, save_to_history rendered response
                               (text_of (save o)) s)
                    else (0, s)
              end
          end
    end.

End Environment.

(** * Specification

    The vocabulary of the properties: direct readings of the marker
    patterns, the sources of a value, and the relations the theorems
    are stated with. *)

Unset Implicit Arguments.

(** ** The rule matcher *)

Definition matches (r : rule) (text : str) : bool :=
  search true (regex r) text.

(** [w] occurs in [s] when case is ignored. *)
Definition occurs_ci (w s : str) : Prop :=
  exists pre m post, s = pre ++ m ++ post /\ map lower m = map lower w.

Definition has_brace (s : str) : bool := existsb (Ascii.eqb "{") s.

(** ** Value resolution *)

(** The last binding of [k] in a list of pairs. *)
Definition lookup_last {V} (k : str) (l : list (str * V)) : option V :=
  fold_left (fun acc kv => if str_eqb k (fst kv) then Some (snd kv) else acc)
    l None.

(** The [--var] arguments as pairs, or the first one without [=]. *)
Fixpoint parse_cli (l : list str) : result (list (str * str)) :=
  match l with
  | [] => Ok []
  | v :: l' =>
      match split_eq v with
      | None => Err (InvalidVar v)
      | Some p =>
          match parse_cli l' with
          | Ok ps => Ok (p :: ps)
          | Err e => Err e
          end
      end
  end.

Definition default_for (name : str) (variables : dict (option str))
  : option str :=
  match dict_get name variables with Some d => d | None => None end.

(** The default of [k] that counts: a recorded, non-empty one. *)
Definition default_value (k : str) (variables : dict (option str))
  : option str :=
  if truthy (default_for k variables) then default_for k variables else None.

Definition todo (variables : dict (option str)) (values : dict str)
  : list str :=
  filter (fun k => negb (dict_mem k values)) (dict_keys variables).

Definition answers (variables : dict (option str)) (names : list str)
    (lines : list str) : list (str * str) :=
  map (fun kl => (fst kl, answer (strip (snd kl)) (default_for (fst kl) variables)))
    (combine names lines).

Definition prompts (variables : dict (option str)) (names : list str)
  : list str :=
  map (fun k => prompt_for k (default_for k variables)) names.

Definition unused_warning (variables : dict (option str)) (values : dict str)
  : list str :=
  match filter (fun v => negb (dict_mem v variables)) (dict_keys values) with
  | [] => []
  | unused => [txt "Warning: Unused: " ++ join (txt ", ") unused]
  end.

(** The successful end of [collect_values]: the warning, if any. *)
Definition finish (variables : dict (option str)) (values : dict str)
    (w : world) : result (dict str) * world :=
  (Ok values,
   World (stdin w) (stdout w) (stderr w ++ unused_warning variables values)).

Definition cli_pairs (a : args) : list (str * str) :=
  flat_map (fun v => match split_eq v with Some p => [p] | None => [] end)
    (var a).

Definition well_formed_cli (a : args) : Prop :=
  Forall (fun v => In "="%char v) (var a).

Definition cli_value (k : str) (a : args) : option str :=
  lookup_last k (cli_pairs a).

Definition file_value (k : str) (a : args) : option str :=
  match vars a with
  | Some file => lookup_last k file
  | None => None
  end.

(** The value the first three sources give, in their order of
    precedence. *)
Definition supplied (k : str) (variables : dict (option str)) (a : args)
  : option str :=
  match cli_value k a with
  | Some v => Some v
  | None =>
      match file_value k a with
      | Some v => Some v
      | None => default_value k variables
      end
  end.

Definition unresolved (variables : dict (option str)) (a : args) : list str :=
  filter (fun k => match supplied k variables a with
                   | Some _ => false
                   | None => true
                   end) (dict_keys variables).

Definition hello_template : str :=
  txt "Hello {{name|default=" ++ quoted (txt "World") ++ txt "}}".

Definition x_and_y_template : str :=
  txt "{{x}} and {{y|default=" ++ quoted (txt "Y") ++ txt "}}".

(** ** Markers *)

(** A continuation that fails on every text starting with a character
    of the class [p]. *)
Definition blind {R} (p : ascii -> bool) (k : cont R) : Prop :=
  forall c s g, p c = true -> k (c :: s) g = None.

Definition not_dquote (c : ascii) : bool := negb (Ascii.eqb c dquote).

(** What follows the name in a marker, read directly: the default
    clause, if there is one, and the closing braces. *)
Definition marker_tail (s : str) : option (option str * str) :=
  match strip_prefix (txt "|default=" ++ [dquote]) s with
  | Some s1 =>
      match strip_prefix (dquote :: txt "}}") (drop_while not_dquote s1) with
      | Some rest => Some (Some (take_while not_dquote s1), rest)
      | None => None
      end
  | None =>
      match strip_prefix (txt "}}") s with
      | Some rest => Some (None, rest)
      | None => None
      end
  end.

(** A marker at the head of [s]: its name, its default, the rest. *)
Definition parse_marker (s : str) : option (str * option str * str) :=
  match strip_prefix (txt "{{") s with
  | Some s1 =>
      if nonempty (take_while is_word s1) then
        match marker_tail (drop_while is_word s1) with
        | Some (d, rest) => Some (take_while is_word s1, d, rest)
        | None => None
        end
      else None
  | None => None
  end.

(** A marker of the variable [name] at the head of [s]: the rest. *)
Definition parse_named (name s : str) : option str :=
  match strip_prefix (txt "{{") s with
  | Some s1 =>
      match strip_prefix name s1 with
      | Some s2 => option_map snd (marker_tail s2)
      | None => None
      end
  | None => None
  end.

Definition marker_caps (name : str) (d : option str) : caps :=
  match d with
  | Some d => [(2, d); (1, name)]
  | None => [(1, name)]
  end.

Definition clause (d : option str) : str :=
  match d with
  | Some d' => txt "|default=" ++ quoted d'
  | None => []
  end.

(** The text of a marker: [{{name}}], or [{{name|default=...}}] with
    the default between double quotes. *)
Definition marker_text (name : str) (d : option str) : str :=
  txt "{{" ++ name ++ clause d ++ txt "}}".

Definition wf_name (name : str) : Prop :=
  name <> [] /\ Forall (fun c => is_word c = true) name.

Definition wf_default (d : option str) : Prop :=
  match d with
  | Some d' => ~ In dquote d'
  | None => True
  end.

(** ** Extraction *)

(** The markers the walk of [extract_variables] finds, in order, each
    with its default as written ([None]: no default clause). *)
Definition found (ps : list piece) : list (str * option str) :=
  flat_map (fun p =>
    match p with
    | Hit _ g => [(group_or_empty 1 g, group 2 g)]
    | Skip _ => []
    end) ps.

Definition markers (template : str) : list (str * option str) :=
  found (finditer marker_re template).

(** What the dictionary keeps of a default: an empty one counts as
    none. *)
Definition recorded (d : option str) : option str :=
  match d with
  | Some d' => or_none d'
  | None => None
  end.

Definition record (nd : str * option str) : str * option str :=
  (fst nd, recorded (snd nd)).

(** A marker starts at the head of [s]. *)
Definition marker_at (s : str) : Prop :=
  exists name d rest,
    wf_name name /\ wf_default d /\ s = marker_text name d ++ rest.

(** The leftmost, non-overlapping markers of a text: at each position
    either a marker starts, and the walk resumes after it, or none
    does, and the walk moves on by one character. *)
Inductive Scanned : str -> list (str * option str) -> Prop :=
| Scanned_nil : Scanned [] []
| Scanned_skip (c : ascii) (s : str) (ms : list (str * option str)) :
    ~ marker_at (c :: s) -> Scanned s ms -> Scanned (c :: s) ms
| Scanned_hit (name : str) (d : option str) (rest : str)
    (ms : list (str * option str)) :
    wf_name name -> wf_default d -> Scanned rest ms ->
    Scanned (marker_text name d ++ rest) ((name, d) :: ms).

Definition marker_matcher (s : str) (adv : bool) : option (nat * caps) :=
  match parse_marker s with
  | Some (name, d, rest) => Some (length s - length rest, marker_caps name d)
  | None => None
  end.

Definition two_defaults_template : str :=
  marker_text (txt "x") (Some (txt "A")) ++ txt " " ++ marker_text (txt "x") None.

Definition empty_default_template : str := marker_text (txt "x") (Some []).

(** ** Rendering *)

Definition named_matcher (name s : str) (adv : bool) : option (nat * caps) :=
  match parse_named name s with
  | Some rest => Some (length s - length rest, [])
  | None => None
  end.

(** A marker of the variable [name] starts at the head of [s]. *)
Definition named_at (name s : str) : Prop :=
  exists d rest, wf_default d /\ s = marker_text name d ++ rest.

(** One pass over the text for one variable: from left to right, each
    marker of the variable gives way to the value as it is, and the
    walk resumes in the original text after the marker. *)
Inductive Replaced (name v : str) : str -> str -> Prop :=
| Replaced_nil : Replaced name v [] []
| Replaced_skip (c : ascii) (s s' : str) :
    ~ named_at name (c :: s) -> Replaced name v s s' ->
    Replaced name v (c :: s) (c :: s')
| Replaced_hit (d : option str) (rest rest' : str) :
    wf_default d -> Replaced name v rest rest' ->
    Replaced name v (marker_text name d ++ rest) (v ++ rest').

(** The passes of a value map, in its order, each on the result of
    the one before. *)
Inductive Passes : str -> dict str -> str -> Prop :=
| Passes_nil (t : str) : Passes t [] t
| Passes_cons (t t1 r name v : str) (values : dict str) :
    Replaced name v t t1 -> Passes t1 values r ->
    Passes t ((name, v) :: values) r.

Definition no_backslash (v : str) : Prop := ~ In "\"%char v.

Definition pass (name v template : str) : str :=
  glue (map TChr v) (finditer (render_pattern name) template).

Definition passes (template : str) (values : dict str) : str :=
  fold_left (fun t kv => pass (fst kv) (snd kv) t) values template.

(** ** Well-formed templates *)

(** A template as a sequence of literal text and markers. *)
Inductive seg : Type :=
| Lit (s : str)
| Mark (name : str) (d : option str).

Definition print_seg (x : seg) : str :=
  match x with
  | Lit s => s
  | Mark name d => marker_text name d
  end.

Definition print (segs : list seg) : str := flat_map print_seg segs.

Definition no_open (s : str) : Prop := ~ In "{"%char s.

(** Literal text and defaults hold no opening brace, names are words,
    defaults hold no double quote. *)
Definition wf_seg (x : seg) : Prop :=
  match x with
  | Lit s => no_open s
  | Mark name d =>
      wf_name name /\ wf_default d
      /\ match d with Some d' => no_open d' | None => True end
  end.

(** A marker of [name] occurs somewhere in [t]. *)
Definition contains_marker (name t : str) : Prop :=
  exists pre d post, wf_default d /\ t = pre ++ marker_text name d ++ post.

(** What one pass does to a segment. *)
Definition subst1 (name v : str) (x : seg) : seg :=
  match x with
  | Mark n d => if str_eqb n name then Lit v else x
  | Lit _ => x
  end.

(** What rendering does to a segment. *)
Definition fill (values : dict str) (x : seg) : str :=
  match x with
  | Lit s => s
  | Mark n d =>
      match dict_get n values with
      | Some v => v
      | None => marker_text n d
      end
  end.

Definition subst_seg (values : dict str) (x : seg) : seg :=
  fold_left (fun x kv => subst1 (fst kv) (snd kv) x) values x.

Definition not_mark (name : str) (x : seg) : Prop :=
  match x with
  | Mark n _ => n <> name
  | Lit _ => True
  end.

Definition plain_entry (kv : str * str) : Prop :=
  wf_name (fst kv) /\ no_open (snd kv) /\ no_backslash (snd kv).

Definition greeting : list seg :=
  [Lit (txt "Dear "); Mark (txt "name") (Some (txt "friend"));
   Lit (txt ", your order} is "); Mark (txt "state") None;
   Mark (txt "sign") None].

Definition nested_template : str :=
  marker_text (txt "x") (Some (marker_text (txt "x") (Some (txt "b")))).

(** ** The token estimate *)

Definition ieee_int_times_1_3 (n : Z) : Z :=
  let x := SpecFloat.binary_normalize 53 1024 n 0 false in
  let c := SpecFloat.S754_finite false 5854679515581645 (-52) in
  match SpecFloat.SFmul 53 1024 x c with
  | SpecFloat.S754_finite false m e =>
      if (0 <=? e)%Z then (Zpos m * 2 ^ e)%Z else (Zpos m / 2 ^ (- e))%Z
  | _ => 0%Z
  end.

Definition samples : list Z :=
  map Z.of_nat (seq 0 3000)
  ++ flat_map (fun k =>
       let p := (2 ^ Z.of_nat k)%Z in
       [p - 1; p; p + 1; 3 * p + 7; 10 * p; 10 * p + 5]%Z) (seq 1 70)
  ++ map (fun i =>
       (Z.of_nat i * 7919 * 104729 * 1299709 + 10 * Z.of_nat i)%Z)
       (seq 0 500).

(** ** Further vocabulary *)



(** One step of the loop of [render_template]. *)
Definition render_step (acc : result str) (kv : str * str) : result str :=
  match acc with
  | Ok result =>
      match sub 0 (render_pattern (fst kv)) (snd kv) result with
      | Some result' => Ok result'
      | None => Err BadReplacement
      end
  | Err e => Err e
  end.


(** The markers of a sequence of segments, in order. *)
Definition marks (segs : list seg) : list (str * option str) :=
  flat_map (fun x =>
    match x with
    | Mark name d => [(name, d)]
    | Lit _ => []
    end) segs.

(** The same command line without [--show-tokens]. *)
Definition without_tokens (o : options) : options :=
  Options (template o) (inline_template o) (sources o) (simulate o) (rules o)
          (format o) false (save o) (check o) (dry_run o) (version o).

(** How many characters the standard output holds. *)
Definition written (s : system) : nat := length (concat (stdout (console s))).


(** What the file at [path] holds; nothing when there is no file. *)
Definition content (path : str) (fs : dict str) : str :=
  match dict_get path fs with Some c => c | None => [] end.

(** Reading a JSON string back: the value of a hexadecimal digit, the
    character a one-letter escape stands for, and the text up to the
    closing quote together with what follows it. Characters beyond
    [\u00ff] are outside the text modelled here. *)
Definition hexval (c : ascii) : option nat :=
  if is_digit c then Some (code c - 48)
  else if between 97 102 c then Some (code c - 87)
  else if between 65 70 c then Some (code c - 55)
  else None.

Definition unescape (c : ascii) : option ascii :=
  if Ascii.eqb c dquote then Some dquote
  else if Ascii.eqb c "\" then Some "\"%char
  else if Ascii.eqb c "/" then Some "/"%char
  else if Ascii.eqb c "b" then Some (ascii_of_nat 8)
  else if Ascii.eqb c "f" then Some (ascii_of_nat 12)
  else if Ascii.eqb c "n" then Some (ascii_of_nat 10)
  else if Ascii.eqb c "r" then Some (ascii_of_nat 13)
  else if Ascii.eqb c "t" then Some (ascii_of_nat 9)
  else None.

Definition read_more (c : ascii) (r : option (str * str))
  : option (str * str) :=
  match r with
  | Some (s, rest) => Some (c :: s, rest)
  | None => None
  end.

Fixpoint json_read_body (s : str) : option (str * str) :=
  match s with
  | [] => None
  | c :: s1 =>
      if Ascii.eqb c dquote then Some ([], s1)
      else if Ascii.eqb c "\" then
        match s1 with
        | [] => None
        | e :: s2 =>
            if Ascii.eqb e "u" then
              match s2 with
              | h1 :: h2 :: h3 :: h4 :: s3 =>
                  match hexval h1, hexval h2, hexval h3, hexval h4 with
                  | Some 0, Some 0, Some a, Some b =>
                      read_more (ascii_of_nat (16 * a + b)) (json_read_body s3)
                  | _, _, _, _ => None
                  end
              | _ => None
              end
            else
              match unescape e with
              | Some x => read_more x (json_read_body s2)
              | None => None
              end
        end
      else if code c <? 32 then None
      else read_more c (json_read_body s1)
  end.

Definition json_read (s : str) : option (str * str) :=
  match s with
  | c :: s1 => if Ascii.eqb c dquote then json_read_body s1 else None
  | [] => None
  end.

(** Arithmetic on the lengths of texts, the texts left aside. *)
Ltac abstract_lengths :=
  repeat match goal with
         | |- context [length ?l] =>
             let n := fresh "n" in generalize (length l); intros n
         | |- context [written ?s] =>
             let n := fresh "n" in generalize (written s); intros n
         end;
  lia.

(** * Properties *)

(** ** The rule matcher *)

Lemma fill_response_nil (resp : str) : fill_response resp [] = resp.
Proof. reflexivity. Qed.

Lemma simulate_response_skip (text : str) (pre rules : list rule)
    (values : dict str) :
  Forall (fun r => matches r text = false) pre ->
  simulate_response text (pre ++ rules) values
  = simulate_response text rules values.
Proof.
  induction 1 as [|r pre Hr _ IH]; simpl; [reflexivity|].
  unfold matches in Hr. now rewrite Hr.
Qed.

Lemma simulate_response_first (text : str) (pre post : list rule) (r : rule)
    (values : dict str) :
  Forall (fun r' => matches r' text = false) pre ->
  matches r text = true ->
  simulate_response text (pre ++ r :: post) values
  = fill_response (response r) values.
Proof.
  intros Hpre Hr. rewrite simulate_response_skip by assumption.
  simpl. unfold matches in Hr. now rewrite Hr.
Qed.

Lemma simulate_response_none (text : str) (rules : list rule)
    (values : dict str) :
  Forall (fun r => matches r text = false) rules ->
  simulate_response text rules values = txt "No matching response.".
Proof.
  intros H. rewrite <- (app_nil_r rules).
  now rewrite simulate_response_skip.
Qed.

(** *** What the matcher does on literal alternatives *)

Section EngineLemmas.
Variable ic : bool.
Variable R : Type.
Implicit Types (s : str) (g : caps) (k : cont R).

Lemma run_lit (w : str) s g k :
  run ic (lit w) s g k
  = match strip_by (chr_eq ic) w s with
    | Some rest => k rest g
    | None => None
    end.
Proof.
  revert s. induction w as [|c w IH]; intros s; simpl; [reflexivity|].
  destruct s as [|x s]; simpl; [reflexivity|].
  destruct (chr_eq ic c x); [apply IH | reflexivity].
Qed.

Lemma run_alts_none (r : re) (rs : list re) s g k :
  run ic (alts r rs) s g k = None
  <-> Forall (fun a => run ic a s g k = None) (r :: rs).
Proof.
  revert r. induction rs as [|r' rs IH]; intros r; simpl.
  - split; [intros H; now constructor | intros H; now inversion H].
  - destruct (run ic r s g k) eqn:E.
    + split; [discriminate | intros H; inversion H; congruence].
    + rewrite IH. split; [intros H; now constructor | intros H; now inversion H].
Qed.

End EngineLemmas.

Lemma match_at_lit (ic : bool) (w s : str) :
  match_at ic (lit w) s false = None <-> strip_by (chr_eq ic) w s = None.
Proof.
  unfold match_at. rewrite run_lit.
  destruct (strip_by (chr_eq ic) w s); simpl; split; congruence.
Qed.

Lemma search_true_iff (ic : bool) (r : re) (s : str) :
  search ic r s = true
  <-> exists pre post, s = pre ++ post /\ match_at ic r post false <> None.
Proof.
  induction s as [|c s IH]; simpl.
  - destruct (match_at ic r [] false) eqn:E.
    + split; [intros _; exists [], []; split; [reflexivity | congruence] | reflexivity].
    + split; [discriminate|].
      intros (pre & post & Hs & Hm). symmetry in Hs.
      apply app_eq_nil in Hs as [_ ->]. congruence.
  - destruct (match_at ic r (c :: s) false) eqn:E.
    + split; [intros _; exists [], (c :: s); split; [reflexivity | congruence] | reflexivity].
    + rewrite IH. split.
      * intros (pre & post & -> & Hm). now exists (c :: pre), post.
      * intros (pre & post & Hs & Hm). destruct pre as [|c' pre]; simpl in Hs.
        -- subst post. congruence.
        -- injection Hs as -> ->. now exists pre, post.
Qed.

Lemma strip_by_ci (w s : str) :
  strip_by (chr_eq true) w s <> None
  <-> exists m post, s = m ++ post /\ map lower m = map lower w.
Proof.
  revert s. induction w as [|c w IH]; intros s; simpl.
  - split; [intros _; now exists [], s | congruence].
  - destruct s as [|x s].
    + split; [congruence|]. intros ([|? ?] & post & Hs & Hm); discriminate.
    + unfold chr_eq at 1. destruct (Ascii.eqb_spec (lower c) (lower x)) as [E|E].
      * rewrite IH. split.
        -- intros (m & post & -> & Hm). exists (x :: m), post. simpl. now rewrite Hm, E.
        -- intros ([|y m] & post & Hs & Hm); [discriminate|].
           simpl in Hs, Hm. injection Hs as -> ->. injection Hm as _ Hm.
           now exists m, post.
      * split; [congruence|].
        intros ([|y m] & post & Hs & Hm); [discriminate|].
        simpl in Hs, Hm. injection Hs as -> ->. injection Hm as Hx _. congruence.
Qed.

Lemma search_words (ws : list string) (s : str) :
  ws <> [] ->
  search true (words ws) s = true <-> exists w, In w ws /\ occurs_ci (txt w) s.
Proof.
  intros Hne. rewrite search_true_iff. unfold words, occurs_ci.
  destruct ws as [|w0 ws]; [congruence|]. clear Hne. simpl map.
  split.
  - intros (pre & post & -> & Hm).
    assert (Hex : Exists (fun a => match_at true a post false <> None)
                    (map (fun w => lit (txt w)) (w0 :: ws))).
    { apply Exists_exists.
      destruct (Forall_Exists_dec (fun a => match_at true a post false = None)) with
        (l := map (fun w => lit (txt w)) (w0 :: ws)) as [Hall|Hex].
      - intros a. destruct (match_at true a post false); [right; congruence | now left].
      - exfalso. apply Hm. unfold match_at. simpl map in Hall.
        now apply run_alts_none.
      - apply Exists_exists in Hex as (a & Ha & Hna). now exists a. }
    apply Exists_exists in Hex as (a & Ha & Hna).
    apply in_map_iff in Ha as (w & <- & Hw).
    rewrite match_at_lit in Hna. apply strip_by_ci in Hna as (m & rest & -> & Hm').
    exists w. split; [assumption|]. now exists pre, m, rest.
  - intros (w & Hw & pre & m & post & -> & Hm).
    exists pre, (m ++ post). split; [reflexivity|].
    intros Hnone. unfold match_at in Hnone.
    apply run_alts_none in Hnone.
    rewrite Forall_forall in Hnone.
    specialize (Hnone (lit (txt w))).
    assert (Hin : In (lit (txt w)) (lit (txt w0) :: map (fun w => lit (txt w)) ws)).
    { exact (in_map (fun w => lit (txt w)) _ _ Hw). }
    specialize (Hnone Hin). fold (match_at true (lit (txt w)) (m ++ post) false) in Hnone.
    rewrite match_at_lit in Hnone. revert Hnone. apply strip_by_ci. now exists m, post.
Qed.

(** *** Unfolding the walk over the matches *)

Section ScanLemmas.
Variable matcher : str -> bool -> option (nat * caps).

Lemma scan_miss (c : ascii) (s : str) :
  matcher (c :: s) false = None ->
  scan matcher (c :: s) 0 = Skip c :: scan matcher s 0.
Proof. intros H. simpl. now rewrite H. Qed.

Lemma scan_hit (c : ascii) (s : str) (n : nat) (g : caps) :
  matcher (c :: s) false = Some (S n, g) ->
  scan matcher (c :: s) 0
  = Hit (c :: firstn n s) g :: scan matcher s n.
Proof. intros H. simpl. now rewrite H. Qed.

Lemma scan_pass (t s : str) :
  scan matcher (t ++ s) (length t) = scan matcher s 0.
Proof. induction t as [|c t IH]; [reflexivity | exact IH]. Qed.

End ScanLemmas.

Lemma strip_by_head_diff (eq : ascii -> ascii -> bool) (x c : ascii)
    (p s : str) :
  eq x c = false -> strip_by eq (x :: p) (c :: s) = None.
Proof. intros H. simpl. now rewrite H. Qed.

(** A response without an opening brace comes out as it is. *)
Lemma replace_no_brace (name v s : str) :
  ~ In "{"%char s -> replace (txt "{{" ++ name ++ txt "}}") v s = s.
Proof.
  unfold replace. induction s as [|c s IH]; intros Hs; [reflexivity|].
  rewrite scan_miss.
  - simpl. f_equal. apply IH. intros H. apply Hs. now right.
  - unfold strip_prefix. change (txt "{{" ++ name ++ txt "}}")
      with ("{"%char :: "{"%char :: name ++ txt "}}").
    rewrite strip_by_head_diff; [reflexivity|].
    apply Ascii.eqb_neq. intros E. apply Hs. now left.
Qed.

Lemma fill_response_no_brace (resp : str) (values : dict str) :
  ~ In "{"%char resp -> fill_response resp values = resp.
Proof.
  intros H. unfold fill_response.
  induction values as [|[k v] values IH]; cbn [fold_left fst snd];
    [reflexivity|].
  now rewrite replace_no_brace.
Qed.

Lemma has_brace_false (s : str) : has_brace s = false -> ~ In "{"%char s.
Proof.
  unfold has_brace. intros H Hin.
  assert (existsb (Ascii.eqb "{") s = true); [|congruence].
  apply existsb_exists. exists "{"%char. split; [assumption | apply Ascii.eqb_refl].
Qed.

(** C5. The rules are tried in list order and the first one whose
    pattern is found somewhere in the text gives the result: its
    response, with the markers of the value map filled in (nothing to
    fill in for an empty map). A pattern that is a list of alternative
    words is found exactly when one of the words occurs anywhere in
    the text, case ignored. With the built-in rules and the text
    "please explain how to implement a class" both the code rule and
    the explanation rule match, and the code rule, which comes first,
    answers. *)
Theorem C5_first_matching_rule_answers :
  (forall text pre r post values,
      Forall (fun r' => matches r' text = false) pre ->
      matches r text = true ->
      simulate_response text (pre ++ r :: post) values
      = fill_response (response r) values)
  /\ (forall resp, fill_response resp [] = resp)
  /\ (forall ws resp text,
         ws <> [] ->
         matches (Rule (words ws) resp) text = true
         <-> exists w, In w ws /\ occurs_ci (txt w) text)
  /\ (forall values,
        let text := txt "please explain how to implement a class" in
        exists code_rule explain_rule rest,
          DEFAULT_RULES = code_rule :: explain_rule :: rest
          /\ matches code_rule text = true
          /\ matches explain_rule text = true
          /\ response code_rule <> response explain_rule
          /\ simulate_response text DEFAULT_RULES values
             = response code_rule).
Proof.
  split; [|split; [|split]].
  - intros. now apply simulate_response_first.
  - reflexivity.
  - intros ws resp text Hne. unfold matches. simpl. now apply search_words.
  - intros values text. do 3 eexists. split; [reflexivity|].
    split; [vm_compute; reflexivity|].
    split; [vm_compute; reflexivity|].
    split; [vm_compute; discriminate|].
    change DEFAULT_RULES with ([] ++ DEFAULT_RULES). unfold DEFAULT_RULES.
    rewrite (simulate_response_first text [] _ _ values (Forall_nil _));
      [|vm_compute; reflexivity].
    apply fill_response_no_brace, has_brace_false. vm_compute. reflexivity.
Qed.

Lemma C5_witness :
  simulate_response (txt "WHAT IS a monad") DEFAULT_RULES
    [(txt "name", txt "Ada")]
  = lines ["Explanation:"; ""; "Key points:"; "1. First"; "2. Second";
           "3. Third"]%string.
Proof.
  refine (eq_trans
    (proj1 C5_first_matching_rule_answers (txt "WHAT IS a monad")
       [nth 0 DEFAULT_RULES (Rule Eps [])] (nth 1 DEFAULT_RULES (Rule Eps []))
       (skipn 2 DEFAULT_RULES) [(txt "name", txt "Ada")] _ _) _).
  - repeat constructor.
  - vm_compute. reflexivity.
  - vm_compute. reflexivity.
Defined.

(** C6. When no rule matches, the answer is the fixed text
    "No matching response." (the function is total: there is no
    error). With the built-in rules, "hello there" matches none of the
    five keyword rules, matches the catch-all, and gets its response. *)
Theorem C6_fallback_and_catch_all :
  (forall text rules values,
      Forall (fun r => matches r text = false) rules ->
      simulate_response text rules values = txt "No matching response.")
  /\ (forall values,
        let text := txt "hello there" in
        map (fun r => matches r text) DEFAULT_RULES
        = [false; false; false; false; false; true]
        /\ simulate_response text DEFAULT_RULES values
           = txt "I understand. Here's a response addressing your needs.").
Proof.
  split.
  - intros. now apply simulate_response_none.
  - intros values text. split; [vm_compute; reflexivity|].
    change DEFAULT_RULES with (firstn 5 DEFAULT_RULES ++ skipn 5 DEFAULT_RULES).
    rewrite simulate_response_skip by (repeat constructor).
    simpl skipn. cbv beta iota delta [simulate_response].
    replace (search true (regex _) text) with true by (vm_compute; reflexivity).
    apply fill_response_no_brace, has_brace_false. vm_compute. reflexivity.
Qed.

Lemma C6_witness :
  simulate_response (txt "hello there") (firstn 5 DEFAULT_RULES)
    [(txt "name", txt "Ada")]
  = txt "No matching response.".
Proof.
  apply (proj1 C6_fallback_and_catch_all). repeat constructor.
Defined.

(** ** Dictionaries *)

Lemma str_eqb_spec (a b : str) : reflect (a = b) (str_eqb a b).
Proof.
  revert b. induction a as [|x a IH]; intros [|y b]; simpl;
    try (constructor; congruence).
  destruct (Ascii.eqb_spec x y) as [->|E]; simpl.
  - destruct (IH b) as [->|E]; constructor; congruence.
  - constructor. congruence.
Qed.

Lemma str_eqb_refl (a : str) : str_eqb a a = true.
Proof. now destruct (str_eqb_spec a a). Qed.

Lemma str_eqb_neq (a b : str) : a <> b -> str_eqb a b = false.
Proof. now destruct (str_eqb_spec a b). Qed.

Section DictLemmas.
Context {V : Type}.
Implicit Types (d : dict V) (k : str) (v : V).

Lemma dict_get_set k k' v d :
  dict_get k (dict_set k' v d)
  = if str_eqb k k' then Some v else dict_get k d.
Proof.
  induction d as [|[k0 v0] d IH]; simpl.
  - reflexivity.
  - destruct (str_eqb_spec k' k0) as [->|E]; simpl.
    + destruct (str_eqb k k0); reflexivity.
    + destruct (str_eqb_spec k k0) as [->|E'].
      * now rewrite (str_eqb_neq k0 k') by congruence.
      * exact IH.
Qed.

Lemma dict_mem_set k k' v d :
  dict_mem k (dict_set k' v d) = str_eqb k k' || dict_mem k d.
Proof.
  unfold dict_mem. rewrite dict_get_set. now destruct (str_eqb k k').
Qed.

Lemma dict_mem_in k d : dict_mem k d = true <-> In k (dict_keys d).
Proof.
  unfold dict_mem. induction d as [|[k0 v0] d IH]; simpl.
  - split; [discriminate | tauto].
  - destruct (str_eqb_spec k k0) as [->|E].
    + split; [now left | reflexivity].
    + rewrite IH. split; [now right | intros [H|H]; congruence].
Qed.

Lemma dict_mem_false k d : dict_mem k d = false <-> ~ In k (dict_keys d).
Proof.
  rewrite <- dict_mem_in. destruct (dict_mem k d); split; congruence.
Qed.

Lemma dict_keys_set k v d :
  dict_keys (dict_set k v d)
  = if dict_mem k d then dict_keys d else dict_keys d ++ [k].
Proof.
  unfold dict_mem. induction d as [|[k0 v0] d IH]; simpl; [reflexivity|].
  destruct (str_eqb_spec k k0) as [->|E]; simpl; [reflexivity|].
  rewrite IH. now destruct (dict_get k d).
Qed.

Lemma dict_keys_set_nodup k v d :
  NoDup (dict_keys d) -> NoDup (dict_keys (dict_set k v d)).
Proof.
  intros H. rewrite dict_keys_set. destruct (dict_mem k d) eqn:E; [assumption|].
  apply dict_mem_false in E. apply NoDup_app; [assumption | repeat constructor; tauto |].
  intros x Hx [<-|[]]. contradiction.
Qed.

Lemma lookup_last_snoc k (l : list (str * V)) (kv : str * V) :
  lookup_last k (l ++ [kv])
  = if str_eqb k (fst kv) then Some (snd kv) else lookup_last k l.
Proof. unfold lookup_last. now rewrite fold_left_app. Qed.

Lemma dict_update_snoc d (l : list (str * V)) (kv : str * V) :
  dict_update d (l ++ [kv]) = dict_set (fst kv) (snd kv) (dict_update d l).
Proof. unfold dict_update. now rewrite fold_left_app. Qed.

Lemma dict_get_update k d (l : list (str * V)) :
  dict_get k (dict_update d l)
  = match lookup_last k l with
    | Some v => Some v
    | None => dict_get k d
    end.
Proof.
  induction l as [|kv l IH] using rev_ind; [reflexivity|].
  rewrite dict_update_snoc, lookup_last_snoc, dict_get_set.
  destruct (str_eqb k (fst kv)); [reflexivity | exact IH].
Qed.

Lemma dict_update_nodup d (l : list (str * V)) :
  NoDup (dict_keys d) -> NoDup (dict_keys (dict_update d l)).
Proof.
  intros H. induction l as [|kv l IH] using rev_ind; [assumption|].
  rewrite dict_update_snoc. now apply dict_keys_set_nodup.
Qed.

Lemma dict_get_in_nodup k v d :
  NoDup (dict_keys d) -> In (k, v) d -> dict_get k d = Some v.
Proof.
  induction d as [|[k0 v0] d IH]; simpl; [tauto|].
  intros Hnd [H|H].
  - injection H as -> ->. now rewrite str_eqb_refl.
  - inversion Hnd as [|? ? Hnot Hnd']; subst.
    destruct (str_eqb_spec k k0) as [->|E]; [|now apply IH].
    exfalso. apply Hnot. unfold dict_keys.
    change k0 with (fst (k0, v)). now apply in_map.
Qed.

End DictLemmas.

(** ** Value resolution, stage by stage *)

Lemma from_cli_spec (a : args) (values : dict str) (w : world) :
  from_cli a values w
  = (match parse_cli (var a) with
     | Ok ps => Ok (dict_update values ps)
     | Err e => Err e
     end, w).
Proof.
  unfold from_cli. revert values.
  induction (var a) as [|v l IH]; intros values; [reflexivity|].
  cbn [for_each parse_cli]. unfold bind.
  destruct (split_eq v) as [[k val]|]; [|reflexivity].
  cbn [ret]. rewrite IH. now destruct (parse_cli l).
Qed.

Lemma dict_get_from_defaults (variables : dict (option str))
    (values : dict str) (k : str) :
  NoDup (dict_keys variables) ->
  dict_get k (from_defaults variables values)
  = match dict_get k values with
    | Some v => Some v
    | None => default_value k variables
    end.
Proof.
  unfold from_defaults, default_value, default_for. revert values.
  induction variables as [|[k0 d0] rest IH]; intros values Hnd.
  - simpl. now destruct (dict_get k values).
  - inversion Hnd as [|? ? Hnot Hnd']; subst. cbn [fold_left fst snd].
    rewrite IH by assumption. cbn [dict_get].
    destruct (str_eqb_spec k k0) as [->|E].
    + apply dict_mem_false in Hnot. unfold dict_mem in Hnot.
      destruct (dict_get k0 rest); [discriminate|]. cbn [truthy].
      unfold dict_mem. destruct d0 as [d|]; cbn [truthy].
      * destruct (dict_get k0 values) eqn:Ev; cbn [negb andb]; [now rewrite Ev|].
        destruct (nonempty d); [|now rewrite Ev].
        now rewrite dict_get_set, str_eqb_refl.
      * now destruct (dict_get k0 values).
    + assert (Hsame : forall d, dict_get k (dict_set k0 d values) = dict_get k values).
      { intros d. now rewrite dict_get_set, (str_eqb_neq k k0 E). }
      destruct d0 as [d|]; [|reflexivity].
      destruct (negb (dict_mem k0 values) && nonempty d); [now rewrite Hsame | reflexivity].
Qed.

Lemma filter_ext_in_not (k : str) (v : str) (values : dict str)
    (keys : list str) :
  ~ In k keys ->
  filter (fun x => negb (dict_mem x (dict_set k v values))) keys
  = filter (fun x => negb (dict_mem x values)) keys.
Proof.
  intros Hk. apply filter_ext_in. intros x Hx.
  rewrite dict_mem_set, str_eqb_neq; [reflexivity|]. congruence.
Qed.

Lemma from_prompts_loop (variables : dict (option str)) (keys : list str)
    (values : dict str) (w : world) :
  NoDup keys ->
  let names := filter (fun k => negb (dict_mem k values)) keys in
  for_each keys (fun name values =>
    if dict_mem name values then ret values
    else
      let default := default_for name variables in
      line <- input (prompt_for name default) ;;
      ret (dict_set name (answer (strip line) default) values)) values w
  = if length names <=? length (stdin w)
    then (Ok (dict_update values (answers variables names (stdin w))),
          World (skipn (length names) (stdin w))
                (stdout w ++ prompts variables names) (stderr w))
    else (Err EOFError,
          World [] (stdout w ++ prompts variables
                                  (firstn (S (length (stdin w))) names))
                (stderr w)).
Proof.
  revert values w. induction keys as [|k keys IH]; intros values w Hnd.
  - simpl. rewrite app_nil_r. now destruct w.
  - inversion Hnd as [|? ? Hnot Hnd']; subst.
    cbn [for_each filter]. unfold bind at 1.
    destruct (dict_mem k values) eqn:Ek; cbn [negb].
    + cbn [ret]. now apply IH.
    + unfold bind, input, ret. destruct w as [[|l ls] out err]; cbn [stdin stdout stderr tl].
      * reflexivity.
      * rewrite IH by assumption. cbn [stdin stdout stderr].
        rewrite filter_ext_in_not by assumption.
        cbn [length Nat.leb skipn firstn].
        unfold answers, prompts. cbn [combine map fst snd].
        rewrite <- !app_assoc. reflexivity.
Qed.

Lemma from_prompts_spec (variables : dict (option str)) (values : dict str)
    (w : world) :
  NoDup (dict_keys variables) ->
  let names := todo variables values in
  from_prompts variables values w
  = if length names <=? length (stdin w)
    then (Ok (dict_update values (answers variables names (stdin w))),
          World (skipn (length names) (stdin w))
                (stdout w ++ prompts variables names) (stderr w))
    else (Err EOFError,
          World [] (stdout w ++ prompts variables
                                  (firstn (S (length (stdin w))) names))
                (stderr w)).
Proof. intros Hnd. now apply from_prompts_loop. Qed.

Lemma lookup_last_cons {V} (k : str) (kv : str * V) (l : list (str * V)) :
  lookup_last k (kv :: l)
  = match lookup_last k l with
    | Some v => Some v
    | None => if str_eqb k (fst kv) then Some (snd kv) else None
    end.
Proof.
  revert kv. induction l as [|x l IH] using rev_ind; intros kv.
  - unfold lookup_last. simpl. now destruct (str_eqb k (fst kv)).
  - rewrite app_comm_cons, !lookup_last_snoc.
    destruct (str_eqb k (fst x)); [reflexivity | apply IH].
Qed.

Lemma lookup_last_notin {V} (k : str) (l : list (str * V)) :
  ~ In k (map fst l) -> lookup_last k l = None.
Proof.
  induction l as [|kv l IH]; [reflexivity|].
  intros H. rewrite lookup_last_cons, IH, str_eqb_neq.
  - reflexivity.
  - intros ->. apply H. now left.
  - intros Hin. apply H. now right.
Qed.

Lemma answers_keys_in (variables : dict (option str)) (names lines : list str)
    (k : str) :
  In k (map fst (answers variables names lines)) -> In k names.
Proof.
  unfold answers. rewrite map_map. cbn [fst].
  revert lines. induction names as [|k0 names IH]; intros [|l lines]; simpl;
    try tauto.
  intros [H|H]; [now left | right; eauto].
Qed.

Lemma answers_get (variables : dict (option str)) (names lines : list str)
    (i : nat) (k line : str) :
  NoDup names ->
  nth_error names i = Some k ->
  nth_error lines i = Some line ->
  lookup_last k (answers variables names lines)
  = Some (answer (strip line) (default_for k variables)).
Proof.
  revert lines i. induction names as [|k0 names IH]; intros lines i Hnd Hk Hl.
  - now destruct i.
  - destruct lines as [|l lines]; [now destruct i|].
    inversion Hnd as [|? ? Hnot Hnd']; subst.
    unfold answers. cbn [combine map fst snd]. rewrite lookup_last_cons.
    fold (answers variables names lines).
    destruct i as [|i]; simpl in Hk, Hl.
    + injection Hk as ->. injection Hl as ->.
      rewrite lookup_last_notin, str_eqb_refl; [reflexivity|].
      intros Hin. apply Hnot. eapply answers_keys_in. exact Hin.
    + now rewrite (IH lines i Hnd' Hk Hl).
Qed.

Lemma filter_nil {X} (f : X -> bool) (l : list X) :
  (forall x, In x l -> f x = false) -> filter f l = [].
Proof.
  induction l as [|x l IH]; intros H; [reflexivity|]. simpl.
  rewrite (H x) by now left. apply IH. intros y Hy. apply H. now right.
Qed.

Lemma collect_values_spec (variables : dict (option str)) (a : args)
    (w : world) :
  NoDup (dict_keys variables) ->
  collect_values variables a w
  = match parse_cli (var a) with
    | Err e => (Err e, w)
    | Ok ps =>
        let base := from_defaults variables (dict_update (from_file a) ps) in
        let names := todo variables base in
        if interactive a then
          if length names <=? length (stdin w) then
            finish variables
              (dict_update base (answers variables names (stdin w)))
              (World (skipn (length names) (stdin w))
                     (stdout w ++ prompts variables names) (stderr w))
          else
            (Err EOFError,
             World [] (stdout w ++ prompts variables
                                     (firstn (S (length (stdin w))) names))
                   (stderr w))
        else
          match names with
          | [] => finish variables base w
          | _ :: _ => (Err (Missing names), w)
          end
    end.
Proof.
  intros Hnd. unfold collect_values. unfold bind at 1.
  rewrite from_cli_spec. destruct (parse_cli (var a)) as [ps|e]; [|reflexivity].
  cbv zeta. set (base := from_defaults variables (dict_update (from_file a) ps)).
  unfold bind at 1. destruct (interactive a).
  - rewrite from_prompts_spec by assumption. cbv zeta.
    destruct (length (todo variables base) <=? length (stdin w)) eqn:Elen;
      [|reflexivity].
    apply Nat.leb_le in Elen.
    set (values := dict_update base _).
    rewrite (filter_nil (fun v => negb (dict_mem v values))).
    + unfold finish, unused_warning, bind, warn, ret. cbn [stdin stdout stderr].
      destruct (filter _ (dict_keys values)); [now rewrite app_nil_r | reflexivity].
    + intros k Hk. apply negb_false_iff. unfold dict_mem, values.
      rewrite dict_get_update.
      destruct (lookup_last k _) eqn:El; [reflexivity|].
      destruct (dict_get k base) eqn:Eb; [reflexivity|]. exfalso.
      assert (Hin : In k (todo variables base)).
      { unfold todo. apply filter_In. split; [assumption|].
        unfold dict_mem. now rewrite Eb. }
      apply In_nth_error in Hin as [i Hi].
      assert (Hlt : i < length (stdin w)).
      { apply Nat.lt_le_trans with (length (todo variables base)); [|assumption].
        apply nth_error_Some. congruence. }
      apply nth_error_Some in Hlt.
      destruct (nth_error (stdin w) i) as [line|] eqn:Eline; [|congruence].
      rewrite (answers_get variables _ _ i k line) in El; try assumption;
        [discriminate|].
      unfold todo. apply NoDup_filter. assumption.
  - unfold ret at 1. fold (todo variables base).
    destruct (todo variables base) as [|n names]; [|reflexivity].
    unfold finish, unused_warning, bind, warn, ret.
    destruct (filter _ (dict_keys base)); [|reflexivity].
    rewrite app_nil_r. now destruct w.
Qed.

(** ** Where a value comes from *)

Lemma take_drop_while (p : ascii -> bool) (s : str) :
  take_while p s ++ drop_while p s = s.
Proof.
  induction s as [|c s IH]; simpl; [reflexivity|].
  destruct (p c); simpl; [now rewrite IH | reflexivity].
Qed.

Lemma take_while_all (p : ascii -> bool) (s : str) :
  Forall (fun c => p c = true) (take_while p s).
Proof.
  induction s as [|c s IH]; simpl; [constructor|].
  destruct (p c) eqn:E; now constructor.
Qed.

Lemma drop_while_head (p : ascii -> bool) (s r : str) (c : ascii) :
  drop_while p s = c :: r -> p c = false.
Proof.
  induction s as [|x s IH]; simpl; [discriminate|].
  destruct (p x) eqn:E; [assumption|]. intros H. now injection H as <- <-.
Qed.

Lemma drop_while_nil (p : ascii -> bool) (s : str) :
  drop_while p s = [] <-> Forall (fun c => p c = true) s.
Proof.
  induction s as [|x s IH]; simpl.
  - split; [constructor | reflexivity].
  - destruct (p x) eqn:E.
    + rewrite IH. split; [now constructor | intros H; now inversion H].
    + split; [discriminate | intros H; inversion H; congruence].
Qed.

Lemma not_eq_sign_false (c : ascii) : not_eq_sign c = false <-> c = "="%char.
Proof.
  unfold not_eq_sign. destruct (Ascii.eqb_spec c "="%char); simpl;
    split; congruence.
Qed.

Lemma all_not_eq_sign (s : str) :
  Forall (fun c => not_eq_sign c = true) s <-> ~ In "="%char s.
Proof.
  rewrite Forall_forall. split.
  - intros H Hin. specialize (H _ Hin). discriminate.
  - intros H c Hc. destruct (not_eq_sign c) eqn:E; [reflexivity|].
    apply not_eq_sign_false in E. subst. contradiction.
Qed.

Lemma split_eq_none (v : str) : split_eq v = None <-> ~ In "="%char v.
Proof.
  rewrite <- all_not_eq_sign, <- drop_while_nil. unfold split_eq.
  destruct (drop_while not_eq_sign v); split; congruence.
Qed.

Lemma split_eq_some (v k val : str) :
  split_eq v = Some (k, val) ->
  v = k ++ "="%char :: val /\ ~ In "="%char k.
Proof.
  unfold split_eq. destruct (drop_while not_eq_sign v) as [|x r] eqn:E;
    [discriminate|].
  intros H. injection H as <- <-.
  apply drop_while_head in E as Hx. apply not_eq_sign_false in Hx. subst x.
  split.
  - now rewrite <- E, take_drop_while.
  - apply all_not_eq_sign, take_while_all.
Qed.

Lemma parse_cli_ok (a : args) :
  well_formed_cli a -> parse_cli (var a) = Ok (cli_pairs a).
Proof.
  unfold well_formed_cli, cli_pairs. induction 1 as [|v l Hv _ IH]; [reflexivity|].
  simpl. destruct (split_eq v) as [p|] eqn:E.
  - now rewrite IH.
  - apply split_eq_none in E. contradiction.
Qed.

Lemma parse_cli_err (a : args) :
  ~ well_formed_cli a ->
  exists v, parse_cli (var a) = Err (InvalidVar v)
            /\ In v (var a) /\ ~ In "="%char v.
Proof.
  unfold well_formed_cli. induction (var a) as [|v l IH]; intros H.
  - exfalso. apply H. constructor.
  - simpl. destruct (split_eq v) as [p|] eqn:E.
    + destruct IH as (v' & -> & Hin & Hv').
      * intros Hl. apply H. constructor; [|assumption].
        intros; destruct (in_dec ascii_dec "="%char v) as [?|Hn]; [assumption|].
        apply split_eq_none in Hn. congruence.
      * exists v'. auto.
    + exists v. apply split_eq_none in E. auto.
Qed.

Lemma well_formed_cli_dec (a : args) :
  {well_formed_cli a} + {~ well_formed_cli a}.
Proof. apply Forall_dec. intros v. apply in_dec, ascii_dec. Qed.

Lemma dict_get_from_file (k : str) (a : args) :
  dict_get k (from_file a) = file_value k a.
Proof.
  unfold from_file, file_value. destruct (vars a) as [file|]; [|reflexivity].
  rewrite dict_get_update. now destruct (lookup_last k file).
Qed.

Lemma dict_get_base (variables : dict (option str)) (a : args) (k : str) :
  NoDup (dict_keys variables) ->
  dict_get k (from_defaults variables (dict_update (from_file a) (cli_pairs a)))
  = supplied k variables a.
Proof.
  intros Hnd. rewrite dict_get_from_defaults by assumption.
  rewrite dict_get_update, dict_get_from_file. unfold supplied, cli_value.
  destruct (lookup_last k (cli_pairs a)); [reflexivity|].
  now destruct (file_value k a).
Qed.

Lemma todo_base (variables : dict (option str)) (a : args) :
  NoDup (dict_keys variables) ->
  todo variables
    (from_defaults variables (dict_update (from_file a) (cli_pairs a)))
  = unresolved variables a.
Proof.
  intros Hnd. unfold todo, unresolved. apply filter_ext. intros k.
  unfold dict_mem. rewrite dict_get_base by assumption.
  now destruct (supplied k variables a).
Qed.

(** [collect_values] in terms of the sources. *)
Lemma collect_values_sources (variables : dict (option str)) (a : args)
    (w : world) :
  NoDup (dict_keys variables) ->
  well_formed_cli a ->
  let base :=
    from_defaults variables (dict_update (from_file a) (cli_pairs a)) in
  let names := unresolved variables a in
  collect_values variables a w
  = if interactive a then
      if length names <=? length (stdin w) then
        finish variables
          (dict_update base (answers variables names (stdin w)))
          (World (skipn (length names) (stdin w))
                 (stdout w ++ prompts variables names) (stderr w))
      else
        (Err EOFError,
         World [] (stdout w ++ prompts variables
                                 (firstn (S (length (stdin w))) names))
               (stderr w))
    else
      match names with
      | [] => finish variables base w
      | _ :: _ => (Err (Missing names), w)
      end.
Proof.
  intros Hnd Hwf. cbv zeta. rewrite collect_values_spec by assumption.
  rewrite parse_cli_ok by assumption. cbv zeta.
  now rewrite todo_base.
Qed.

Lemma collect_values_ok_wf (variables : dict (option str)) (a : args)
    (w w' : world) (values : dict str) :
  NoDup (dict_keys variables) ->
  collect_values variables a w = (Ok values, w') -> well_formed_cli a.
Proof.
  intros Hnd H. destruct (well_formed_cli_dec a) as [Hwf|Hwf]; [assumption|].
  apply parse_cli_err in Hwf as (v & Hv & _).
  rewrite collect_values_spec, Hv in H by assumption. discriminate.
Qed.

Lemma unresolved_in (variables : dict (option str)) (a : args) (k : str) :
  In k (unresolved variables a)
  <-> In k (dict_keys variables) /\ supplied k variables a = None.
Proof.
  unfold unresolved. rewrite filter_In.
  destruct (supplied k variables a); split; intros [? ?]; split;
    congruence.
Qed.

Lemma unresolved_nodup (variables : dict (option str)) (a : args) :
  NoDup (dict_keys variables) -> NoDup (unresolved variables a).
Proof. apply NoDup_filter. Qed.

(** C3. In a successful resolution a discrete [key=value] input wins
    over the values file, the file over the default recorded at
    extraction, and only a variable of the template that none of the
    three resolves can get its value from a prompt, which needs the
    interactive mode; the prompts asked are exactly those of the
    unresolved variables. For the template
    [Hello {{name|default=World}}] (the default in double quotes),
    the file value [FileVal] and the input [name=CliVal], the result
    is [Hello CliVal]; without the input it is [Hello FileVal], and
    without both [Hello World]. *)
Theorem C3_resolution_precedence :
  (forall variables a w values w',
      NoDup (dict_keys variables) ->
      collect_values variables a w = (Ok values, w') ->
      (forall k,
          match cli_value k a with
          | Some v => dict_get k values = Some v
          | None =>
              match file_value k a with
              | Some v => dict_get k values = Some v
              | None =>
                  match default_value k variables with
                  | Some d => dict_get k values = Some d
                  | None =>
                      dict_get k values <> None ->
                      interactive a = true /\ In k (unresolved variables a)
                  end
              end
          end)
      /\ stdout w'
         = stdout w ++ (if interactive a
                        then prompts variables (unresolved variables a)
                        else []))
  /\ (forall w,
        let file := Some [(txt "name", txt "FileVal")] in
        extract_variables hello_template = [(txt "name", Some (txt "World"))]
        /\ render_prompt hello_template (Args file [txt "name=CliVal"] false) w
           = (Ok (txt "Hello CliVal"), w)
        /\ render_prompt hello_template (Args file [] false) w
           = (Ok (txt "Hello FileVal"), w)
        /\ render_prompt hello_template (Args None [] false) w
           = (Ok (txt "Hello World"), w)).
Proof.
  split.
  - intros variables a w values w' Hnd H.
    pose proof (collect_values_ok_wf _ _ _ _ _ Hnd H) as Hwf.
    rewrite collect_values_sources in H by assumption. cbv zeta in H.
    set (base := from_defaults _ _) in H.
    assert (Hbase : forall k, dict_get k base = supplied k variables a).
    { intros k. now apply dict_get_base. }
    assert (Hview : forall k (values : dict str),
      (forall v, supplied k variables a = Some v -> dict_get k values = Some v) ->
      (supplied k variables a = None -> dict_get k values <> None ->
       interactive a = true /\ In k (unresolved variables a)) ->
      match cli_value k a with
      | Some v => dict_get k values = Some v
      | None =>
          match file_value k a with
          | Some v => dict_get k values = Some v
          | None =>
              match default_value k variables with
              | Some d => dict_get k values = Some d
              | None =>
                  dict_get k values <> None ->
                  interactive a = true /\ In k (unresolved variables a)
              end
          end
      end).
    { intros k vs Hs Hn. unfold supplied in Hs, Hn.
      destruct (cli_value k a); [now apply Hs|].
      destruct (file_value k a); [now apply Hs|].
      destruct (default_value k variables); [now apply Hs | now apply Hn]. }
    destruct (interactive a).
    + destruct (length (unresolved variables a) <=? length (stdin w)) eqn:El;
        [|discriminate].
      unfold finish in H. injection H as <- <-. cbn [stdout]. split; [|reflexivity].
      intros k. apply Hview.
      * intros v Hv. rewrite dict_get_update, lookup_last_notin, Hbase; [assumption|].
        intros Hin. apply answers_keys_in, unresolved_in in Hin as [_ Hin].
        congruence.
      * intros Hs Hget. split; [reflexivity|].
        rewrite dict_get_update, Hbase, Hs in Hget.
        destruct (lookup_last k _) eqn:Ea; [|congruence].
        destruct (in_dec (list_eq_dec ascii_dec) k
                    (map fst (answers variables (unresolved variables a) (stdin w))))
          as [Hin|Hin].
        -- eapply answers_keys_in, Hin.
        -- apply lookup_last_notin in Hin. congruence.
    + destruct (unresolved variables a) eqn:Eu; [|discriminate].
      unfold finish in H. injection H as <- <-. cbn [stdout].
      rewrite app_nil_r. split; [|reflexivity].
      intros k. apply Hview.
      * intros v Hv. now rewrite Hbase.
      * intros Hs Hget. rewrite Hbase in Hget. congruence.
  - intros w file. repeat split; vm_compute; reflexivity.
Qed.

Lemma C3_witness :
  dict_get (txt "name") [(txt "name", txt "CliVal")] = Some (txt "CliVal").
Proof.
  assert (Hnd : NoDup (dict_keys [(txt "name", Some (txt "World"))])).
  { repeat constructor. simpl. tauto. }
  exact (proj1 (proj1 C3_resolution_precedence
           [(txt "name", Some (txt "World"))]
           (Args (Some [(txt "name", txt "FileVal")]) [txt "name=CliVal"] false)
           (World [] [] []) [(txt "name", txt "CliVal")] (World [] [] [])
           Hnd eq_refl) (txt "name")).
Defined.

(** C4. Resolution ends in the missing-variable error exactly when
    every discrete input is well formed, the interactive mode is off
    (with it on every variable is prompted for), and some variable of
    the template has no discrete value, no file value and no default;
    the error then lists exactly those variables, in template order,
    as [Missing: a, b], and nothing was read or written. For the
    template [{{x}} and {{y|default=Y}}] (the default in double
    quotes) without values and without the interactive mode the error
    names [x] only. *)
Theorem C4_missing_variables (variables : dict (option str)) (a : args)
    (w : world) (Hnd : NoDup (dict_keys variables)) :
  (forall names w',
      collect_values variables a w = (Err (Missing names), w')
      <-> well_formed_cli a /\ interactive a = false
          /\ names = unresolved variables a /\ names <> [] /\ w' = w)
  /\ (forall k,
        In k (unresolved variables a)
        <-> In k (dict_keys variables) /\ cli_value k a = None
            /\ file_value k a = None /\ default_value k variables = None)
  /\ (forall names,
        message (Missing names) = txt "Missing: " ++ join (txt ", ") names)
  /\ (extract_variables x_and_y_template
      = [(txt "x", None); (txt "y", Some (txt "Y"))]
      /\ collect_values (extract_variables x_and_y_template)
           (Args None [] false) w
         = (Err (Missing [txt "x"]), w)).
Proof.
  split; [|split; [|split]].
  - intros names w'. destruct (well_formed_cli_dec a) as [Hwf|Hwf].
    + rewrite collect_values_sources by assumption. cbv zeta.
      destruct (interactive a).
      * destruct (_ <=? _); unfold finish;
          (split; [discriminate | intros (_ & ? & _); discriminate]).
      * destruct (unresolved variables a) as [|n ns]; unfold finish.
        -- split; [discriminate | intros (_ & _ & -> & ? & _); congruence].
        -- split.
           ++ intros H. injection H as <- <-. repeat split; try assumption.
              discriminate.
           ++ intros (_ & _ & -> & _ & ->). reflexivity.
    + split; [|tauto]. intros H. exfalso.
      apply parse_cli_err in Hwf as (v & Hv & _).
      rewrite collect_values_spec, Hv in H by assumption. discriminate.
  - intros k. rewrite unresolved_in. unfold supplied.
    destruct (cli_value k a), (file_value k a), (default_value k variables);
      intuition congruence.
  - reflexivity.
  - split; vm_compute; reflexivity.
Qed.

Lemma C4_witness :
  collect_values [(txt "a", None); (txt "b", Some (txt "B")); (txt "c", None)]
    (Args (Some [(txt "q", txt "1")]) [] false) (World [txt "line"] [] [])
  = (Err (Missing [txt "a"; txt "c"]), World [txt "line"] [] []).
Proof.
  assert (Hnd : NoDup (dict_keys
            [(txt "a", None); (txt "b", Some (txt "B")); (txt "c", None)])).
  { repeat constructor; simpl; intuition discriminate. }
  apply (proj1 (C4_missing_variables _ (Args (Some [(txt "q", txt "1")]) [] false)
                  (World [txt "line"] [] []) Hnd)).
  repeat split; try discriminate. constructor.
Defined.

(** C8. In the interactive mode, given well-formed discrete inputs
    and enough input lines, resolution succeeds, and each prompted
    variable (the i-th unresolved variable, answered by the i-th
    line) gets the stripped line, or, when that is empty, its default
    if it has one and the empty string otherwise. A prompted variable
    never has a non-empty default, so an empty answer gives the empty
    string, without an error. *)
Theorem C8_empty_interactive_answer :
  (forall d, answer [] (Some d) = d)
  /\ answer [] None = []
  /\ (forall variables a w,
        NoDup (dict_keys variables) ->
        well_formed_cli a ->
        interactive a = true ->
        length (unresolved variables a) <= length (stdin w) ->
        exists values w',
          collect_values variables a w = (Ok values, w')
          /\ stdout w' = stdout w ++ prompts variables (unresolved variables a)
          /\ forall i k line,
               nth_error (unresolved variables a) i = Some k ->
               nth_error (stdin w) i = Some line ->
               dict_get k values
               = Some (answer (strip line) (default_for k variables))
               /\ (strip line = [] -> dict_get k values = Some [])).
Proof.
  split; [reflexivity | split; [reflexivity|]].
  intros variables a w Hnd Hwf Hi Hlen.
  rewrite collect_values_sources by assumption. cbv zeta. rewrite Hi.
  apply Nat.leb_le in Hlen. rewrite Hlen. unfold finish.
  do 2 eexists. split; [reflexivity|]. cbn [stdout]. split; [reflexivity|].
  intros i k line Hk Hline.
  assert (Hget : dict_get k
            (dict_update
               (from_defaults variables (dict_update (from_file a) (cli_pairs a)))
               (answers variables (unresolved variables a) (stdin w)))
          = Some (answer (strip line) (default_for k variables))).
  { rewrite dict_get_update.
    rewrite (answers_get variables _ _ i k line); auto using unresolved_nodup. }
  split; [exact Hget|].
  intros Hempty. rewrite Hget, Hempty. f_equal.
  apply nth_error_In, unresolved_in in Hk as [_ Hk].
  unfold supplied in Hk.
  destruct (cli_value k a); [discriminate|].
  destruct (file_value k a); [discriminate|].
  unfold default_value in Hk. unfold answer. cbn [nonempty].
  destruct (default_for k variables) as [d|]; [|reflexivity].
  cbn [truthy] in Hk. destruct d; [reflexivity | discriminate].
Qed.

Lemma C8_witness :
  exists values w',
    collect_values [(txt "x", None); (txt "y", Some (txt "Y"))]
      (Args None [] true) (World [txt "   "] [] [])
    = (Ok values, w')
    /\ dict_get (txt "x") values = Some [].
Proof.
  assert (Hnd : NoDup (dict_keys [(txt "x", None); (txt "y", Some (txt "Y"))])).
  { repeat constructor; simpl; intuition discriminate. }
  destruct (proj2 (proj2 C8_empty_interactive_answer)
              [(txt "x", None); (txt "y", Some (txt "Y"))]
              (Args None [] true) (World [txt "   "] [] [])
              Hnd (Forall_nil _) eq_refl (le_n 1))
    as (values & w' & Hrun & _ & Hval).
  exists values, w'. split; [exact Hrun|].
  exact (proj2 (Hval 0 (txt "x") (txt "   ") eq_refl eq_refl) eq_refl).
Defined.

(** ** The token estimate *)

Lemma split_from_word (w rest : str) (cur : option str) :
  w <> [] ->
  Forall (fun c => is_space c = false) w ->
  split_from (w ++ rest) cur
  = split_from rest
      (Some (match cur with Some c => c | None => [] end ++ w)).
Proof.
  intros Hne Hw. revert cur.
  induction Hw as [|c w Hc Hw IH]; intros cur; [congruence|].
  cbn [app split_from]. rewrite Hc. destruct w as [|c' w].
  - cbn [app]. now destruct cur.
  - rewrite IH by discriminate. f_equal. f_equal.
    destruct cur; cbn [app]; [now rewrite <- app_assoc | reflexivity].
Qed.

(** [split] gives back the words of a text that was made by joining
    words with single spaces. *)
Lemma split_join (ws : list str) :
  Forall (fun w => w <> [] /\ Forall (fun c => is_space c = false) w) ws ->
  split (join (txt " ") ws) = ws.
Proof.
  unfold split. induction 1 as [|a ws [Hne Ha] Hws IH]; [reflexivity|].
  destruct ws as [|b ws].
  - cbn [join]. rewrite <- (app_nil_r a) at 1.
    now rewrite split_from_word.
  - change (join (txt " ") (a :: b :: ws))
      with (a ++ " "%char :: join (txt " ") (b :: ws)).
    rewrite split_from_word by assumption. cbn [app split_from].
    replace (is_space " ") with true by reflexivity.
    now rewrite IH.
Qed.

Local Open Scope Z_scope.

(** Rounding moves an integer to a neighbouring multiple of the unit
    in the last place. *)
Lemma round53_bounds (p : Z) :
  let t := 2 ^ Z.max 0 (Z.log2 p - 52) in
  p / t * t <= round53 p <= (p / t + 1) * t.
Proof.
  unfold round53. cbv zeta.
  destruct (Z.leb_spec (Z.log2 p - 52) 0) as [He|He].
  - rewrite Z.max_l by assumption. change (2 ^ 0) with 1.
    rewrite Z.div_1_r. lia.
  - rewrite Z.max_r by lia.
    assert (Ht : 0 < 2 ^ (Z.log2 p - 52)) by (apply Z.pow_pos_nonneg; lia).
    destruct (_ <? _); [lia|]. destruct (_ <? _); [lia|].
    destruct (Z.even _); lia.
Qed.

Lemma round53_small (n : Z) : 0 <= n < 2 ^ 53 -> round53 n = n.
Proof.
  intros [H0 H]. unfold round53.
  destruct (Z.leb_spec (Z.log2 n - 52) 0) as [He|He]; [reflexivity|].
  exfalso. destruct (Z.eq_dec n 0) as [->|Hn]; [simpl in He; lia|].
  assert (Z.log2 n < 53) by (apply Z.log2_lt_pow2; lia). lia.
Qed.

Lemma ten_float_1_3 : 10 * float_1_3 = 13 * 2 ^ 52 + 2.
Proof. reflexivity. Qed.

(** Below [2^48] words the double arithmetic gives the exact integer
    part of thirteen tenths of the count. *)
Lemma int_times_1_3_exact (n : Z) :
  0 <= n < 2 ^ 48 -> int_times_1_3 n = 13 * n / 10.
Proof.
  intros [H0 Hn]. unfold int_times_1_3.
  rewrite (round53_small n)
    by (split; [assumption|]; apply Z.lt_trans with (2 ^ 48);
        [assumption | reflexivity]).
  set (P := n * float_1_3).
  set (k := 13 * n / 10).
  assert (Hk : 10 * k <= 13 * n < 10 * k + 10).
  { unfold k. pose proof (Z.div_mod (13 * n) 10 ltac:(lia)).
    pose proof (Z.mod_pos_bound (13 * n) 10 ltac:(lia)). lia. }
  assert (HP : 10 * P = 13 * n * 2 ^ 52 + 2 * n).
  { unfold P. pose proof ten_float_1_3. lia. }
  assert (H48 : 2 ^ 48 = 281474976710656) by reflexivity.
  assert (H52 : 2 ^ 52 = 4503599627370496) by reflexivity.
  set (e := Z.max 0 (Z.log2 P - 52)).
  assert (He : 0 <= e <= 48).
  { unfold e. split; [lia|]. apply Z.max_lub; [lia|].
    destruct (Z.eq_dec P 0) as [->|HP0]; [simpl; lia|].
    assert (0 < P) by (unfold P, float_1_3 in *; lia).
    assert (Z.log2 P < 101); [|lia].
    apply Z.log2_lt_pow2; [assumption|].
    change (2 ^ 101) with (2 ^ 48 * 2 ^ 53).
    apply Z.le_lt_trans with (2 ^ 48 * float_1_3);
      [unfold P; apply Z.mul_le_mono_nonneg_r; unfold float_1_3; lia | reflexivity]. }
  pose proof (round53_bounds P) as HR. cbv zeta in HR. fold e in HR.
  set (t := 2 ^ e) in *. set (R := round53 P) in *.
  assert (Ht : 0 < t) by (apply Z.pow_pos_nonneg; lia).
  assert (Ht48 : t <= 2 ^ 48) by (apply Z.pow_le_mono_r; lia).
  set (u := 2 ^ (52 - e)).
  assert (Hu : 0 < u) by (apply Z.pow_pos_nonneg; lia).
  assert (Htu : t * u = 2 ^ 52).
  { unfold t, u. rewrite <- Z.pow_add_r by lia. f_equal. lia. }
  pose proof (Z.div_mod P t ltac:(lia)) as Hdm.
  pose proof (Z.mod_pos_bound P t Ht) as Hmod.
  set (q := P / t) in *.
  (* the lower neighbour is not below k * 2^52 *)
  assert (Hlow : k * u <= q).
  { apply Z.div_le_lower_bound; [assumption|].
    replace (t * (k * u)) with (k * 2 ^ 52) by (rewrite <- Htu; ring). lia. }
  symmetry. apply Z.div_unique with (r := R - k * 2 ^ 52); [left|lia].
  split.
  - assert (k * u * t <= q * t) by (apply Z.mul_le_mono_nonneg_r; lia).
    replace (k * u * t) with (k * 2 ^ 52) in * by (rewrite <- Htu; ring). lia.
  - assert (R <= P + t) by lia. lia.
Qed.

Lemma round53_ge_pow (p : Z) :
  0 < Z.log2 p - 52 -> 2 ^ Z.log2 p <= round53 p.
Proof.
  intros He. pose proof (round53_bounds p) as HR. cbv zeta in HR.
  rewrite Z.max_r in HR by lia.
  assert (Hp : 0 < p).
  { destruct (Z.lt_ge_cases 0 p) as [H|H]; [assumption|].
    rewrite Z.log2_nonpos in He by lia. lia. }
  set (e := Z.log2 p - 52) in *.
  assert (Ht : 0 < 2 ^ e) by (apply Z.pow_pos_nonneg; lia).
  pose proof (Z.log2_spec p Hp) as [Hlo _].
  replace (Z.log2 p) with (52 + e) in * by lia.
  rewrite Z.pow_add_r in * by lia.
  assert (2 ^ 52 <= p / 2 ^ e).
  { apply Z.div_le_lower_bound; lia. }
  nia.
Qed.

Lemma round53_le_pow (p : Z) : 0 <= p -> round53 p <= 2 ^ (Z.log2 p + 1).
Proof.
  intros H0. destruct (Z.eq_dec p 0) as [->|Hp]; [cbv; discriminate|].
  pose proof (Z.log2_spec p ltac:(lia)) as [_ Hhi].
  rewrite <- Z.add_1_r in Hhi.
  pose proof (round53_bounds p) as HR. cbv zeta in HR.
  destruct (Z.le_gt_cases (Z.log2 p - 52) 0) as [He|He].
  - rewrite Z.max_l in HR by assumption. change (2 ^ 0) with 1 in HR.
    unfold round53. apply Z.leb_le in He. rewrite He. lia.
  - rewrite Z.max_r in HR by lia.
    set (e := Z.log2 p - 52) in *.
    assert (Ht : 0 < 2 ^ e) by (apply Z.pow_pos_nonneg; lia).
    replace (Z.log2 p + 1) with (53 + e) in * by lia.
    rewrite Z.pow_add_r in * by lia.
    assert (p / 2 ^ e < 2 ^ 53).
    { apply Z.div_lt_upper_bound; lia. }
    nia.
Qed.

Lemma round53_monotone (p p' : Z) : 0 <= p <= p' -> round53 p <= round53 p'.
Proof.
  intros [H0 Hle].
  pose proof (Z.log2_le_mono p p' Hle) as Hlog.
  destruct (Z.le_gt_cases (Z.log2 p' - 52) 0) as [He'|He'].
  - unfold round53.
    replace (Z.log2 p - 52 <=? 0) with true by (symmetry; apply Z.leb_le; lia).
    replace (Z.log2 p' - 52 <=? 0) with true by (symmetry; apply Z.leb_le; lia).
    assumption.
  - destruct (Z.eq_dec (Z.log2 p) (Z.log2 p')) as [Heq|Hne].
    + unfold round53. rewrite Heq.
      replace (Z.log2 p' - 52 <=? 0) with false by (symmetry; apply Z.leb_gt; lia).
      set (e := Z.log2 p' - 52) in *.
      assert (Ht : 0 < 2 ^ e) by (apply Z.pow_pos_nonneg; lia).
      pose proof (Z.div_mod p (2 ^ e) ltac:(lia)).
      pose proof (Z.div_mod p' (2 ^ e) ltac:(lia)).
      pose proof (Z.mod_pos_bound p (2 ^ e) Ht).
      pose proof (Z.mod_pos_bound p' (2 ^ e) Ht).
      pose proof (Z.div_le_mono p p' (2 ^ e) Ht Hle) as Hq.
      set (q := p / 2 ^ e) in *. set (q' := p' / 2 ^ e) in *.
      set (r := p mod 2 ^ e) in *. set (r' := p' mod 2 ^ e) in *.
      destruct (Z.eq_dec q q') as [Hqq|Hqq].
      * rewrite <- Hqq. assert (r <= r') by nia.
        apply Z.mul_le_mono_nonneg_r; [lia|].
        destruct (Z.ltb_spec r (2 ^ (e - 1))), (Z.ltb_spec r' (2 ^ (e - 1)));
          destruct (Z.ltb_spec (2 ^ (e - 1)) r), (Z.ltb_spec (2 ^ (e - 1)) r');
          destruct (Z.even q); lia.
      * assert (q + 1 <= q') by lia.
        apply Z.le_trans with ((q + 1) * 2 ^ e).
        -- apply Z.mul_le_mono_nonneg_r; [lia|].
           destruct (_ <? _); [lia|]. destruct (_ <? _); [lia|].
           destruct (Z.even q); lia.
        -- apply Z.le_trans with (q' * 2 ^ e).
           ++ apply Z.mul_le_mono_nonneg_r; lia.
           ++ apply Z.mul_le_mono_nonneg_r; [lia|].
              destruct (_ <? _); [lia|]. destruct (_ <? _); [lia|].
              destruct (Z.even q'); lia.
    + apply Z.le_trans with (2 ^ (Z.log2 p + 1)); [now apply round53_le_pow|].
      apply Z.le_trans with (2 ^ Z.log2 p'); [|now apply round53_ge_pow].
      apply Z.pow_le_mono_r; lia.
Qed.

Lemma round53_nonneg (p : Z) : 0 <= p -> 0 <= round53 p.
Proof. intros H. change 0 with (round53 0) at 1. apply round53_monotone. lia. Qed.

Lemma int_times_1_3_monotone (n m : Z) :
  0 <= n <= m -> int_times_1_3 n <= int_times_1_3 m.
Proof.
  intros [H0 Hnm]. unfold int_times_1_3.
  apply Z.div_le_mono; [reflexivity|].
  apply round53_monotone.
  pose proof (round53_nonneg n H0).
  pose proof (round53_monotone n m (conj H0 Hnm)).
  unfold float_1_3. split; [lia|]. apply Z.mul_le_mono_nonneg_r; lia.
Qed.

Local Close Scope Z_scope.

(** C9. The estimate is a function of the number of whitespace
    separated words alone, it never decreases when that number grows,
    and below [2^48] words it is the integer part of thirteen tenths
    of the number (the double arithmetic of [int(n * 1.3)] is exact
    there). *)
Theorem C9_token_estimate :
  (forall t1 t2,
      length (split t1) = length (split t2) ->
      estimate_tokens t1 = estimate_tokens t2)
  /\ (forall t1 t2,
        length (split t1) <= length (split t2) ->
        (estimate_tokens t1 <= estimate_tokens t2)%Z)
  /\ (forall t,
        (Z.of_nat (length (split t)) < 2 ^ 48)%Z ->
        estimate_tokens t = (13 * Z.of_nat (length (split t)) / 10)%Z).
Proof.
  unfold estimate_tokens. split; [|split].
  - intros t1 t2 H. now rewrite H.
  - intros t1 t2 H. apply int_times_1_3_monotone. lia.
  - intros t H. apply int_times_1_3_exact. lia.
Qed.

Lemma C9_witness :
  estimate_tokens (txt "  write a   sorting function ") = 5%Z
  /\ (estimate_tokens (txt "one two") <= estimate_tokens (txt "a b c"))%Z
  /\ estimate_tokens (txt "one two") = estimate_tokens (txt "three  four").
Proof.
  split; [|split].
  - exact (proj2 (proj2 C9_token_estimate)
             (txt "  write a   sorting function ") eq_refl).
  - apply (proj1 (proj2 C9_token_estimate) (txt "one two") (txt "a b c")).
    simpl. lia.
  - exact (proj1 C9_token_estimate (txt "one two") (txt "three  four") eq_refl).
Defined.

(** ** The matcher on the marker patterns *)

Section Repetition.
Variable R : Type.
Variable p : ascii -> bool.
Implicit Types (s : str) (g : caps) (k : cont R).

(** Greedy repetition of a character class before such a
    continuation takes the longest run: giving characters back cannot
    help. *)
Lemma star_loop_class k :
  blind p k ->
  forall fuel s g,
    length s <= fuel ->
    star_loop (one (R:=R) p) fuel s g k = k (drop_while p s) g.
Proof.
  intros Hk. induction fuel as [|f IH]; intros s g Hlen.
  - destruct s; [reflexivity | simpl in Hlen; lia].
  - destruct s as [|c s]; [reflexivity|]. cbn [star_loop one drop_while].
    destruct (p c) eqn:Ec; [|reflexivity].
    replace (length s <? length (c :: s)) with true
      by (symmetry; apply Nat.ltb_lt; simpl; lia).
    rewrite IH by (simpl in Hlen; lia).
    destruct (k (drop_while p s) g) eqn:E; [reflexivity|].
    now apply Hk.
Qed.

Lemma firstn_drop_while s :
  firstn (length s - length (drop_while p s)) s = take_while p s.
Proof.
  induction s as [|c s IH]; [reflexivity|]. cbn [drop_while take_while].
  destruct (p c).
  - assert (Hle : length (drop_while p s) <= length s).
    { rewrite <- (take_drop_while p s) at 2. rewrite length_app. lia. }
    cbn [length]. rewrite Nat.sub_succ_l by assumption.
    cbn [firstn]. now rewrite IH.
  - now rewrite Nat.sub_diag.
Qed.

End Repetition.

Lemma strip_by_length (eq : ascii -> ascii -> bool) (p s rest : str) :
  strip_by eq p s = Some rest -> length s = length p + length rest.
Proof.
  revert s. induction p as [|x p IH]; intros s; simpl.
  - intros H. now injection H as <-.
  - destruct s as [|y s]; [discriminate|].
    destruct (eq x y); [|discriminate]. intros H. simpl. now rewrite (IH _ H).
Qed.

Lemma drop_while_length (p : ascii -> bool) (s : str) :
  length (drop_while p s) <= length s.
Proof.
  rewrite <- (take_drop_while p s) at 2. rewrite length_app. lia.
Qed.

Lemma strip_prefix_head (x c : ascii) (p s r : str) :
  strip_prefix (x :: p) (c :: s) = Some r -> x = c.
Proof.
  unfold strip_prefix. cbn [strip_by].
  destruct (Ascii.eqb_spec x c); [trivial | discriminate].
Qed.

Lemma strip_prefix_head_diff (x c : ascii) (p s : str) :
  x <> c -> strip_prefix (x :: p) (c :: s) = None.
Proof.
  intros H. apply strip_by_head_diff. now apply Ascii.eqb_neq.
Qed.

Section MarkerEngine.
Variable R : Type.
Implicit Types (s : str) (g : caps) (k : cont R).

Lemma run_lit_exact (w : str) s g k :
  run false (lit w) s g k
  = match strip_prefix w s with
    | Some rest => k rest g
    | None => None
    end.
Proof. apply run_lit. Qed.

Lemma run_word_plus s g k :
  blind is_word k ->
  run false (Group 1 (Plus Word)) s g k
  = if nonempty (take_while is_word s)
    then k (drop_while is_word s) ((1, take_while is_word s) :: g)
    else None.
Proof.
  intros Hk. cbn [run]. unfold one at 1.
  destruct s as [|c s]; [reflexivity|]. cbn [take_while drop_while].
  destruct (is_word c) eqn:Ec; [|reflexivity]. cbn [nonempty].
  change (run false Word) with (one (R:=R) is_word).
  rewrite star_loop_class; [| |reflexivity].
  - pose proof (firstn_drop_while is_word (c :: s)) as H.
    cbn [drop_while take_while] in H. rewrite Ec in H. now rewrite H.
  - intros c' s' g' Hc'. now apply Hk.
Qed.

Lemma dquote_head (s r : str) (c : ascii) :
  drop_while not_dquote s = c :: r -> c = dquote.
Proof.
  intros H. apply drop_while_head in H. unfold not_dquote in H.
  apply negb_false_iff in H. now apply Ascii.eqb_eq.
Qed.

Lemma run_clause (capture : bool) s g k :
  run false (default_clause capture) s g k
  = match strip_prefix (txt "|default=" ++ [dquote]) s with
    | Some s1 =>
        match drop_while not_dquote s1 with
        | _ :: s3 =>
            k s3 (if capture then (2, take_while not_dquote s1) :: g else g)
        | [] => None
        end
    | None => None
    end.
Proof.
  unfold default_clause. cbv zeta. cbn [run]. rewrite run_lit_exact.
  destruct (strip_prefix _ s) as [s1|]; [|reflexivity].
  assert (Hstar : forall k',
    blind not_dquote k' ->
    run false (Star (NotChr dquote)) s1 g k' = k' (drop_while not_dquote s1) g).
  { intros k' Hk'. cbn [run].
    change (run false (NotChr dquote)) with (one (R:=R) not_dquote).
    now apply star_loop_class. }
  assert (Hblind : forall k' : cont R,
    blind not_dquote (fun s' g' => one (chr_eq false dquote) s' g' k')).
  { intros k' c s' g' Hc. unfold one, chr_eq.
    unfold not_dquote in Hc. apply negb_true_iff in Hc.
    rewrite Ascii.eqb_sym. now rewrite Hc. }
  destruct capture; cbn [run].
  - refine (eq_trans (Hstar (fun s' g' =>
      one (chr_eq false dquote) s'
        ((2, firstn (length s1 - length s') s1) :: g') k) _) _).
    + intros c s' g' Hc. now apply (Hblind k).
    + cbv beta. rewrite firstn_drop_while.
      destruct (drop_while not_dquote s1) as [|c s3] eqn:Ed; [reflexivity|].
      apply dquote_head in Ed as ->. unfold one, chr_eq.
      now rewrite Ascii.eqb_refl.
  - refine (eq_trans (Hstar (fun s' g' => one (chr_eq false dquote) s' g' k)
                        (Hblind k)) _).
    cbv beta.
    + destruct (drop_while not_dquote s1) as [|c s3] eqn:Ed; [reflexivity|].
      apply dquote_head in Ed as ->. unfold one, chr_eq.
      now rewrite Ascii.eqb_refl.
Qed.

Lemma run_tail (capture : bool) s g k :
  run false (Seq (Opt (default_clause capture)) (lit (txt "}}"))) s g k
  = match marker_tail s with
    | Some (d, rest) =>
        k rest (match d with
                | Some d' => if capture then (2, d') :: g else g
                | None => g
                end)
    | None => None
    end.
Proof.
  cbn [run]. rewrite run_clause. unfold marker_tail.
  destruct (strip_prefix (txt "|default=" ++ [dquote]) s) as [s1|] eqn:Es.
  - assert (Hclose : strip_prefix (txt "}}") s = None).
    { destruct s as [|c s]; [discriminate|].
      apply strip_prefix_head in Es as <-.
      now apply strip_prefix_head_diff. }
    rewrite !run_lit_exact. rewrite Hclose.
    destruct (drop_while not_dquote s1) as [|c s3] eqn:Ed; [reflexivity|].
    apply dquote_head in Ed as Hc. subst c.
    rewrite run_lit_exact.
    change (strip_prefix (dquote :: txt "}}") (dquote :: s3))
      with (strip_prefix (txt "}}") s3).
    destruct (strip_prefix (txt "}}") s3); [destruct (k _ _)|]; reflexivity.
  - rewrite run_lit_exact.
    destruct (strip_prefix (txt "}}") s); reflexivity.
Qed.

End MarkerEngine.

Lemma marker_tail_blind (c : ascii) (s : str) :
  is_word c = true -> marker_tail (c :: s) = None.
Proof.
  intros Hc. unfold marker_tail. cbn [txt list_ascii_of_string app].
  rewrite !strip_prefix_head_diff; [reflexivity | |]; intros <-; discriminate Hc.
Qed.

Lemma marker_tail_length (s rest : str) (d : option str) :
  marker_tail s = Some (d, rest) -> length rest < length s.
Proof.
  unfold marker_tail.
  destruct (strip_prefix (txt "|default=" ++ [dquote]) s) as [s1|] eqn:E1.
  - destruct (strip_prefix _ (drop_while not_dquote s1)) as [r|] eqn:E2;
      [|discriminate].
    intros H. injection H as _ <-.
    apply strip_by_length in E1, E2.
    pose proof (drop_while_length not_dquote s1). simpl in E1, E2. lia.
  - destruct (strip_prefix (txt "}}") s) as [r|] eqn:E2; [|discriminate].
    intros H. injection H as _ <-. apply strip_by_length in E2. simpl in E2. lia.
Qed.

Lemma parse_marker_length (s rest name : str) (d : option str) :
  parse_marker s = Some (name, d, rest) -> length rest < length s.
Proof.
  unfold parse_marker.
  destruct (strip_prefix (txt "{{") s) as [s1|] eqn:E1; [|discriminate].
  destruct (nonempty _); [|discriminate].
  destruct (marker_tail _) as [[d' r]|] eqn:E2; [|discriminate].
  intros H. injection H as _ _ <-.
  apply strip_by_length in E1. apply marker_tail_length in E2.
  pose proof (drop_while_length is_word s1). simpl in E1. lia.
Qed.

Lemma parse_named_length (name s rest : str) :
  parse_named name s = Some rest -> length rest < length s.
Proof.
  unfold parse_named.
  destruct (strip_prefix (txt "{{") s) as [s1|] eqn:E1; [|discriminate].
  destruct (strip_prefix name s1) as [s2|] eqn:E2; [|discriminate].
  destruct (marker_tail s2) as [[d r]|] eqn:E3; [|discriminate].
  cbn [option_map snd]. intros H. injection H as <-.
  apply strip_by_length in E1, E2. apply marker_tail_length in E3.
  simpl in E1. lia.
Qed.

Lemma run_seq {R} (ic : bool) (a b : re) (s : str) (g : caps) (k : cont R) :
  run ic (Seq a b) s g k = run ic a s g (fun s' g' => run ic b s' g' k).
Proof. reflexivity. Qed.

(** The matcher on the marker pattern is the direct reading. *)
Lemma match_at_marker_re (s : str) (adv : bool) :
  match_at false marker_re s adv
  = match parse_marker s with
    | Some (name, d, rest) =>
        Some (length s - length rest, marker_caps name d)
    | None => None
    end.
Proof.
  pose proof (parse_marker_length s) as Hlen.
  unfold match_at, marker_re, parse_marker in *.
  rewrite run_seq, run_lit_exact.
  destruct (strip_prefix (txt "{{") s) as [s1|]; [|reflexivity].
  rewrite run_seq, run_word_plus.
  - destruct (nonempty (take_while is_word s1)); [|reflexivity].
    rewrite run_tail.
    destruct (marker_tail (drop_while is_word s1)) as [[d rest]|]; [|reflexivity].
    specialize (Hlen rest _ d eq_refl). cbv zeta.
    replace (length s - length rest =? 0) with false
      by (symmetry; apply Nat.eqb_neq; lia).
    rewrite andb_false_r. now destruct d.
  - intros c s' g' Hc. rewrite run_tail. now rewrite marker_tail_blind.
Qed.

Lemma match_at_render_pattern (name s : str) (adv : bool) :
  match_at false (render_pattern name) s adv
  = match parse_named name s with
    | Some rest => Some (length s - length rest, [])
    | None => None
    end.
Proof.
  pose proof (parse_named_length name s) as Hlen.
  unfold match_at, render_pattern, parse_named in *.
  rewrite run_seq, run_lit_exact.
  destruct (strip_prefix (txt "{{") s) as [s1|]; [|reflexivity].
  rewrite run_seq, run_lit_exact.
  destruct (strip_prefix name s1) as [s2|]; [|reflexivity].
  rewrite run_tail.
  destruct (marker_tail s2) as [[d rest]|]; [|reflexivity].
  cbn [option_map snd] in *. specialize (Hlen rest eq_refl). cbv zeta.
  replace (length s - length rest =? 0) with false
    by (symmetry; apply Nat.eqb_neq; lia).
  rewrite andb_false_r. now destruct d.
Qed.

(** Two matchers that agree give the same walk. *)
Lemma scan_ext (m1 m2 : str -> bool -> option (nat * caps)) :
  (forall s adv, m1 s adv = m2 s adv) ->
  forall s n, scan m1 s n = scan m2 s n.
Proof.
  intros H. induction s as [|c s IH]; intros n.
  - destruct n; [|reflexivity]. simpl. rewrite !H.
    reflexivity.
  - destruct n; [|simpl; apply IH]. simpl. rewrite !H.
    destruct (m2 (c :: s) false) as [[[|k] g]|]; rewrite ?IH; try reflexivity.
    destruct (m2 (c :: s) true) as [[[|k'] g']|]; rewrite ?IH; reflexivity.
Qed.

(** ** Markers, declaratively *)

(** Both sides are the same characters, grouped differently. *)
Ltac same_text :=
  unfold marker_text, clause, quoted;
  repeat (rewrite <- ?app_assoc; cbn [app txt list_ascii_of_string]);
  reflexivity.

Lemma strip_prefix_some_iff (p s rest : str) :
  strip_prefix p s = Some rest <-> s = p ++ rest.
Proof.
  unfold strip_prefix. revert s. induction p as [|x p IH]; intros s; simpl.
  - split; [intros H; now injection H | intros ->; reflexivity].
  - destruct s as [|y s]; [split; discriminate|].
    destruct (Ascii.eqb_spec x y) as [->|E].
    + rewrite IH. split; [intros ->; reflexivity | intros H; now injection H].
    + split; [discriminate | intros H; injection H; congruence].
Qed.

Lemma strip_prefix_app (p rest : str) : strip_prefix p (p ++ rest) = Some rest.
Proof. now apply strip_prefix_some_iff. Qed.

Lemma take_while_app_stop (p : ascii -> bool) (a b : str) :
  Forall (fun c => p c = true) a ->
  match b with c :: _ => p c = false | [] => True end ->
  take_while p (a ++ b) = a /\ drop_while p (a ++ b) = b.
Proof.
  intros Ha Hb. induction Ha as [|x a Hx _ IH]; simpl.
  - destruct b as [|c b]; [split; reflexivity|]. simpl. now rewrite Hb.
  - rewrite Hx. destruct IH as [-> ->]. split; reflexivity.
Qed.

Lemma all_not_dquote (s : str) :
  Forall (fun c => not_dquote c = true) s <-> ~ In dquote s.
Proof.
  rewrite Forall_forall. unfold not_dquote. split.
  - intros H Hin. specialize (H _ Hin). now rewrite Ascii.eqb_refl in H.
  - intros H c Hc. apply negb_true_iff, Ascii.eqb_neq. intros ->. contradiction.
Qed.

Lemma marker_tail_some_iff (s rest : str) (d : option str) :
  marker_tail s = Some (d, rest)
  <-> wf_default d /\ s = clause d ++ txt "}}" ++ rest.
Proof.
  unfold marker_tail. split.
  - destruct (strip_prefix (txt "|default=" ++ [dquote]) s) as [s1|] eqn:E1.
    + destruct (strip_prefix _ (drop_while not_dquote s1)) as [r|] eqn:E2;
        [|discriminate].
      intros H. injection H as <- <-.
      apply strip_prefix_some_iff in E1, E2. split.
      * apply all_not_dquote, take_while_all.
      * rewrite E1, <- (take_drop_while not_dquote s1) at 1. rewrite E2.
        same_text.
    + destruct (strip_prefix (txt "}}") s) as [r|] eqn:E2; [|discriminate].
      intros H. injection H as <- <-. apply strip_prefix_some_iff in E2.
      split; [exact I | exact E2].
  - intros [Hd ->]. destruct d as [d|]; cbn [clause wf_default] in *.
    + unfold quoted.
      replace ((txt "|default=" ++ dquote :: d ++ [dquote]) ++ txt "}}" ++ rest)
        with ((txt "|default=" ++ [dquote]) ++ d ++ dquote :: txt "}}" ++ rest)
        by same_text.
      rewrite strip_prefix_app.
      destruct (take_while_app_stop not_dquote d (dquote :: txt "}}" ++ rest))
        as [-> ->].
      * now apply all_not_dquote.
      * reflexivity.
      * change (dquote :: txt "}}" ++ rest) with ((dquote :: txt "}}") ++ rest).
        now rewrite strip_prefix_app.
    + cbn [app txt list_ascii_of_string].
      rewrite strip_prefix_head_diff by discriminate.
      change ("}"%char :: "}"%char :: rest) with (txt "}}" ++ rest).
      now rewrite strip_prefix_app.
Qed.

Lemma clause_head (d : option str) (rest : str) :
  match clause d ++ txt "}}" ++ rest with
  | c :: _ => is_word c = false
  | [] => True
  end.
Proof. destruct d; reflexivity. Qed.

Lemma parse_marker_some_iff (s name rest : str) (d : option str) :
  parse_marker s = Some (name, d, rest)
  <-> wf_name name /\ wf_default d /\ s = marker_text name d ++ rest.
Proof.
  unfold parse_marker, marker_text, wf_name. split.
  - destruct (strip_prefix (txt "{{") s) as [s1|] eqn:E1; [|discriminate].
    destruct (nonempty (take_while is_word s1)) eqn:En; [|discriminate].
    destruct (marker_tail (drop_while is_word s1)) as [[d' r]|] eqn:E2;
      [|discriminate].
    intros H. injection H as <- <- <-.
    apply strip_prefix_some_iff in E1. apply marker_tail_some_iff in E2 as [Hd E2].
    repeat split.
    + intros Hnil. rewrite Hnil in En. discriminate.
    + apply take_while_all.
    + assumption.
    + rewrite E1, <- (take_drop_while is_word s1) at 1. rewrite E2.
      same_text.
  - intros ((Hne & Hw) & Hd & ->). rewrite <- !app_assoc.
    rewrite strip_prefix_app.
    destruct (take_while_app_stop is_word name (clause d ++ txt "}}" ++ rest) Hw
                (clause_head d rest)) as [-> ->].
    destruct name; [congruence|]. cbn [nonempty].
    assert (Ht : marker_tail (clause d ++ txt "}}" ++ rest) = Some (d, rest))
      by now apply marker_tail_some_iff.
    now rewrite Ht.
Qed.

Lemma parse_named_some_iff (name s rest : str) :
  parse_named name s = Some rest
  <-> exists d, wf_default d /\ s = marker_text name d ++ rest.
Proof.
  unfold parse_named, marker_text. split.
  - destruct (strip_prefix (txt "{{") s) as [s1|] eqn:E1; [|discriminate].
    destruct (strip_prefix name s1) as [s2|] eqn:E2; [|discriminate].
    destruct (marker_tail s2) as [[d r]|] eqn:E3; [|discriminate].
    cbn [option_map snd]. intros H. injection H as <-.
    apply strip_prefix_some_iff in E1, E2.
    apply marker_tail_some_iff in E3 as [Hd E3].
    exists d. split; [assumption|]. rewrite E1, E2, E3.
    same_text.
  - intros (d & Hd & ->). rewrite <- !app_assoc.
    rewrite !strip_prefix_app.
    assert (Ht : marker_tail (clause d ++ txt "}}" ++ rest) = Some (d, rest))
      by now apply marker_tail_some_iff.
    now rewrite Ht.
Qed.

(** ** Extraction *)

Lemma finditer_marker_re (template : str) :
  finditer marker_re template = scan marker_matcher template 0.
Proof. apply scan_ext. apply match_at_marker_re. Qed.

Lemma scan_at_hit (matcher : str -> bool -> option (nat * caps))
    (t rest : str) (g : caps) :
  t <> [] ->
  matcher (t ++ rest) false = Some (length t, g) ->
  scan matcher (t ++ rest) 0 = Hit t g :: scan matcher rest 0.
Proof.
  destruct t as [|c t]; [congruence|]. intros _ H.
  cbn [app length] in *. rewrite (scan_hit _ _ _ _ _ H).
  rewrite scan_pass. f_equal. f_equal. f_equal.
  rewrite firstn_app, Nat.sub_diag, firstn_all. cbn [firstn]. apply app_nil_r.
Qed.

Lemma marker_text_not_nil (name : str) (d : option str) :
  marker_text name d <> [].
Proof. discriminate. Qed.

Lemma length_app_sub (t rest : str) : length (t ++ rest) - length rest = length t.
Proof. rewrite length_app. lia. Qed.

Lemma marker_matcher_hit (name rest : str) (d : option str) (adv : bool) :
  wf_name name -> wf_default d ->
  marker_matcher (marker_text name d ++ rest) adv
  = Some (length (marker_text name d), marker_caps name d).
Proof.
  intros Hn Hd. unfold marker_matcher.
  assert (H : parse_marker (marker_text name d ++ rest) = Some (name, d, rest))
    by now apply parse_marker_some_iff.
  now rewrite H, length_app_sub.
Qed.

Lemma marker_matcher_miss (s : str) (adv : bool) :
  ~ marker_at s <-> marker_matcher s adv = None.
Proof.
  unfold marker_matcher, marker_at. split.
  - intros H. destruct (parse_marker s) as [[[name d] rest]|] eqn:E; [|reflexivity].
    exfalso. apply H. exists name, d, rest. now apply parse_marker_some_iff.
  - intros H (name & d & rest & Hn & Hd & Hs).
    assert (E : parse_marker s = Some (name, d, rest))
      by now apply parse_marker_some_iff.
    rewrite E in H. discriminate.
Qed.

Lemma found_marker_caps (name : str) (d : option str) :
  (group_or_empty 1 (marker_caps name d), group 2 (marker_caps name d))
  = (name, d).
Proof. now destruct d. Qed.

Lemma found_hit (m : str) (g : caps) (ps : list piece) :
  found (Hit m g :: ps) = (group_or_empty 1 g, group 2 g) :: found ps.
Proof. reflexivity. Qed.

Lemma found_skip (c : ascii) (ps : list piece) :
  found (Skip c :: ps) = found ps.
Proof. reflexivity. Qed.

Lemma markers_skip (c : ascii) (s : str) :
  ~ marker_at (c :: s) -> markers (c :: s) = markers s.
Proof.
  intros H. unfold markers. rewrite !finditer_marker_re.
  rewrite scan_miss by now apply (marker_matcher_miss (c :: s) false).
  apply found_skip.
Qed.

Lemma markers_hit (name rest : str) (d : option str) :
  wf_name name -> wf_default d ->
  markers (marker_text name d ++ rest) = (name, d) :: markers rest.
Proof.
  intros Hn Hd. unfold markers. rewrite !finditer_marker_re.
  rewrite scan_at_hit with (g := marker_caps name d).
  - now rewrite found_hit, found_marker_caps.
  - apply marker_text_not_nil.
  - now apply marker_matcher_hit.
Qed.

(** The walk of the matcher finds exactly the leftmost,
    non-overlapping markers. *)
Lemma markers_scanned (template : str) : Scanned template (markers template).
Proof.
  remember (length template) as n eqn:Hn.
  assert (Hle : length template <= n) by lia. clear Hn.
  revert template Hle. induction n as [|n IH]; intros template Hle.
  - destruct template; [|simpl in Hle; lia]. apply Scanned_nil.
  - destruct template as [|c s]; [apply Scanned_nil|].
    destruct (parse_marker (c :: s)) as [[[name d] rest]|] eqn:Ep.
    + apply parse_marker_some_iff in Ep as (Hname & Hd & Hs).
      rewrite Hs, markers_hit by assumption.
      apply Scanned_hit; try assumption. apply IH.
      assert (Hl : length (c :: s) = length (marker_text name d) + length rest)
        by (rewrite Hs; apply length_app).
      assert (0 < length (marker_text name d)).
      { pose proof (marker_text_not_nil name d).
        destruct (marker_text name d); [congruence | simpl; lia]. }
      lia.
    + assert (Hno : ~ marker_at (c :: s)).
      { apply (marker_matcher_miss (c :: s) false).
        unfold marker_matcher. now rewrite Ep. }
      rewrite markers_skip by assumption.
      apply Scanned_skip; [assumption|]. apply IH. simpl in Hle. lia.
Qed.

Lemma Scanned_present (template : str) (ms : list (str * option str)) :
  Scanned template ms ->
  forall name d,
    In (name, d) ms ->
    wf_name name /\ wf_default d
    /\ exists pre post, template = pre ++ marker_text name d ++ post.
Proof.
  induction 1 as [|c s ms _ _ IH|name0 d0 rest ms Hn Hd _ IH]; intros name d Hin.
  - destruct Hin.
  - destruct (IH _ _ Hin) as (? & ? & pre & post & ->).
    split; [assumption | split; [assumption|]]. now exists (c :: pre), post.
  - destruct Hin as [Hin|Hin].
    + injection Hin as <- <-. split; [assumption | split; [assumption|]].
      now exists [], rest.
    + destruct (IH _ _ Hin) as (? & ? & pre & post & ->).
      split; [assumption | split; [assumption|]].
      exists (marker_text name0 d0 ++ pre), post. now rewrite <- app_assoc.
Qed.

Lemma Scanned_markers (template : str) (ms : list (str * option str)) :
  Scanned template ms -> ms = markers template.
Proof.
  induction 1 as [|c s ms Hno _ IH|name d rest ms Hn Hd _ IH].
  - reflexivity.
  - now rewrite markers_skip.
  - rewrite markers_hit by assumption. now f_equal.
Qed.

Lemma hits2_found (ps : list piece) :
  map (fun nd => (fst nd, or_none (snd nd))) (hits2 ps) = map record (found ps).
Proof.
  induction ps as [|[c|m g] ps IH]; [reflexivity | exact IH |].
  change (hits2 (Hit m g :: ps))
    with ((group_or_empty 1 g, group_or_empty 2 g) :: hits2 ps).
  rewrite found_hit. cbn [map]. rewrite IH. f_equal.
  unfold record, recorded, group_or_empty. cbn [fst snd].
  now destruct (group 2 g).
Qed.

Lemma extract_variables_markers (template : str) :
  extract_variables template = dict_update [] (map record (markers template)).
Proof.
  unfold extract_variables, findall2, markers. now rewrite hits2_found.
Qed.

Lemma fold_lookup_last {V} (k : str) (l : list (str * V)) (acc : option V) :
  fold_left (fun acc kv => if str_eqb k (fst kv) then Some (snd kv) else acc)
    l acc
  = match lookup_last k l with
    | Some v => Some v
    | None => acc
    end.
Proof.
  induction l as [|kv l IH] using rev_ind; [reflexivity|].
  rewrite fold_left_app, lookup_last_snoc. cbn [fold_left].
  destruct (str_eqb k (fst kv)); [reflexivity | exact IH].
Qed.

Lemma lookup_last_app {V} (k : str) (l1 l2 : list (str * V)) :
  lookup_last k (l1 ++ l2)
  = match lookup_last k l2 with
    | Some v => Some v
    | None => lookup_last k l1
    end.
Proof. unfold lookup_last at 1. rewrite fold_left_app. apply fold_lookup_last. Qed.

Lemma lookup_last_in {V} (k : str) (l : list (str * V)) :
  In k (map fst l) <-> lookup_last k l <> None.
Proof.
  split.
  - induction l as [|kv l IH]; [intros []|]. intros Hin.
    rewrite lookup_last_cons. destruct (lookup_last k l); [discriminate|].
    destruct Hin as [<-|Hin]; [now rewrite str_eqb_refl | now apply IH in Hin].
  - intros H. destruct (in_dec (list_eq_dec ascii_dec) k (map fst l)) as [Hin|Hin];
      [assumption|]. now apply lookup_last_notin in Hin.
Qed.

Lemma dict_update_keys {V} (k : str) (l : list (str * V)) :
  In k (dict_keys (dict_update [] l)) <-> In k (map fst l).
Proof.
  rewrite <- dict_mem_in, lookup_last_in. unfold dict_mem.
  rewrite dict_get_update. cbn [dict_get].
  destruct (lookup_last k l); split; congruence.
Qed.

Lemma map_fst_record (ms : list (str * option str)) :
  map fst (map record ms) = map fst ms.
Proof. rewrite map_map. reflexivity. Qed.

Lemma extract_variables_nodup (template : str) :
  NoDup (dict_keys (extract_variables template)).
Proof.
  rewrite extract_variables_markers. apply dict_update_nodup. constructor.
Qed.

(** The default kept for a name is that of its last marker. *)
Lemma extract_variables_last (template name : str) (d : option str)
    (before after : list (str * option str)) :
  markers template = before ++ (name, d) :: after ->
  ~ In name (map fst after) ->
  dict_get name (extract_variables template) = Some (recorded d).
Proof.
  intros Hm Hafter. rewrite extract_variables_markers, dict_get_update, Hm.
  rewrite map_app, lookup_last_app. cbn [map]. rewrite lookup_last_cons.
  rewrite lookup_last_notin by now rewrite map_fst_record.
  unfold record at 1 2. cbn [fst snd]. now rewrite str_eqb_refl.
Qed.

(** C1, as the program has it. For every template the markers found
    are the leftmost, non-overlapping ones of a walk from left to
    right, each of them text of the template; extraction returns
    exactly their distinct names, each once, and keeps for a name the
    default of its LAST marker, an empty default counting as none: a
    later marker without a default clause erases an earlier
    default. *)
Theorem C1_extraction_last_default_wins (template : str) :
  Scanned template (markers template)
  /\ (forall ms, Scanned template ms -> ms = markers template)
  /\ (forall name d,
        In (name, d) (markers template) ->
        wf_name name /\ wf_default d
        /\ exists pre post, template = pre ++ marker_text name d ++ post)
  /\ NoDup (dict_keys (extract_variables template))
  /\ (forall name,
        In name (dict_keys (extract_variables template))
        <-> In name (map fst (markers template)))
  /\ (forall before name d after,
        markers template = before ++ (name, d) :: after ->
        ~ In name (map fst after) ->
        dict_get name (extract_variables template) = Some (recorded d)).
Proof.
  split; [apply markers_scanned|].
  split; [apply Scanned_markers|].
  split; [apply Scanned_present, markers_scanned|].
  split; [apply extract_variables_nodup|].
  split.
  - intros name. rewrite extract_variables_markers, dict_update_keys.
    now rewrite map_fst_record.
  - intros before name d after. apply extract_variables_last.
Qed.

Lemma C1_witness :
  dict_get (txt "x") (extract_variables two_defaults_template) = Some None.
Proof.
  apply (proj2 (proj2 (proj2 (proj2 (proj2
           (C1_extraction_last_default_wins two_defaults_template)))))
           [(txt "x", Some (txt "A"))] (txt "x") None []).
  - vm_compute. reflexivity.
  - simpl. tauto.
Defined.

(** The first occurrence of [x] carries the default [A], the second
    carries none, and extraction records no default for [x]. *)
Lemma C1_counterexample :
  markers two_defaults_template
  = [(txt "x", Some (txt "A")); (txt "x", None)]
  /\ extract_variables two_defaults_template = [(txt "x", None)]
  /\ dict_get (txt "x") (extract_variables two_defaults_template)
     <> Some (Some (txt "A")).
Proof.
  split; [vm_compute; reflexivity|].
  split; [vm_compute; reflexivity|].
  vm_compute. discriminate.
Qed.

Lemma markers_nil : markers [] = [].
Proof. reflexivity. Qed.

(** C10. A marker whose default clause holds the empty string is
    recorded without a default: alone in a template it gives the
    single entry [name: None], and in any template where it is the
    last marker of its name the variable is required, so that
    resolution without a value for it (and without the interactive
    mode) ends in the missing-variable error naming it. *)
Theorem C10_empty_default_is_no_default :
  (forall name,
      wf_name name ->
      extract_variables (marker_text name (Some [])) = [(name, None)])
  /\ (forall template name before after a w,
        markers template = before ++ (name, Some []) :: after ->
        ~ In name (map fst after) ->
        cli_value name a = None ->
        file_value name a = None ->
        well_formed_cli a ->
        interactive a = false ->
        dict_get name (extract_variables template) = Some None
        /\ exists names,
             collect_values (extract_variables template) a w
             = (Err (Missing names), w)
             /\ In name names)
  /\ (forall w,
        collect_values (extract_variables empty_default_template)
          (Args None [] false) w
        = (Err (Missing [txt "x"]), w)).
Proof.
  split; [|split].
  - intros name Hn. rewrite extract_variables_markers.
    rewrite <- (app_nil_r (marker_text name (Some []))).
    rewrite markers_hit, markers_nil; [reflexivity | assumption | simpl; tauto].
  - intros template name before after a w Hm Hafter Hcli Hfile Hwf Hi.
    pose proof (extract_variables_last template name (Some []) before after
                  Hm Hafter) as Hget.
    cbn [recorded or_none nonempty] in Hget. split; [exact Hget|].
    pose proof (extract_variables_nodup template) as Hnd.
    assert (Hin : In name (unresolved (extract_variables template) a)).
    { apply unresolved_in. split.
      - apply dict_mem_in. unfold dict_mem. now rewrite Hget.
      - unfold supplied, default_value, default_for.
        now rewrite Hcli, Hfile, Hget. }
    rewrite collect_values_sources by assumption. cbv zeta. rewrite Hi.
    destruct (unresolved (extract_variables template) a) as [|n ns];
      [destruct Hin|].
    now exists (n :: ns).
  - intros w. vm_compute. reflexivity.
Qed.

Lemma C10_witness :
  dict_get (txt "y")
    (extract_variables (txt "{{x}} " ++ marker_text (txt "y") (Some [])))
  = Some None
  /\ exists names,
       collect_values
         (extract_variables (txt "{{x}} " ++ marker_text (txt "y") (Some [])))
         (Args None [txt "x=1"] false) (World [] [] [])
       = (Err (Missing names), World [] [] [])
       /\ In (txt "y") names.
Proof.
  apply (proj1 (proj2 C10_empty_default_is_no_default)
           (txt "{{x}} " ++ marker_text (txt "y") (Some []))
           (txt "y") [(txt "x", None)] []).
  - vm_compute. reflexivity.
  - simpl. tauto.
  - reflexivity.
  - reflexivity.
  - constructor; [simpl; auto | constructor].
  - reflexivity.
Defined.

(** ** Rendering *)

Lemma finditer_render_pattern (name template : str) :
  finditer (render_pattern name) template
  = scan (named_matcher name) template 0.
Proof. apply scan_ext. apply match_at_render_pattern. Qed.

Lemma parse_template_plain (ngroups : nat) (v : str) :
  no_backslash v -> parse_template ngroups v = Some (map TChr v).
Proof.
  intros H. unfold parse_template.
  destruct (existsb (Ascii.eqb "\") v) eqn:E; [|reflexivity].
  exfalso. apply existsb_exists in E as (c & Hc & Ec).
  apply Ascii.eqb_eq in Ec. subst. contradiction.
Qed.

Lemma sub_plain (name v template : str) :
  no_backslash v ->
  sub 0 (render_pattern name) v template = Some (pass name v template).
Proof. intros H. unfold sub. now rewrite parse_template_plain. Qed.

Lemma expand_plain (v m : str) (g : caps) : expand (map TChr v) m g = v.
Proof.
  unfold expand. induction v as [|c v IH]; [reflexivity|].
  cbn [map flat_map app]. now rewrite IH.
Qed.

Lemma named_matcher_hit (name rest : str) (d : option str) (adv : bool) :
  wf_default d ->
  named_matcher name (marker_text name d ++ rest) adv
  = Some (length (marker_text name d), []).
Proof.
  intros Hd. unfold named_matcher.
  assert (H : parse_named name (marker_text name d ++ rest) = Some rest).
  { apply parse_named_some_iff. now exists d. }
  now rewrite H, length_app_sub.
Qed.

Lemma named_matcher_miss (name s : str) (adv : bool) :
  ~ named_at name s <-> named_matcher name s adv = None.
Proof.
  unfold named_matcher, named_at. split.
  - intros H. destruct (parse_named name s) as [rest|] eqn:E; [|reflexivity].
    exfalso. apply H. apply parse_named_some_iff in E as (d & Hd & Hs).
    now exists d, rest.
  - intros H (d & rest & Hd & Hs).
    assert (E : parse_named name s = Some rest).
    { apply parse_named_some_iff. now exists d. }
    rewrite E in H. discriminate.
Qed.

Lemma pass_nil (name v : str) : pass name v [] = [].
Proof.
  unfold pass. rewrite finditer_render_pattern. reflexivity.
Qed.

Lemma pass_skip (name v : str) (c : ascii) (s : str) :
  ~ named_at name (c :: s) -> pass name v (c :: s) = c :: pass name v s.
Proof.
  intros H. unfold pass. rewrite !finditer_render_pattern.
  rewrite scan_miss by now apply (named_matcher_miss name (c :: s) false).
  reflexivity.
Qed.

Lemma pass_hit (name v rest : str) (d : option str) :
  wf_default d ->
  pass name v (marker_text name d ++ rest) = v ++ pass name v rest.
Proof.
  intros Hd. unfold pass. rewrite !finditer_render_pattern.
  rewrite scan_at_hit with (g := []).
  - cbn [glue flat_map]. now rewrite expand_plain.
  - apply marker_text_not_nil.
  - now apply named_matcher_hit.
Qed.

Lemma named_at_dec (name s : str) : {named_at name s} + {~ named_at name s}.
Proof.
  destruct (named_matcher name s false) eqn:E.
  - left. destruct (parse_named name s) as [rest|] eqn:Ep.
    + apply parse_named_some_iff in Ep as (d & Hd & Hs). now exists d, rest.
    + unfold named_matcher in E. rewrite Ep in E. discriminate.
  - right. now apply (named_matcher_miss name s false).
Qed.

Lemma pass_replaced (name v template : str) :
  Replaced name v template (pass name v template).
Proof.
  remember (length template) as n eqn:Hn.
  assert (Hle : length template <= n) by lia. clear Hn.
  revert template Hle. induction n as [|n IH]; intros template Hle.
  - destruct template; [|simpl in Hle; lia]. rewrite pass_nil. constructor.
  - destruct template as [|c s]; [rewrite pass_nil; constructor|].
    destruct (named_at_dec name (c :: s)) as [(d & rest & Hd & Hs)|Hno].
    + rewrite Hs, pass_hit by assumption.
      apply Replaced_hit; [assumption|]. apply IH.
      assert (Hl : length (c :: s) = length (marker_text name d) + length rest)
        by (rewrite Hs; apply length_app).
      assert (0 < length (marker_text name d)).
      { pose proof (marker_text_not_nil name d).
        destruct (marker_text name d); [congruence | simpl; lia]. }
      lia.
    + rewrite pass_skip by assumption.
      apply Replaced_skip; [assumption|]. apply IH. simpl in Hle. lia.
Qed.

Lemma Replaced_pass (name v template result : str) :
  Replaced name v template result -> result = pass name v template.
Proof.
  induction 1 as [|c s s' Hno _ IH|d rest rest' Hd _ IH].
  - now rewrite pass_nil.
  - rewrite pass_skip by assumption. now f_equal.
  - rewrite pass_hit by assumption. now f_equal.
Qed.

Lemma render_template_plain (template : str) (values : dict str) :
  Forall (fun kv => no_backslash (snd kv)) values ->
  render_template template values = Ok (passes template values).
Proof.
  unfold render_template, passes. intros H. revert template.
  induction H as [|[name v] values Hv _ IH]; intros template; [reflexivity|].
  cbn [fold_left fst snd] in *. rewrite sub_plain by assumption. apply IH.
Qed.

Lemma passes_Passes (template : str) (values : dict str) :
  Passes template values (passes template values).
Proof.
  revert template. induction values as [|[name v] values IH]; intros template.
  - constructor.
  - apply Passes_cons with (t1 := pass name v template);
      [apply pass_replaced | apply IH].
Qed.

Lemma Passes_passes (template : str) (values : dict str) (result : str) :
  Passes template values result -> result = passes template values.
Proof.
  induction 1 as [t|t t1 r name v values Hr _ IH]; [reflexivity|].
  apply Replaced_pass in Hr. subst t1. exact IH.
Qed.

(** C2, as the program has it. For values without a backslash,
    rendering succeeds and is the chain of the passes of the value
    map, in its order. Each pass replaces the markers of its variable
    from left to right by the value as it is, without looking into
    the value it has just inserted; a later pass works on the result
    of the earlier ones, inserted values included. *)
Theorem C2_render_is_a_chain_of_passes (template : str) (values : dict str) :
  Forall (fun kv => no_backslash (snd kv)) values ->
  exists result,
    render_template template values = Ok result
    /\ Passes template values result
    /\ (forall result', Passes template values result' -> result' = result).
Proof.
  intros H. exists (passes template values). split; [|split].
  - now apply render_template_plain.
  - apply passes_Passes.
  - apply Passes_passes.
Qed.

Lemma C2_witness :
  exists result,
    render_template (txt "{{x}} and {{x}}")
      [(txt "x", txt "{{x}}"); (txt "y", txt "Z")]
    = Ok result
    /\ Passes (txt "{{x}} and {{x}}")
         [(txt "x", txt "{{x}}"); (txt "y", txt "Z")] result
    /\ (forall result',
          Passes (txt "{{x}} and {{x}}")
            [(txt "x", txt "{{x}}"); (txt "y", txt "Z")] result' ->
          result' = result).
Proof.
  apply C2_render_is_a_chain_of_passes.
  repeat constructor; unfold no_backslash; simpl; intuition discriminate.
Defined.

(** The value of [x] holds a marker of [y]; it is inserted and then
    replaced by the pass for [y], so the value does not come out as
    it went in. *)
Lemma C2_counterexample :
  render_template (txt "{{x}}") [(txt "x", txt "{{y}}"); (txt "y", txt "Z")]
  = Ok (txt "Z")
  /\ txt "Z" <> txt "{{y}}".
Proof. split; [vm_compute; reflexivity | discriminate]. Qed.

(** Backslashes in a value are read by [re.sub] as escapes: they do
    not come out as they went in, and some are refused. *)
Lemma render_template_backslash :
  render_template (txt "{{p}}") [(txt "p", txt "C:\new")]
  = Ok (txt "C:" ++ newline :: txt "ew")
  /\ render_template (txt "{{p}}") [(txt "p", txt "C:\dir")]
     = Err BadReplacement
  /\ render_template (txt "{{p}}") [(txt "p", txt "a\\b")]
     = Ok (txt "a\b").
Proof. repeat split; vm_compute; reflexivity. Qed.

(** ** Well-formed templates *)

Lemma named_at_head (name s : str) (c : ascii) :
  named_at name (c :: s) -> c = "{"%char.
Proof. intros (d & rest & _ & H). now injection H. Qed.

Lemma named_at_second (name s : str) (c c' : ascii) :
  named_at name (c :: c' :: s) -> c' = "{"%char.
Proof. intros (d & rest & _ & H). now injection H. Qed.

Lemma pass_no_open (name v t rest : str) :
  no_open t -> pass name v (t ++ rest) = t ++ pass name v rest.
Proof.
  unfold no_open. induction t as [|c t IH]; intros Ht; [reflexivity|].
  cbn [app]. rewrite pass_skip.
  - f_equal. apply IH. intros H. apply Ht. now right.
  - intros H. apply named_at_head in H. apply Ht. now left.
Qed.

Lemma is_word_not_open (c : ascii) : is_word c = true -> c <> "{"%char.
Proof. intros H ->. discriminate H. Qed.

Lemma word_no_open (name : str) :
  Forall (fun c => is_word c = true) name -> no_open name.
Proof.
  intros H Hin. rewrite Forall_forall in H.
  now apply (is_word_not_open _ (H _ Hin)).
Qed.

Lemma no_open_app (a b : str) : no_open a -> no_open b -> no_open (a ++ b).
Proof. unfold no_open. intros Ha Hb H. apply in_app_or in H. tauto. Qed.

Lemma no_open_clause (d : option str) :
  match d with Some d' => no_open d' | None => True end -> no_open (clause d).
Proof.
  destruct d as [d|]; [|intros _ []].
  intros Hd. unfold clause, quoted.
  apply no_open_app; [intros H; simpl in H; intuition discriminate|].
  intros [H|H]; [discriminate|]. apply in_app_or in H as [H|[H|[]]];
    [contradiction | discriminate].
Qed.

(** Two words followed by something that is not a word character:
    if the texts agree, so do the words. *)
Lemma word_prefix_unique (n m t1 t2 : str) :
  Forall (fun c => is_word c = true) n ->
  Forall (fun c => is_word c = true) m ->
  match t1 with c :: _ => is_word c = false | [] => False end ->
  match t2 with c :: _ => is_word c = false | [] => False end ->
  n ++ t1 = m ++ t2 -> n = m.
Proof.
  intros Hn. revert m. induction Hn as [|x n Hx _ IH]; intros m Hm H1 H2 H.
  - destruct Hm as [|y m Hy _]; [reflexivity|]. cbn [app] in H.
    destruct t1 as [|c t1]; [contradiction|]. injection H as -> _. congruence.
  - destruct Hm as [|y m Hy Hm]; cbn [app] in H.
    + destruct t2 as [|c t2]; [contradiction|]. injection H as <- _. congruence.
    + injection H as -> H. f_equal. now apply IH.
Qed.

Lemma tail_head (d : option str) (rest : str) :
  match clause d ++ txt "}}" ++ rest with
  | c :: _ => is_word c = false
  | [] => False
  end.
Proof. destruct d; reflexivity. Qed.

Lemma named_at_marker (name n rest : str) (d : option str) :
  wf_name name -> wf_name n ->
  named_at name (marker_text n d ++ rest) -> n = name.
Proof.
  intros [_ Hname] [_ Hn] (d' & rest' & _ & H).
  unfold marker_text in H. rewrite <- !app_assoc in H.
  cbn [txt list_ascii_of_string app] in H. injection H as H.
  change ("}"%char :: "}"%char :: rest) with (txt "}}" ++ rest) in H.
  change ("}"%char :: "}"%char :: rest') with (txt "}}" ++ rest') in H.
  exact (word_prefix_unique n name _ _ Hn Hname
           (tail_head d rest) (tail_head d' rest') H).
Qed.

Lemma pass_other_marker (name v n rest : str) (d : option str) :
  wf_name name -> wf_seg (Mark n d) -> n <> name ->
  pass name v (marker_text n d ++ rest)
  = marker_text n d ++ pass name v rest.
Proof.
  intros Hname (Hn & Hd & Ho) Hne.
  assert (Hbody : no_open (n ++ clause d ++ txt "}}")).
  { apply no_open_app; [apply word_no_open, Hn|].
    apply no_open_app; [now apply no_open_clause|].
    intros H. simpl in H. intuition discriminate. }
  assert (Hfirst : ~ named_at name (marker_text n d ++ rest)).
  { intros H. apply Hne. now apply (named_at_marker name n rest d). }
  destruct Hn as [Hne' Hw]. destruct n as [|c n]; [congruence|].
  assert (Hc : c <> "{"%char).
  { inversion Hw; subst. now apply is_word_not_open. }
  change (marker_text (c :: n) d ++ rest)
    with ("{"%char :: "{"%char :: c :: (n ++ clause d ++ txt "}}") ++ rest)
    in *.
  change (marker_text (c :: n) d)
    with ("{"%char :: "{"%char :: c :: (n ++ clause d ++ txt "}}")).
  rewrite pass_skip by exact Hfirst.
  rewrite pass_skip by (intros H; now apply named_at_second in H).
  change (c :: (n ++ clause d ++ txt "}}") ++ rest)
    with (((c :: n) ++ clause d ++ txt "}}") ++ rest).
  rewrite pass_no_open by exact Hbody. reflexivity.
Qed.

Lemma print_cons (x : seg) (segs : list seg) :
  print (x :: segs) = print_seg x ++ print segs.
Proof. reflexivity. Qed.

(** One pass over a well-formed template, segment by segment. *)
Lemma pass_print (name v : str) (segs : list seg) :
  wf_name name -> Forall wf_seg segs ->
  pass name v (print segs) = print (map (subst1 name v) segs).
Proof.
  intros Hname H. induction H as [|x segs Hx _ IH]; [apply pass_nil|].
  cbn [map]. rewrite !print_cons. destruct x as [s|n d]; cbn [subst1 print_seg].
  - rewrite pass_no_open by exact Hx. now rewrite IH.
  - destruct (str_eqb_spec n name) as [->|Hne]; cbn [print_seg].
    + rewrite pass_hit by apply Hx. now rewrite IH.
    + rewrite pass_other_marker by assumption. now rewrite IH.
Qed.

Lemma subst1_wf (name v : str) (x : seg) :
  no_open v -> wf_seg x -> wf_seg (subst1 name v x).
Proof.
  intros Hv Hx. destruct x as [s|n d]; [exact Hx|]. cbn [subst1].
  destruct (str_eqb n name); [exact Hv | exact Hx].
Qed.

Lemma subst_seg_lit (values : dict str) (s : str) :
  subst_seg values (Lit s) = Lit s.
Proof. induction values as [|kv values IH]; [reflexivity | exact IH]. Qed.

Lemma print_subst_seg (values : dict str) (x : seg) :
  print_seg (subst_seg values x) = fill values x.
Proof.
  destruct x as [s|n d]; [now rewrite subst_seg_lit|].
  induction values as [|[k v] values IH]; [reflexivity|].
  cbn [subst_seg fold_left fst snd subst1 fill dict_get].
  destruct (str_eqb n k); [|exact IH].
  change (print_seg (subst_seg values (Lit v)) = v). now rewrite subst_seg_lit.
Qed.

Lemma subst_seg_wf (values : dict str) (x : seg) :
  Forall plain_entry values -> wf_seg x -> wf_seg (subst_seg values x).
Proof.
  intros H. revert x. induction H as [|[k v] values (_ & Hv & _) _ IH];
    intros x Hx; [exact Hx|].
  apply IH. now apply subst1_wf.
Qed.

Lemma subst1_not_mark (name k v : str) (x : seg) :
  not_mark name x -> not_mark name (subst1 k v x).
Proof.
  destruct x as [s|n d]; [trivial|]. cbn [subst1].
  now destruct (str_eqb n k).
Qed.

Lemma subst_seg_keeps_not_mark (name : str) (values : dict str) (x : seg) :
  not_mark name x -> not_mark name (subst_seg values x).
Proof.
  revert x. induction values as [|[k v] values IH]; intros x Hx; [exact Hx|].
  apply IH. now apply subst1_not_mark.
Qed.

Lemma subst_seg_not_mark (name : str) (values : dict str) (x : seg) :
  In name (dict_keys values) -> not_mark name (subst_seg values x).
Proof.
  revert x. induction values as [|[k v] values IH]; intros x Hin; [destruct Hin|].
  cbn [dict_keys map fst] in Hin. destruct Hin as [Hk|Hin]; [subst k|now apply IH].
  change (not_mark name (subst_seg values (subst1 name v x))).
  apply subst_seg_keeps_not_mark. destruct x as [s|n d]; [exact I|].
  cbn [subst1]. destruct (str_eqb_spec n name); [exact I | assumption].
Qed.

(** The passes of a value map over a well-formed template. *)
Lemma passes_print (values : dict str) (segs : list seg) :
  Forall plain_entry values -> Forall wf_seg segs ->
  passes (print segs) values = print (map (subst_seg values) segs).
Proof.
  intros H. revert segs. unfold passes.
  induction H as [|[k v] values (Hk & Hv & _) _ IH]; intros segs Hsegs.
  - cbn [fold_left]. now rewrite map_id.
  - cbn [fold_left fst snd] in *. rewrite pass_print by assumption.
    rewrite IH.
    + now rewrite map_map.
    + rewrite Forall_forall in *. intros x Hx.
      apply in_map_iff in Hx as (x0 & <- & Hx0). apply subst1_wf; auto.
Qed.

Lemma print_map_fill (values : dict str) (segs : list seg) :
  print (map (subst_seg values) segs) = flat_map (fill values) segs.
Proof.
  unfold print. induction segs as [|x segs IH]; [reflexivity|].
  cbn [map flat_map]. now rewrite IH, print_subst_seg.
Qed.

Lemma Replaced_shorter (name t t' : str) :
  Replaced name [] t t' ->
  length t' <= length t
  /\ (forall pre post, t = pre ++ post -> named_at name post ->
      length t' < length t).
Proof.
  induction 1 as [|c s s' Hno _ [IHle IHlt]|d rest rest' Hd _ [IHle IHlt]].
  - split; [reflexivity|]. intros pre post Hp (d & rest & _ & ->).
    symmetry in Hp. apply app_eq_nil in Hp as [_ Hp].
    apply app_eq_nil in Hp as [Hp _].
    now destruct (marker_text_not_nil name d).
  - split; [simpl; lia|]. intros [|x pre] post Hp Hpost; cbn [app] in Hp.
    + subst post. contradiction.
    + injection Hp as _ Hp. specialize (IHlt _ _ Hp Hpost). simpl. lia.
  - assert (Hlt : length ([] ++ rest') < length (marker_text name d ++ rest)).
    { cbn [app]. rewrite length_app.
      pose proof (marker_text_not_nil name d).
      destruct (marker_text name d); [congruence | simpl; lia]. }
    split; [lia | intros; exact Hlt].
Qed.

Lemma subst1_id (name v : str) (x : seg) :
  not_mark name x -> subst1 name v x = x.
Proof.
  destruct x as [s|n d]; [reflexivity|]. cbn [not_mark subst1]. intros H.
  now rewrite str_eqb_neq.
Qed.

(** A well-formed template without a marker segment of [name] holds
    no marker of [name] at all. *)
Lemma no_marker_print (name : str) (segs : list seg) :
  wf_name name -> Forall wf_seg segs -> Forall (not_mark name) segs ->
  ~ contains_marker name (print segs).
Proof.
  intros Hname Hwf Hnot (pre & d & post & Hd & Ht).
  pose proof (pass_replaced name [] (print segs)) as Hr.
  rewrite pass_print in Hr by assumption.
  assert (Hid : map (subst1 name []) segs = segs).
  { rewrite <- (map_id segs) at 2. apply map_ext_in. intros x Hx.
    rewrite Forall_forall in Hnot. now apply subst1_id, Hnot. }
  rewrite Hid in Hr. apply Replaced_shorter in Hr as [_ Hlt].
  specialize (Hlt pre (marker_text name d ++ post) Ht).
  assert (named_at name (marker_text name d ++ post)) by now exists d, post.
  specialize (Hlt H). lia.
Qed.

Lemma search_contains_marker (name t : str) :
  search false (render_pattern name) t = true <-> contains_marker name t.
Proof.
  rewrite search_true_iff. unfold contains_marker. split.
  - intros (pre & post & -> & Hm). rewrite match_at_render_pattern in Hm.
    destruct (parse_named name post) as [rest|] eqn:E; [|congruence].
    apply parse_named_some_iff in E as (d & Hd & ->). now exists pre, d, rest.
  - intros (pre & d & post & Hd & ->).
    exists pre, (marker_text name d ++ post). split; [reflexivity|].
    rewrite match_at_render_pattern.
    assert (E : parse_named name (marker_text name d ++ post) = Some post).
    { apply parse_named_some_iff. now exists d. }
    rewrite E. discriminate.
Qed.

(** C7, as the program has it. On a template made of markers and of
    literal text, where neither the text nor a default holds an
    opening brace, and with a value map whose names are words and
    whose values hold neither an opening brace nor a backslash,
    rendering succeeds, puts the value in place of every marker of a
    name of the map and leaves the rest as it is; the result holds no
    marker of any name of the map. *)
Theorem C7_no_marker_left_on_well_formed_input (segs : list seg)
    (values : dict str) :
  Forall wf_seg segs ->
  Forall plain_entry values ->
  render_template (print segs) values = Ok (flat_map (fill values) segs)
  /\ forall name,
       In name (dict_keys values) ->
       ~ contains_marker name (flat_map (fill values) segs)
       /\ search false (render_pattern name) (flat_map (fill values) segs)
          = false.
Proof.
  intros Hsegs Hvalues.
  assert (Hplain : Forall (fun kv => no_backslash (snd kv)) values).
  { eapply Forall_impl; [|exact Hvalues]. now intros kv (_ & _ & H). }
  rewrite render_template_plain by assumption.
  rewrite passes_print, print_map_fill by assumption.
  split; [reflexivity|]. intros name Hin.
  assert (Hno : ~ contains_marker name (flat_map (fill values) segs)).
  { rewrite <- print_map_fill. apply no_marker_print.
    - rewrite Forall_forall in Hvalues. unfold dict_keys in Hin.
      apply in_map_iff in Hin as (kv & <- & Hkv). apply (Hvalues kv Hkv).
    - rewrite Forall_forall in *. intros x Hx.
      apply in_map_iff in Hx as (x0 & <- & Hx0).
      apply subst_seg_wf; [now apply Forall_forall | auto].
    - rewrite Forall_forall. intros x Hx.
      apply in_map_iff in Hx as (x0 & <- & Hx0).
      now apply subst_seg_not_mark. }
  split; [exact Hno|].
  destruct (search false (render_pattern name) _) eqn:E; [|reflexivity].
  exfalso. now apply Hno, search_contains_marker.
Qed.

(** Well-formedness of a concrete template or value map. *)
Ltac concrete_wf :=
  cbv [wf_seg wf_name wf_default no_open no_backslash plain_entry
       txt list_ascii_of_string fst snd];
  repeat match goal with
         | |- Forall _ _ => constructor
         | |- _ /\ _ => split
         | |- is_word _ = true => reflexivity
         | |- True => exact I
         | |- _ <> _ => discriminate
         | |- ~ In _ _ => simpl; intuition discriminate
         end.

Lemma C7_witness :
  render_template (print greeting)
    [(txt "name", txt "Ada"); (txt "state", txt "on its way }}")]
  = Ok (txt "Dear Ada, your order} is on its way }}{{sign}}")
  /\ forall name,
       In name [txt "name"; txt "state"] ->
       ~ contains_marker name
           (txt "Dear Ada, your order} is on its way }}{{sign}}")
       /\ search false (render_pattern name)
            (txt "Dear Ada, your order} is on its way }}{{sign}}")
          = false.
Proof.
  apply (C7_no_marker_left_on_well_formed_input greeting
           [(txt "name", txt "Ada"); (txt "state", txt "on its way }}")]).
  - unfold greeting. concrete_wf.
  - concrete_wf.
Defined.

(** A value that is itself a marker stays in the result as a marker;
    and in a template where a marker sits in what looks like the
    default of another, replacing the inner one completes the outer
    one. In both cases the value map covers every variable of the
    template. *)
Lemma C7_counterexample :
  (dict_keys (extract_variables (txt "{{x}}")) = [txt "x"]
   /\ render_template (txt "{{x}}") [(txt "x", txt "{{x}}")]
      = Ok (txt "{{x}}")
   /\ search false (render_pattern (txt "x")) (txt "{{x}}") = true)
  /\ (dict_keys (extract_variables nested_template) = [txt "x"]
      /\ render_template nested_template [(txt "x", txt "v")]
         = Ok (marker_text (txt "x") (Some (txt "v")))
      /\ search false (render_pattern (txt "x"))
           (marker_text (txt "x") (Some (txt "v"))) = true).
Proof. repeat split; vm_compute; reflexivity. Qed.

(** ** The rounding model against the IEEE 754 specification

    [SpecFloat] is the Standard Library's specification of binary
    floating-point arithmetic. [int(n * 1.3)] computed with it agrees
    with [int_times_1_3] on the sampled counts, small and large. *)

Lemma int_times_1_3_on_samples :
  forallb (fun n => (ieee_int_times_1_3 n =? int_times_1_3 n)%Z) samples
  = true.
Proof. vm_compute. reflexivity. Qed.

(** * Further properties *)

(** ** Value resolution: errors and the console *)

Lemma parse_cli_first_bad (l : list str) :
  ~ Forall (fun v => In "="%char v) l ->
  exists pre v post,
    l = pre ++ v :: post
    /\ Forall (fun v => In "="%char v) pre
    /\ ~ In "="%char v
    /\ parse_cli l = Err (InvalidVar v).
Proof.
  induction l as [|v l IH]; intros H.
  - exfalso. apply H. constructor.
  - destruct (in_dec ascii_dec "="%char v) as [Hv|Hv].
    + destruct IH as (pre & v' & post & -> & Hpre & Hv' & Hp).
      { intros Hl. apply H. now constructor. }
      exists (v :: pre), v', post. repeat split; try assumption.
      * now constructor.
      * cbn [parse_cli]. destruct (split_eq v) as [p|] eqn:E.
        -- now rewrite Hp.
        -- apply split_eq_none in E. contradiction.
    + exists [], v, l. repeat split; try assumption; [constructor|].
      cbn [parse_cli]. apply split_eq_none in Hv. now rewrite Hv.
Qed.

(** X1. A [--var] argument without [=] stops everything: the error names
    the first such argument, whatever the template, the values file
    and the interactive mode are, and nothing is read or written. *)
Theorem collect_values_invalid_var (variables : dict (option str))
    (a : args) (w : world) :
  ~ well_formed_cli a ->
  exists pre v post,
    var a = pre ++ v :: post
    /\ Forall (fun v => In "="%char v) pre
    /\ ~ In "="%char v
    /\ collect_values variables a w = (Err (InvalidVar v), w).
Proof.
  intros H. destruct (parse_cli_first_bad (var a) H)
    as (pre & v & post & Hl & Hpre & Hv & Hp).
  exists pre, v, post. repeat split; try assumption.
  unfold collect_values. unfold bind at 1. now rewrite from_cli_spec, Hp.
Qed.

Lemma collect_values_invalid_var_witness :
  exists pre v post,
    [txt "a=1"; txt "oops"; txt "b"] = pre ++ v :: post
    /\ Forall (fun v => In "="%char v) pre
    /\ ~ In "="%char v
    /\ collect_values [(txt "x", None)]
         (Args None [txt "a=1"; txt "oops"; txt "b"] true)
         (World [txt "line"] [] [])
       = (Err (InvalidVar v), World [txt "line"] [] []).
Proof.
  apply (collect_values_invalid_var [(txt "x", None)]
           (Args None [txt "a=1"; txt "oops"; txt "b"] true)
           (World [txt "line"] [] [])).
  intros H. inversion H as [|? ? _ H']; subst.
  inversion H' as [|? ? Hbad _]; subst.
  simpl in Hbad. intuition discriminate.
Defined.



(** X3. Without the interactive mode nothing is read from the input and
    nothing is written to the output, whatever the outcome. *)
Theorem collect_values_batch_is_silent (variables : dict (option str))
    (a : args) (w w' : world) (r : result (dict str)) :
  interactive a = false ->
  collect_values variables a w = (r, w') ->
  stdin w' = stdin w /\ stdout w' = stdout w.
Proof.
  intros Hi. unfold collect_values. unfold bind at 1.
  rewrite from_cli_spec. destruct (parse_cli (var a)) as [ps|e].
  - cbv zeta. rewrite Hi. unfold bind at 1. unfold ret at 1.
    destruct (filter _ (dict_keys variables)).
    + unfold bind, warn, ret.
      destruct (filter _ (dict_keys _)); intros H; injection H as _ <-;
        split; reflexivity.
    + unfold raise. intros H. injection H as _ <-. split; reflexivity.
  - intros H. injection H as _ <-. split; reflexivity.
Qed.

Lemma collect_values_batch_is_silent_witness :
  stdin (World [txt "unread"] [txt "earlier"] [])
  = stdin (World [txt "unread"] [txt "earlier"] [])
  /\ stdout (World [txt "unread"] [txt "earlier"] [])
     = stdout (World [txt "unread"] [txt "earlier"] []).
Proof.
  exact (collect_values_batch_is_silent [(txt "x", None)]
           (Args None [] false) (World [txt "unread"] [txt "earlier"] [])
           (World [txt "unread"] [txt "earlier"] [])
           (Err (Missing [txt "x"])) eq_refl eq_refl).
Defined.

(** X4. A [--var] argument is cut at its first [=]: the key holds no [=],
    the value is everything after it, further [=] included. *)
Theorem split_eq_first_equals_sign (s k v : str) :
  split_eq s = Some (k, v) <-> s = k ++ "="%char :: v /\ ~ In "="%char k.
Proof.
  split; [apply split_eq_some|]. intros [-> Hk]. unfold split_eq.
  destruct (take_while_app_stop not_eq_sign k ("="%char :: v)) as [Ht Hd].
  - now apply all_not_eq_sign.
  - reflexivity.
  - now rewrite Hd, Ht.
Qed.

Lemma split_eq_first_equals_sign_witness :
  split_eq (txt "url=http://h/?a=b") = Some (txt "url", txt "http://h/?a=b").
Proof.
  apply (proj2 (split_eq_first_equals_sign (txt "url=http://h/?a=b")
                  (txt "url") (txt "http://h/?a=b"))).
  split; [reflexivity | simpl; intuition discriminate].
Defined.

Lemma filter_nil_all {X} (f : X -> bool) (l : list X) :
  filter f l = [] -> forall x, In x l -> f x = false.
Proof.
  induction l as [|y l IH]; intros H x Hx; [destruct Hx|]. simpl in H.
  destruct (f y) eqn:E; [discriminate|].
  destruct Hx as [<-|Hx]; [assumption | now apply IH].
Qed.

Lemma collect_values_covers (variables : dict (option str)) (a : args)
    (w w' : world) (values : dict str) :
  collect_values variables a w = (Ok values, w') ->
  forall k, In k (dict_keys variables) -> dict_mem k values = true.
Proof.
  unfold collect_values. unfold bind at 1.
  destruct (from_cli a (from_file a) w) as [[v0|e] w0]; [|discriminate].
  unfold bind at 1.
  destruct ((if interactive a
             then from_prompts variables (from_defaults variables v0)
             else ret (from_defaults variables v0)) w0) as [[v1|e] w1];
    [|discriminate].
  destruct (filter (fun v => negb (dict_mem v v1)) (dict_keys variables))
    eqn:Emissing; [|discriminate].
  unfold bind, warn, ret.
  assert (Hv : values = v1 -> forall k, In k (dict_keys variables) ->
               dict_mem k values = true).
  { intros -> k Hk. apply negb_false_iff.
    now apply (filter_nil_all _ _ Emissing). }
  destruct (filter _ (dict_keys v1)); intros H; injection H as <- _;
    now apply Hv.
Qed.

(** X5. A successful resolution gives a value to every variable of the
    template. *)
Theorem collect_values_ok_covers (variables : dict (option str)) (a : args)
    (w w' : world) (values : dict str) :
  collect_values variables a w = (Ok values, w') ->
  forall k, In k (dict_keys variables) -> dict_mem k values = true.
Proof. apply collect_values_covers. Qed.

Lemma collect_values_ok_covers_witness :
  dict_mem (txt "y") [(txt "x", txt "1"); (txt "y", txt "Y")] = true.
Proof.
  apply (collect_values_ok_covers [(txt "x", None); (txt "y", Some (txt "Y"))]
           (Args None [txt "x=1"] false) (World [] [] []) (World [] [] [])
           [(txt "x", txt "1"); (txt "y", txt "Y")] eq_refl (txt "y")).
  simpl. auto.
Defined.







(** ** Rendering: what is left alone, what fails, what order does *)

Lemma contains_marker_cons (name : str) (c : ascii) (s : str) :
  contains_marker name s -> contains_marker name (c :: s).
Proof.
  intros (pre & d & post & Hd & ->). now exists (c :: pre), d, post.
Qed.

Lemma Replaced_absent (name v t t' : str) :
  Replaced name v t t' -> ~ contains_marker name t -> t' = t.
Proof.
  induction 1 as [|c s s' Hno _ IH|d rest rest' Hd _ IH]; intros Habs.
  - reflexivity.
  - f_equal. apply IH. intros H. now apply Habs, contains_marker_cons.
  - exfalso. apply Habs. now exists [], d, rest.
Qed.

Lemma pass_absent (name v t : str) :
  ~ contains_marker name t -> pass name v t = t.
Proof. apply Replaced_absent with (v := v). apply pass_replaced. Qed.

Lemma passes_absent (values : dict str) (t : str) :
  (forall name, In name (dict_keys values) -> ~ contains_marker name t) ->
  passes t values = t.
Proof.
  unfold passes. induction values as [|[k v] values IH]; intros Habs;
    [reflexivity|].
  cbn [fold_left fst snd]. rewrite pass_absent by (apply Habs; now left).
  apply IH. intros name Hin. apply Habs. now right.
Qed.

(** X7. Values of variables that have no marker in the template leave it
    as it is. *)
Theorem render_template_without_markers (template : str) (values : dict str) :
  Forall (fun kv => no_backslash (snd kv)) values ->
  (forall name, In name (dict_keys values) -> ~ contains_marker name template) ->
  render_template template values = Ok template.
Proof.
  intros Hplain Habs. rewrite render_template_plain by assumption.
  f_equal. now apply passes_absent.
Qed.

Lemma render_template_without_markers_witness :
  render_template (txt "Dear {{name}}, {{ x }} {y}")
    [(txt "x", txt "1"); (txt "y", txt "2")]
  = Ok (txt "Dear {{name}}, {{ x }} {y}").
Proof.
  apply render_template_without_markers.
  - repeat constructor; unfold no_backslash; simpl; intuition discriminate.
  - intros name Hin Hc. apply search_contains_marker in Hc.
    destruct Hin as [<-|[<-|[]]]; vm_compute in Hc; discriminate.
Defined.

Lemma parse_template_from_plain (fuel ngroups : nat) (x : ascii) (s : str) :
  x <> "\"%char ->
  parse_template_from (S fuel) ngroups (x :: s)
  = option_map (fun l => [TChr x] ++ l) (parse_template_from fuel ngroups s).
Proof.
  intros Hx.
  destruct x as [[] [] [] [] [] [] [] []]; try reflexivity; congruence.
Qed.

Lemma escape_of_other (c : ascii) :
  is_asciiletter c = true ->
  ~ In c (txt "abfnrtvg") ->
  escape_of c = None /\ Ascii.eqb c "g" = false.
Proof.
  intros Hl H. unfold escape_of.
  repeat match goal with
         | |- context [Ascii.eqb c ?x] =>
             destruct (Ascii.eqb_spec c x) as [->|_];
             [first [discriminate Hl | exfalso; apply H; simpl; tauto]|]
         end.
  split; reflexivity.
Qed.

Lemma parse_template_from_bad_escape (pre rest : str) (c : ascii) :
  no_backslash pre ->
  is_asciiletter c = true ->
  ~ In c (txt "abfnrtvg") ->
  forall fuel,
    length pre < fuel ->
    parse_template_from fuel 0 (pre ++ "\"%char :: c :: rest) = None.
Proof.
  intros Hpre Hl Hc. destruct (escape_of_other c Hl Hc) as [Hesc Hg].
  assert (H0 : Ascii.eqb c "0" = false).
  { destruct (Ascii.eqb_spec c "0"%char) as [->|_]; [discriminate Hl | reflexivity]. }
  assert (Hd : is_digit c = false).
  { unfold is_asciiletter, is_upper, is_lower, is_digit, between in *.
    destruct (Nat.leb_spec 48 (code c)), (Nat.leb_spec (code c) 57);
      try reflexivity.
    destruct (Nat.leb_spec 65 (code c)), (Nat.leb_spec 97 (code c));
      try lia; simpl in Hl; try discriminate;
      destruct (Nat.leb_spec (code c) 90), (Nat.leb_spec (code c) 122);
      simpl in Hl; try discriminate; lia. }
  induction pre as [|x pre IH]; intros fuel Hfuel.
  - destruct fuel as [|fuel]; [simpl in Hfuel; lia|].
    cbn [app parse_template_from]. now rewrite Hg, H0, Hd, Hesc, Hl.
  - destruct fuel as [|fuel]; [simpl in Hfuel; lia|]. cbn [app].
    rewrite parse_template_from_plain.
    + rewrite IH; [reflexivity | | simpl in Hfuel; lia].
      intros H. apply Hpre. now right.
    + intros ->. apply Hpre. now left.
Qed.

Lemma parse_template_bad_escape (pre rest : str) (c : ascii) :
  no_backslash pre ->
  is_asciiletter c = true ->
  ~ In c (txt "abfnrtvg") ->
  parse_template 0 (pre ++ "\"%char :: c :: rest) = None.
Proof.
  intros Hpre Hl Hc. unfold parse_template.
  replace (existsb (Ascii.eqb "\") (pre ++ "\"%char :: c :: rest)) with true.
  - apply parse_template_from_bad_escape; try assumption.
    rewrite length_app. simpl. lia.
  - symmetry. apply existsb_exists. exists "\"%char. split; [|reflexivity].
    apply in_or_app. right. now left.
Qed.

Lemma render_steps_after_error (values : dict str) :
  fold_left render_step values (Err BadReplacement) = Err BadReplacement.
Proof. induction values as [|kv values IH]; [reflexivity | exact IH]. Qed.

Lemma render_steps_bad_value (values : dict str) (acc : result str) :
  Exists (fun kv => parse_template 0 (snd kv) = None) values ->
  acc = Err BadReplacement \/ (exists t, acc = Ok t) ->
  fold_left render_step values acc = Err BadReplacement.
Proof.
  intros H. revert acc. induction H as [kv values Hkv|kv values _ IH];
    intros acc [->|[t ->]]; cbn [fold_left render_step].
  - apply render_steps_after_error.
  - unfold sub. rewrite Hkv. apply render_steps_after_error.
  - apply render_steps_after_error.
  - apply IH. destruct (sub _ _ _ _); [right; eauto | now left].
Qed.

(** X8. A value in which a backslash stands before an ASCII letter that
    is no escape, with no backslash before it (a path such as
    [C:\Users], say), makes rendering fail, whatever the template is
    and whether or not it has a marker of that variable. *)
Theorem render_template_refuses_bad_escape (template name pre rest : str)
    (c : ascii) (values : dict str) :
  In (name, pre ++ "\"%char :: c :: rest) values ->
  no_backslash pre ->
  is_asciiletter c = true ->
  ~ In c (txt "abfnrtvg") ->
  render_template template values = Err BadReplacement.
Proof.
  intros Hin Hpre Hl Hc.
  change (fold_left render_step values (Ok template) = Err BadReplacement).
  apply render_steps_bad_value; [|right; eauto].
  apply Exists_exists. exists (name, pre ++ "\"%char :: c :: rest).
  split; [assumption|]. now apply parse_template_bad_escape.
Qed.

Lemma render_template_refuses_bad_escape_witness :
  render_template (txt "Hello {{name}}")
    [(txt "name", txt "Ada"); (txt "home", txt "C:\Users\ada")]
  = Err BadReplacement.
Proof.
  apply (render_template_refuses_bad_escape (txt "Hello {{name}}")
           (txt "home") (txt "C:") (txt "sers\ada") "U"%char).
  - simpl. auto.
  - unfold no_backslash. simpl. intuition discriminate.
  - reflexivity.
  - simpl. intuition discriminate.
Defined.

(** Rendering a well-formed template, segment by segment. *)
Lemma render_template_fill (segs : list seg) (values : dict str) :
  Forall wf_seg segs ->
  Forall plain_entry values ->
  render_template (print segs) values = Ok (flat_map (fill values) segs).
Proof.
  intros Hsegs Hvalues.
  rewrite render_template_plain.
  - now rewrite passes_print, print_map_fill.
  - eapply Forall_impl; [|exact Hvalues]. now intros kv (_ & _ & H).
Qed.

Lemma dict_get_some_in {V} (k : str) (v : V) (d : dict V) :
  dict_get k d = Some v -> In (k, v) d.
Proof.
  induction d as [|[k0 v0] d IH]; [discriminate|]. cbn [dict_get].
  destruct (str_eqb_spec k k0) as [->|_].
  - intros H. injection H as ->. now left.
  - intros H. right. now apply IH.
Qed.

Lemma dict_get_permutation {V} (d d' : dict V) (k : str) :
  NoDup (dict_keys d) -> Permutation d d' -> dict_get k d = dict_get k d'.
Proof.
  intros Hnd Hp.
  assert (Hnd' : NoDup (dict_keys d')).
  { eapply Permutation_NoDup; [|exact Hnd]. now apply Permutation_map. }
  destruct (dict_get k d) as [v|] eqn:E.
  - symmetry. apply dict_get_in_nodup; [assumption|].
    eapply Permutation_in; [exact Hp|]. now apply dict_get_some_in.
  - destruct (dict_get k d') as [v'|] eqn:E'; [|reflexivity].
    apply dict_get_some_in in E'.
    apply (Permutation_in _ (Permutation_sym Hp)) in E'.
    apply dict_get_in_nodup in E'; [congruence | assumption].
Qed.

(** X9. On a well-formed template with plain values the order of the
    entries of the value map does not show in the result. *)
Theorem render_template_order_irrelevant (segs : list seg)
    (values values' : dict str) :
  Forall wf_seg segs ->
  Forall plain_entry values ->
  NoDup (dict_keys values) ->
  Permutation values values' ->
  render_template (print segs) values = render_template (print segs) values'.
Proof.
  intros Hsegs Hvalues Hnd Hp.
  rewrite !render_template_fill; try assumption.
  - f_equal. apply flat_map_ext. intros [s|n d]; [reflexivity|].
    cbn [fill]. now rewrite (dict_get_permutation values values' n Hnd Hp).
  - rewrite Forall_forall in *. intros kv Hkv. apply Hvalues.
    eapply Permutation_in; [apply Permutation_sym; exact Hp | exact Hkv].
Qed.

Lemma render_template_order_irrelevant_witness :
  render_template (print greeting)
    [(txt "name", txt "Ada"); (txt "state", txt "late")]
  = render_template (print greeting)
      [(txt "state", txt "late"); (txt "name", txt "Ada")].
Proof.
  apply render_template_order_irrelevant.
  - unfold greeting. concrete_wf.
  - concrete_wf.
  - repeat constructor; simpl; intuition discriminate.
  - apply perm_swap.
Defined.

(** X10. Rendering the result once more with the same values changes
    nothing. *)
Theorem render_template_twice (segs : list seg) (values : dict str) :
  Forall wf_seg segs ->
  Forall plain_entry values ->
  exists rendered,
    render_template (print segs) values = Ok rendered
    /\ render_template rendered values = Ok rendered.
Proof.
  intros Hsegs Hvalues. exists (flat_map (fill values) segs).
  split; [now apply render_template_fill|].
  rewrite render_template_plain
    by (eapply Forall_impl; [|exact Hvalues]; now intros kv (_ & _ & H)).
  f_equal. apply passes_absent.
  intros name Hin. rewrite <- print_map_fill. apply no_marker_print.
  - rewrite Forall_forall in Hvalues. unfold dict_keys in Hin.
    apply in_map_iff in Hin as (kv & <- & Hkv). apply (Hvalues kv Hkv).
  - rewrite Forall_forall in *. intros x Hx.
    apply in_map_iff in Hx as (x0 & <- & Hx0).
    apply subst_seg_wf; [now apply Forall_forall | auto].
  - rewrite Forall_forall. intros x Hx.
    apply in_map_iff in Hx as (x0 & <- & Hx0).
    now apply subst_seg_not_mark.
Qed.

Lemma render_template_twice_witness :
  exists rendered,
    render_template (print greeting) [(txt "sign", txt "-- A.")] = Ok rendered
    /\ render_template rendered [(txt "sign", txt "-- A.")] = Ok rendered.
Proof.
  apply render_template_twice.
  - unfold greeting. concrete_wf.
  - concrete_wf.
Defined.

(** ** Responses: literal replacement *)












(** ** Extraction on well-formed templates *)

Lemma marker_at_head (c : ascii) (s : str) :
  marker_at (c :: s) -> c = "{"%char.
Proof. intros (name & d & rest & _ & _ & H). now injection H. Qed.

Lemma markers_no_open (t rest : str) :
  no_open t -> markers (t ++ rest) = markers rest.
Proof.
  unfold no_open. induction t as [|c t IH]; intros Ht; [reflexivity|].
  cbn [app]. rewrite markers_skip.
  - apply IH. intros H. apply Ht. now right.
  - intros H. apply marker_at_head in H. apply Ht. now left.
Qed.

Lemma markers_print (segs : list seg) :
  Forall wf_seg segs -> markers (print segs) = marks segs.
Proof.
  induction 1 as [|x segs Hx _ IH]; [reflexivity|].
  rewrite print_cons. destruct x as [s|name d]; cbn [print_seg marks flat_map].
  - rewrite markers_no_open by exact Hx. exact IH.
  - destruct Hx as (Hname & Hd & _). rewrite markers_hit by assumption.
    cbn [app]. f_equal. exact IH.
Qed.

(** X13. Printing a sequence of segments and extracting from the text
    gives back its markers in order, and hence the dictionary built
    from them; text without an opening brace has no variable. *)
Theorem extract_variables_of_print (segs : list seg) :
  Forall wf_seg segs ->
  markers (print segs) = marks segs
  /\ extract_variables (print segs) = dict_update [] (map record (marks segs)).
Proof.
  intros H. split; [now apply markers_print|].
  now rewrite extract_variables_markers, markers_print.
Qed.

Lemma extract_variables_of_print_witness :
  markers (print greeting)
  = [(txt "name", Some (txt "friend")); (txt "state", None); (txt "sign", None)]
  /\ extract_variables (print greeting)
     = [(txt "name", Some (txt "friend")); (txt "state", None);
        (txt "sign", None)].
Proof.
  apply (extract_variables_of_print greeting). unfold greeting. concrete_wf.
Defined.

Lemma no_open_flat_map {X} (f : X -> str) (l : list X) :
  (forall x, In x l -> no_open (f x)) -> no_open (flat_map f l).
Proof.
  induction l as [|x l IH]; intros H; [intros []|].
  cbn [flat_map]. apply no_open_app; [apply H; now left|].
  apply IH. intros y Hy. apply H. now right.
Qed.

Lemma marks_in (segs : list seg) (name : str) (d : option str) :
  In (Mark name d) segs -> In name (map fst (marks segs)).
Proof.
  induction segs as [|x segs IH]; [intros []|]. intros [->|H].
  - now left.
  - cbn [marks flat_map]. rewrite map_app. apply in_or_app. right. now apply IH.
Qed.

(** X14. From the template to the prompt: when resolution succeeds on the
    variables extracted from a well-formed template and the values
    are plain, rendering succeeds and the prompt holds no opening
    brace at all, so no marker is left and nothing could be extracted
    from it. *)
Theorem rendered_prompt_has_no_marker (segs : list seg) (a : args)
    (w w' : world) (values : dict str) :
  Forall wf_seg segs ->
  collect_values (extract_variables (print segs)) a w = (Ok values, w') ->
  Forall plain_entry values ->
  exists rendered,
    render_template (print segs) values = Ok rendered
    /\ no_open rendered
    /\ extract_variables rendered = [].
Proof.
  intros Hsegs Hrun Hvalues. exists (flat_map (fill values) segs).
  split; [now apply render_template_fill|].
  assert (Hno : no_open (flat_map (fill values) segs)).
  { apply no_open_flat_map. intros [s|name d] Hx; cbn [fill].
    - rewrite Forall_forall in Hsegs. exact (Hsegs _ Hx).
    - assert (Hmem : dict_mem name values = true).
      { apply (collect_values_covers _ _ _ _ _ Hrun).
        rewrite extract_variables_markers. apply dict_update_keys.
        rewrite map_fst_record, markers_print by assumption.
        now apply marks_in with (d := d). }
      unfold dict_mem in Hmem.
      destruct (dict_get name values) as [v|] eqn:E; [|discriminate].
      apply dict_get_some_in in E. rewrite Forall_forall in Hvalues.
      apply (Hvalues _ E). }
  split; [exact Hno|].
  rewrite extract_variables_markers.
  rewrite <- (app_nil_r (flat_map (fill values) segs)).
  now rewrite markers_no_open.
Qed.

Lemma rendered_prompt_has_no_marker_witness :
  exists rendered,
    render_template (print greeting)
      [(txt "state", txt "late"); (txt "sign", txt "A."); (txt "name", txt "friend")]
    = Ok rendered
    /\ no_open rendered
    /\ extract_variables rendered = [].
Proof.
  apply (rendered_prompt_has_no_marker greeting
           (Args None [txt "state=late"; txt "sign=A."] false)
           (World [] [] []) (World [] [] [])).
  - unfold greeting. concrete_wf.
  - reflexivity.
  - concrete_wf.
Defined.

(** ** The estimate of a text without words *)

Lemma split_from_some (s w : str) : split_from s (Some w) <> [].
Proof.
  revert w. induction s as [|c s IH]; intros w; [discriminate|].
  cbn [split_from]. destruct (is_space c); [discriminate | apply IH].
Qed.

Lemma split_nil_iff (s : str) :
  split s = [] <-> Forall (fun c => is_space c = true) s.
Proof.
  unfold split. induction s as [|c s IH]; cbn [split_from].
  - split; [constructor | reflexivity].
  - destruct (is_space c) eqn:E.
    + rewrite IH. split; [now constructor | intros H; now inversion H].
    + split.
      * intros H. now apply split_from_some in H.
      * intros H. inversion H; congruence.
Qed.

Lemma estimate_tokens_zero (text : str) :
  estimate_tokens text = 0%Z <-> Forall (fun c => is_space c = true) text.
Proof.
  rewrite <- split_nil_iff. unfold estimate_tokens. split.
  - intros H. destruct (split text) as [|x l]; [reflexivity|]. exfalso.
    assert (Hmono : (int_times_1_3 1 <= int_times_1_3
                       (Z.of_nat (length (x :: l))))%Z).
    { apply int_times_1_3_monotone. cbn [length]. lia. }
    rewrite H in Hmono. vm_compute in Hmono. now apply Hmono.
  - intros ->. reflexivity.
Qed.

(** X15. The estimate is zero exactly for a text without a word (empty or
    all whitespace); any word makes it at least one. *)
Theorem estimate_tokens_zero_iff (text : str) :
  estimate_tokens text = 0%Z <-> Forall (fun c => is_space c = true) text.
Proof. apply estimate_tokens_zero. Qed.

Lemma estimate_tokens_zero_iff_witness :
  estimate_tokens [" "%char; newline; " "%char] = 0%Z.
Proof.
  apply (proj2 (estimate_tokens_zero_iff [" "%char; newline; " "%char])).
  repeat constructor.
Defined.

(** ** The built-in rules always answer *)

Lemma star_loop_total {R} (step : str -> caps -> cont R -> option R)
    (k : cont R) :
  (forall s g, k s g <> None) ->
  forall fuel s g, star_loop step fuel s g k <> None.
Proof.
  intros Hk [|fuel] s g; cbn [star_loop]; [apply Hk|].
  destruct (step s g _); [discriminate | apply Hk].
Qed.

Lemma search_star_any (ic : bool) (text : str) :
  search ic (Star Any) text = true.
Proof.
  apply search_true_iff. exists [], text. split; [reflexivity|].
  unfold match_at. cbn [run]. apply star_loop_total.
  intros s g. cbv zeta. cbn [andb]. discriminate.
Qed.

Lemma simulate_response_some_rule (text : str) (rules : list rule)
    (values : dict str) :
  Exists (fun r => matches r text = true) rules ->
  exists r,
    In r rules /\ matches r text = true
    /\ simulate_response text rules values = fill_response (response r) values.
Proof.
  induction rules as [|r rules IH]; intros H; [inversion H|].
  cbn [simulate_response]. destruct (search true (regex r) text) eqn:E.
  - exists r. repeat split; [now left | exact E].
  - destruct IH as (r' & Hin & Hm & Hs).
    + inversion H as [? ? Hr|]; subst; [|assumption].
      unfold matches in Hr. congruence.
    + exists r'. repeat split; [now right | assumption | assumption].
Qed.

(** X16. With the built-in rules every prompt gets the response of one of
    the rules, a rule that matches it; the fixed text for no match
    never appears, and the value map does not show in the answer. *)
Theorem default_rules_always_answer (text : str) (values : dict str) :
  exists r,
    In r DEFAULT_RULES /\ matches r text = true
    /\ simulate_response text DEFAULT_RULES values = response r
    /\ response r <> txt "No matching response.".
Proof.
  destruct (simulate_response_some_rule text DEFAULT_RULES values)
    as (r & Hin & Hm & Hs).
  - apply Exists_exists. exists (Rule (Star Any)
      (txt "I understand. Here's a response addressing your needs.")).
    split; [simpl; tauto | apply search_star_any].
  - exists r. split; [assumption|]. split; [assumption|].
    assert (Hr : has_brace (response r) = false
                 /\ response r <> txt "No matching response.").
    { simpl in Hin.
      repeat (destruct Hin as [<-|Hin];
              [split; [vm_compute; reflexivity | vm_compute; discriminate]|]).
      destruct Hin. }
    destruct Hr as [Hb Hne]. split; [|exact Hne].
    rewrite Hs. now apply fill_response_no_brace, has_brace_false.
Qed.

(** ** What extraction can record *)

Lemma dict_set_in {V} (k k' : str) (v v' : V) (d : dict V) :
  In (k, v) (dict_set k' v' d) -> In (k, v) d \/ v = v'.
Proof.
  induction d as [|[k0 v0] d IH]; cbn [dict_set].
  - intros [H|[]]. injection H as _ <-. now right.
  - destruct (str_eqb k' k0).
    + intros [H|H]; [injection H as _ <-; now right | left; now right].
    + intros [H|H]; [left; now left|].
      destruct (IH H) as [H'|H']; [left; now right | now right].
Qed.

Lemma dict_update_values {V} (P : V -> Prop) (l : list (str * V))
    (d : dict V) :
  Forall (fun kv => P (snd kv)) d ->
  Forall (fun kv => P (snd kv)) l ->
  Forall (fun kv => P (snd kv)) (dict_update d l).
Proof.
  intros Hd Hl. revert d Hd. unfold dict_update.
  induction Hl as [|[k v] l Hv _ IH]; intros d Hd; [assumption|].
  cbn [fold_left fst snd] in *. apply IH. rewrite Forall_forall in *.
  intros [k0 v0] H. cbn [snd]. apply dict_set_in in H as [H| ->].
  - exact (Hd _ H).
  - exact Hv.
Qed.

(** X17. Whatever the template is, every name extraction records is a
    non-empty run of word characters, and a recorded default is never
    empty and holds no double quote. *)
Theorem extract_variables_entries (template name : str) (d : option str) :
  In (name, d) (extract_variables template) ->
  wf_name name
  /\ match d with
     | Some default => default <> [] /\ ~ In dquote default
     | None => True
     end.
Proof.
  intros Hin. split.
  - assert (Hk : In name (dict_keys (extract_variables template))).
    { unfold dict_keys. change name with (fst (name, d)). now apply in_map. }
    rewrite extract_variables_markers in Hk.
    apply (proj1 (dict_update_keys _ _)) in Hk.
    rewrite map_fst_record in Hk. apply in_map_iff in Hk as ([n d0] & <- & H0).
    apply (Scanned_present _ _ (markers_scanned template) n d0 H0).
  - rewrite extract_variables_markers in Hin.
    assert (H : Forall (fun kv : str * option str =>
                  match snd kv with
                  | Some default => default <> [] /\ ~ In dquote default
                  | None => True
                  end) (dict_update [] (map record (markers template)))).
    { apply (dict_update_values
               (fun d : option str =>
                  match d with
                  | Some default => default <> [] /\ ~ In dquote default
                  | None => True
                  end)); [constructor|]. rewrite Forall_forall.
      intros kv Hkv. apply in_map_iff in Hkv as ([n d0] & <- & H0).
      destruct (Scanned_present _ _ (markers_scanned template) n d0 H0)
        as (_ & Hd & _).
      cbn [record snd fst recorded]. destruct d0 as [d0|]; [|exact I].
      unfold or_none. destruct d0 as [|c d0]; [exact I|]. cbn [nonempty].
      split; [discriminate | exact Hd]. }
    rewrite Forall_forall in H. exact (H _ Hin).
Qed.

Lemma extract_variables_entries_witness :
  wf_name (txt "tone")
  /\ txt "dry" <> [] /\ ~ In dquote (txt "dry").
Proof.
  apply (extract_variables_entries
           (txt "Be {{tone|default=" ++ quoted (txt "dry") ++ txt "}}, {{name}}.")
           (txt "tone") (Some (txt "dry"))).
  vm_compute. auto.
Defined.

(** ** The output: when the token estimate shows *)

Lemma length_join (sep : str) (l : list str) :
  l <> [] ->
  length (join sep l) + length sep
  = list_sum (map (fun x => length x + length sep) l).
Proof.
  induction l as [|a l IH]; [congruence|]. intros _.
  destruct l as [|b l].
  - cbn. lia.
  - change (join sep (a :: b :: l)) with (a ++ sep ++ join sep (b :: l)).
    rewrite !length_app. pose proof (IH ltac:(discriminate)) as IH'.
    cbn [map list_sum fold_right] in *. lia.
Qed.

Lemma length_join_insert (sep : str) (l1 x l2 : list str) :
  sep <> [] -> l1 <> [] -> x <> [] ->
  length (join sep (l1 ++ l2)) < length (join sep (l1 ++ x ++ l2)).
Proof.
  intros Hsep H1 Hx.
  pose proof (length_join sep (l1 ++ l2)) as E1.
  pose proof (length_join sep (l1 ++ x ++ l2)) as E2.
  rewrite !map_app, !list_sum_app in *.
  assert (Hne : forall l : list str, l1 ++ l <> []).
  { intros l H. now apply app_eq_nil in H as [? _]. }
  specialize (E1 (Hne _)). specialize (E2 (Hne _)).
  destruct x as [|x0 x]; [congruence|]. destruct sep; [congruence|].
  cbn [map list_sum fold_right length] in *. lia.
Qed.

Lemma length_dumps_insert (a b : str * str) (x : list (str * str))
    (rest : list (str * str)) :
  x <> [] ->
  length (dumps ([a; b] ++ rest)) < length (dumps ([a; b] ++ x ++ rest)).
Proof.
  intros Hx. unfold dumps. rewrite !length_app, !map_app.
  apply Nat.add_lt_mono_l, Nat.add_lt_mono_l, Nat.add_lt_mono_r.
  apply length_join_insert; try discriminate.
  destruct x; [congruence | discriminate].
Qed.

Lemma written_print_out (line : str) (s : system) :
  written (print_out line s) = written s + S (length line).
Proof.
  unfold written, print_out, with_console. cbn [console stdout].
  rewrite concat_app, length_app. cbn [concat]. rewrite app_nil_r, length_app.
  cbn [length]. lia.
Qed.

Lemma written_console (s : system) (tty : bool) (fs : dict str) (n : nat) :
  written (System (console s) tty fs n) = written s.
Proof. reflexivity. Qed.

Lemma format_output_tokens_longer (clock : nat -> instant) (prompt : str)
    (response : option str) (o : options) (s : system) :
  show_tokens o = true ->
  estimate_tokens prompt <> 0%Z ->
  written (format_output clock prompt response (without_tokens o) s)
  < written (format_output clock prompt response o s).
Proof.
  intros Hshow Hne. unfold format_output.
  cbn [without_tokens show_tokens format]. rewrite Hshow.
  cbn [nonzero int_of].
  replace (estimate_tokens prompt =? 0)%Z with false
    by (symmetry; now apply Z.eqb_neq).
  cbn [negb]. destruct (format o).
  - destruct (truthy response); rewrite !written_print_out; abstract_lengths.
  - unfold now. destruct (truthy response);
      rewrite ?written_print_out, written_console, ?written_print_out;
      abstract_lengths.
  - unfold now. rewrite !written_print_out, !written_console.
    pose proof (length_dumps_insert
                  (txt "prompt", json_string prompt)
                  (txt "timestamp", json_string (isoformat (clock (ticks s))))
                  [(txt "tokens", str_of_int (estimate_tokens prompt))]
                  (if truthy response
                   then [(txt "response", json_string (text_of response))]
                   else []) ltac:(discriminate)) as Hlt.
    cbn [app] in *. revert Hlt. abstract_lengths.
Qed.

(** X18. With [--show-tokens] the output differs from the output without
    it exactly when the prompt holds a word: for an empty or blank
    prompt the option shows nothing, in every format. *)
Theorem format_output_show_tokens (clock : nat -> instant) (prompt : str)
    (response : option str) (o : options) (s : system) :
  show_tokens o = true ->
  format_output clock prompt response o s
  = format_output clock prompt response (without_tokens o) s
  <-> Forall (fun c => is_space c = true) prompt.
Proof.
  intros Hshow. rewrite <- estimate_tokens_zero. split.
  - intros Heq. destruct (Z.eq_dec (estimate_tokens prompt) 0) as [|Hne];
      [assumption|]. exfalso.
    pose proof (format_output_tokens_longer clock prompt response o s
                  Hshow Hne) as Hlt.
    rewrite Heq in Hlt. lia.
  - intros Hz. unfold format_output.
    cbn [without_tokens show_tokens format]. rewrite Hshow, Hz. reflexivity.
Qed.

Lemma format_output_show_tokens_witness :
  format_output (fun _ => Instant (txt "2026-01-01T00:00:00") (txt "2026-01-01 00:00:00"))
    [" "%char; newline] None
    (Options None None (Args None [] false) false None Json true None
             false false false)
    (System (World [] [] []) true [] 0)
  = format_output (fun _ => Instant (txt "2026-01-01T00:00:00") (txt "2026-01-01 00:00:00"))
      [" "%char; newline] None
      (without_tokens
         (Options None None (Args None [] false) false None Json true None
                  false false false))
      (System (World [] [] []) true [] 0).
Proof.
  apply (proj2 (format_output_show_tokens _ [" "%char; newline] None
                  (Options None None (Args None [] false) false None Json true
                           None false false false)
                  (System (World [] [] []) true [] 0) eq_refl)).
  repeat constructor.
Defined.

(** ** [main]: failures, the history file, the template on the input *)

Lemma load_template_keeps (o : options) (s s1 : system) (r : outcome str) :
  load_template o s = (r, s1) ->
  files s1 = files s /\ ticks s1 = ticks s
  /\ stdout (console s1) = stdout (console s)
  /\ stderr (console s1) = stderr (console s)
  /\ (forall f, r = Failed f -> f = NoTemplate /\ s1 = s).
Proof.
  unfold load_template. destruct (truthy (inline_template o)).
  - intros H. injection H as <- <-. repeat split; discriminate.
  - destruct (template o).
    + intros H. injection H as <- <-. repeat split; discriminate.
    + destruct (isatty s); intros H; injection H as <- <-.
      * repeat split; congruence.
      * repeat split; discriminate.
Qed.




Lemma format_output_keeps (clock : nat -> instant) (prompt : str)
    (response : option str) (o : options) (s : system) :
  files (format_output clock prompt response o s) = files s
  /\ stderr (console (format_output clock prompt response o s))
     = stderr (console s).
Proof.
  unfold format_output.
  destruct (format o), (nonzero _), (truthy response); split; reflexivity.
Qed.



Lemma content_set (path fp text : str) (fs : dict str) :
  content path (dict_set fp text fs)
  = if str_eqb path fp then text else content path fs.
Proof. unfold content. rewrite dict_get_set. now destruct (str_eqb path fp). Qed.

(** X20. [main] only ever appends to a file: whatever the run, what a path
    held before is the beginning of what it holds after, and
    something is added only by a successful run with [--save], to the
    file the option names. *)
Theorem main_appends_to_history (clock : nat -> instant)
    (expanduser : str -> str) (o : options) (s : system) (path : str) :
  exists entry,
    content path (files (snd (main clock expanduser o s)))
    = content path (files s) ++ entry
    /\ (entry <> [] ->
        fst (main clock expanduser o s) = 0
        /\ truthy (save o) = true
        /\ path = expanduser (text_of (save o))).
Proof.
  assert (Hsame : forall r : nat * system,
            files (snd r) = files s ->
            exists entry,
              content path (files (snd r)) = content path (files s) ++ entry
              /\ (entry <> [] ->
                  fst r = 0 /\ truthy (save o) = true
                  /\ path = expanduser (text_of (save o)))).
  { intros r ->. exists []. split; [now rewrite app_nil_r | congruence]. }
  unfold main. destruct (version o); [now apply Hsame|].
  destruct (load_template o s) as [[t|f] s1] eqn:Hload;
    destruct (load_template_keeps _ _ _ _ Hload) as (Hfiles & _);
    [|now apply Hsame].
  destruct (check o).
  { apply Hsame. cbn [snd]. rewrite <- Hfiles.
    assert (H : forall (l : list (str * option str)) s0,
              files (fold_left (fun s vd => print_out (check_line vd) s) l s0)
              = files s0).
    { induction l as [|vd l IH]; intros s0; [reflexivity|].
      cbn [fold_left]. now rewrite IH. }
    now rewrite H. }
  destruct (collect_values _ _ _) as [[values|e] w]; [|now apply Hsame].
  destruct (render_template t values) as [rendered|e]; [|now apply Hsame].
  destruct (dry_run o); [now apply Hsame|].
  set (response := if simulate o then _ else None).
  destruct (format_output_keeps clock rendered response o (with_console w s1))
    as [Hf _].
  destruct (truthy (save o)) eqn:Hsave.
  - cbn [fst snd]. unfold save_to_history, now.
    cbn [print_err with_console files console ticks isatty].
    rewrite content_set, Hf. cbn [with_console files]. rewrite Hfiles.
    destruct (str_eqb_spec path (expanduser (text_of (save o)))) as [->|Hne].
    + eexists. split; [reflexivity|]. intros _. repeat split.
    + exists []. split; [now rewrite app_nil_r | congruence].
  - apply Hsame. cbn [snd]. now rewrite Hf.
Qed.

(** X21. A template read from the standard input uses the input up: in
    the interactive mode, a variable left to ask for gets its prompt
    and the run ends there with [EOF when reading a line], whatever
    the input held. *)
Theorem main_template_from_stdin_cannot_prompt (clock : nat -> instant)
    (expanduser : str -> str) (o : options) (s : system) :
  version o = false -> check o = false ->
  truthy (inline_template o) = false -> template o = None ->
  isatty s = false ->
  interactive (sources o) = true ->
  well_formed_cli (sources o) ->
  unresolved (extract_variables (read_all (stdin (console s)))) (sources o)
  <> [] ->
  exists name default,
    main clock expanduser o s
    = (1, System (World [] (stdout (console s) ++ [prompt_for name default])
                        (stderr (console s)
                         ++ [txt "Error: EOF when reading a line"]))
                 false (files s) (ticks s)).
Proof.
  intros Hv Hcheck Hinline Hfile Htty Hi Hwf Hnames.
  unfold main, load_template. rewrite Hv, Hinline, Hfile, Htty, Hcheck.
  cbn [with_console console].
  rewrite collect_values_sources
    by (assumption || apply extract_variables_nodup).
  cbv zeta. rewrite Hi. cbn [stdin length stdout stderr].
  destruct (unresolved _ (sources o)) as [|name names]; [congruence|].
  cbn [length Nat.leb firstn prompts map].
  exists name,
    (default_for name (extract_variables (read_all (stdin (console s))))).
  unfold fail, print_err, with_console.
  cbn [console stdin stdout stderr isatty files ticks]. now rewrite Htty.
Qed.

Lemma main_template_from_stdin_cannot_prompt_witness :
  exists name default,
    main (fun _ => Instant (txt "2026-01-01T00:00:00") (txt "2026-01-01 00:00:00"))
      (fun p => p)
      (Options None None (Args None [] true) false None Text false None
               false false false)
      (System (World [txt "Dear {{name}},"; txt "Ada"] [] []) false [] 0)
    = (1, System (World [] ([] ++ [prompt_for name default])
                        ([] ++ [txt "Error: EOF when reading a line"]))
                 false [] 0).
Proof.
  apply (main_template_from_stdin_cannot_prompt _ (fun p => p)
           (Options None None (Args None [] true) false None Text false None
                    false false false)
           (System (World [txt "Dear {{name}},"; txt "Ada"] [] []) false [] 0));
    try reflexivity.
  - constructor.
  - vm_compute. discriminate.
Defined.

(** X22. From the command line to the output: for a well-formed inline
    template, once resolution has given plain values, the plain
    invocation prints the template with every marker filled, then a
    line break, and nothing else; the exit status is 0. *)
Theorem main_prints_filled_template (clock : nat -> instant)
    (expanduser : str -> str) (o : options) (s : system)
    (segs : list seg) (values : dict str) (w : world) :
  version o = false -> check o = false -> dry_run o = false ->
  simulate o = false -> show_tokens o = false -> format o = Text ->
  truthy (save o) = false ->
  inline_template o = Some (print segs) -> print segs <> [] ->
  Forall wf_seg segs ->
  collect_values (extract_variables (print segs)) (sources o) (console s)
  = (Ok values, w) ->
  Forall plain_entry values ->
  main clock expanduser o s
  = (0, System (World (stdin w)
                      (stdout w ++ [flat_map (fill values) segs ++ [newline]])
                      (stderr w))
               (isatty s) (files s) (ticks s)).
Proof.
  intros Hv Hcheck Hdry Hsim Htok Hfmt Hsave Hinline Hne Hsegs Hc Hvalues.
  assert (Hn : nonempty (print segs) = true)
    by (destruct (print segs); [congruence | reflexivity]).
  unfold main, load_template. rewrite Hv, Hinline. cbn [truthy text_of].
  rewrite Hn, Hcheck, Hc, render_template_fill by assumption.
  rewrite Hdry, Hsim, Hsave. unfold format_output. rewrite Htok, Hfmt.
  reflexivity.
Qed.

Lemma main_prints_filled_template_witness :
  main (fun _ => Instant (txt "2026-01-01T00:00:00") (txt "2026-01-01 00:00:00"))
    (fun p => p)
    (Options None (Some (print greeting))
       (Args None [txt "state=late"; txt "sign=A."; txt "tone=dry"] false)
       false None Text false None false false false)
    (System (World [] [] []) true [] 0)
  = (0, System
          (World []
             ([] ++ [flat_map
                       (fill [(txt "state", txt "late"); (txt "sign", txt "A.");
                              (txt "tone", txt "dry"); (txt "name", txt "friend")])
                       greeting ++ [newline]])
             [txt "Warning: Unused: tone"])
          true [] 0).
Proof.
  apply (main_prints_filled_template _ (fun p => p)
           (Options None (Some (print greeting))
              (Args None [txt "state=late"; txt "sign=A."; txt "tone=dry"] false)
              false None Text false None false false false)
           (System (World [] [] []) true [] 0) greeting
           [(txt "state", txt "late"); (txt "sign", txt "A.");
            (txt "tone", txt "dry"); (txt "name", txt "friend")]
           (World [] [] [txt "Warning: Unused: tone"]));
    try reflexivity.
  - vm_compute. discriminate.
  - unfold greeting. concrete_wf.
  - concrete_wf.
Defined.

(** ** The JSON output can be read back *)

Lemma json_read_body_char (c : ascii) (rest : str) :
  json_read_body (json_char c ++ rest) = read_more c (json_read_body rest).
Proof. destruct c as [[] [] [] [] [] [] [] []]; reflexivity. Qed.

Lemma json_read_string (s rest : str) :
  json_read (json_string s ++ rest) = Some (s, rest).
Proof.
  unfold json_string, quoted. cbn [app json_read]. rewrite Ascii.eqb_refl.
  rewrite <- app_assoc. cbn [app].
  induction s as [|c s IH]; cbn [flat_map app].
  - cbn [json_read_body]. now rewrite Ascii.eqb_refl.
  - rewrite <- app_assoc, json_read_body_char, IH. reflexivity.
Qed.

Lemma dumps_first (kv m : str * str) (more : list (str * str)) :
  dumps (kv :: m :: more)
  = (txt "{" ++ [newline] ++ txt "  " ++ json_string (fst kv) ++ txt ": "
     ++ snd kv)
    ++ (txt "," ++ [newline])
    ++ join (txt "," ++ [newline])
         (map (fun kv => txt "  " ++ json_string (fst kv) ++ txt ": " ++ snd kv)
              (m :: more))
    ++ [newline] ++ txt "}".
Proof.
  unfold dumps. cbn [map].
  change (join ?sep (?a :: ?b :: ?l)) with (a ++ sep ++ join sep (b :: l)).
  rewrite <- !app_assoc. reflexivity.
Qed.

(** X23. In the JSON format the document opens with the member [prompt],
    and reading its string back gives the prompt exactly, whatever
    characters it holds: quotes, backslashes, line breaks and control
    characters are escaped without loss. *)
Theorem format_output_json_prompt (clock : nat -> instant) (prompt : str)
    (response : option str) (o : options) (s : system) :
  format o = Json ->
  exists literal rest,
    stdout (console (format_output clock prompt response o s))
    = stdout (console s)
      ++ [txt "{" ++ [newline] ++ txt "  " ++ quoted (txt "prompt") ++ txt ": "
          ++ literal ++ rest]
    /\ json_read (literal ++ rest) = Some (prompt, rest)
    /\ Forall (fun c => between 32 126 c = true) literal.
Proof.
  intros Hfmt. unfold format_output. rewrite Hfmt. unfold now.
  exists (json_string prompt). eexists. split; [|split].
  - cbn [print_out with_console console stdout app]. rewrite dumps_first.
    cbn [fst snd]. rewrite <- !app_assoc. reflexivity.
  - apply json_read_string.
  - unfold json_string, quoted. constructor; [reflexivity|].
    apply Forall_app. split; [|repeat constructor].
    apply Forall_flat_map. apply Forall_forall. intros c _.
    destruct c as [[] [] [] [] [] [] [] []]; repeat constructor.
Qed.

Lemma format_output_json_prompt_witness :
  exists literal rest,
    stdout (console (format_output
      (fun _ => Instant (txt "2026-01-01T00:00:00") (txt "2026-01-01 00:00:00"))
      (txt "say " ++ quoted (txt "hi") ++ [newline] ++ txt "C:\new")
      None
      (Options None None (Args None [] false) false None Json false None
               false false false)
      (System (World [] [] []) true [] 0)))
    = stdout (console (System (World [] [] []) true [] 0))
      ++ [txt "{" ++ [newline] ++ txt "  " ++ quoted (txt "prompt") ++ txt ": "
          ++ literal ++ rest]
    /\ json_read (literal ++ rest)
       = Some (txt "say " ++ quoted (txt "hi") ++ [newline] ++ txt "C:\new", rest)
    /\ Forall (fun c => between 32 126 c = true) literal.
Proof.
  apply format_output_json_prompt. reflexivity.
Defined.
